(** * LinkedIn Job Tracker: the content script, embedded and verified

    The development follows the content script of the browser extension
    (the revision with per-affordance injection, [BUTTON_ID_PREFIX] and
    [currentJobId] deep links).  Its functions are embedded as Rocq
    functions over

    - JavaScript strings as lists of UTF-16 code units ([JS.jsstring]),
    - the live DOM as a tree of element and text nodes in which every
      element carries an identity ([Dom.node]), so that references held
      in arrays ([applyButtons]) survive insertions elsewhere in the tree,
    - the asynchronous click handler as a labelled transition system on
      the control, its pending continuations and timers ([Submitter]).

    The earlier revision of the script (one fixed button id, no container
    check) is embedded in [Module Legacy] where it differs. *)

From Stdlib Require Import List NArith Bool Arith Lia String Ascii.
Import ListNotations.

(* ================================================================== *)
(** * JavaScript strings *)
(* ================================================================== *)

Module JS.

(** A JavaScript string is a sequence of UTF-16 code units; [length],
    [substring] and [===] all work on code units. *)
Definition jsstring := list N.

(** String literals of the script that are plain ASCII. *)
Definition js (s : string) : jsstring :=
  map N_of_ascii (list_ascii_of_string s).

(** [a === b] on strings. *)
Fixpoint eqb (a b : jsstring) : bool :=
  match a, b with
  | [], [] => true
  | x :: a', y :: b' => N.eqb x y && eqb a' b'
  | _, _ => false
  end.

(** A string is falsy exactly when it is empty. *)
Definition truthy (s : jsstring) : bool :=
  match s with [] => false | _ :: _ => true end.

(** [s.substring(0, n)] *)
Definition substring0 (n : nat) (s : jsstring) : jsstring := firstn n s.

(** [s.startsWith(prefix)], also the test behind the [^=] attribute
    selector. *)
Fixpoint startsWith (s prefix : jsstring) : bool :=
  match prefix, s with
  | [], _ => true
  | p :: prefix', c :: s' => N.eqb c p && startsWith s' prefix'
  | _ :: _, [] => false
  end.

(** WhiteSpace and LineTerminator code points of ECMAScript, the ones
    [String.prototype.trim] removes. *)
Definition isWhiteSpace (c : N) : bool :=
  ((9 <=? c) && (c <=? 13) || (c =? 32) || (c =? 160) || (c =? 5760)
   || (8192 <=? c) && (c <=? 8202) || (c =? 8232) || (c =? 8233)
   || (c =? 8239) || (c =? 8287) || (c =? 12288) || (c =? 65279))%N.

Fixpoint trimStart (s : jsstring) : jsstring :=
  match s with
  | [] => []
  | c :: s' => if isWhiteSpace c then trimStart s' else s
  end.

Definition trimEnd (s : jsstring) : jsstring := rev (trimStart (rev s)).

Definition trim (s : jsstring) : jsstring := trimEnd (trimStart s).

(** [toLowerCase], restricted to Basic Latin: the letters A-Z are mapped,
    every other code unit is kept.  The script uses [toLowerCase] only to
    compare with the literals ['apply'] and ['easy apply']; no code point
    outside Basic Latin lower-cases to a letter of these, so the
    comparison is decided as with the full Unicode mapping. *)
Definition lower_unit (c : N) : N :=
  if ((65 <=? c) && (c <=? 90))%N then (c + 32)%N else c.

Definition toLowerCase (s : jsstring) : jsstring := map lower_unit s.

(** [s.split(sep)[0]] for a one-unit separator: the part before the
    first occurrence of [sep], the whole string when there is none. *)
Fixpoint before (sep : N) (s : jsstring) : jsstring :=
  match s with
  | [] => []
  | c :: s' => if N.eqb c sep then [] else c :: before sep s'
  end.

(** The part after the first occurrence of [sep], if there is one. *)
Fixpoint after (sep : N) (s : jsstring) : option jsstring :=
  match s with
  | [] => None
  | c :: s' => if N.eqb c sep then Some s' else after sep s'
  end.

(** [s.split(sep)] for a one-unit separator. *)
Fixpoint split_on (sep : N) (s : jsstring) : list jsstring :=
  match s with
  | [] => [[]]
  | c :: s' =>
      if N.eqb c sep then [] :: split_on sep s'
      else match split_on sep s' with
           | [] => [[c]]
           | w :: ws => (c :: w) :: ws
           end
  end.

End JS.

Abbreviation jsstring := JS.jsstring.
Abbreviation js := JS.js.

(* ================================================================== *)
(** * The DOM *)
(* ================================================================== *)

Module Dom.

(** What the script reads of an element besides its children: the tag,
    the attributes (with [id], [class], [title], [aria-label] and the
    [data-*] attributes behind [dataset]) and the layout numbers behind
    [isVisible]. *)
Record props := {
  tagName : jsstring;                       (* lower-case local name *)
  attributes : list (jsstring * jsstring);
  offsetWidth : N;
  offsetHeight : N;
  clientRects : N                            (* getClientRects().length *)
}.

(** A node of the tree.  [nid] is the identity of the element object, the
    thing JavaScript compares with [===] and keeps in arrays and sets; it
    is not the [id] attribute. *)
#[local] Unset Elimination Schemes.
Inductive node :=
| Text (data : jsstring)
| Element (nid : nat) (p : props) (children : list node).
#[local] Set Elimination Schemes.

Fixpoint getAttr (attrs : list (jsstring * jsstring)) (name : jsstring)
  : option jsstring :=
  match attrs with
  | [] => None
  | (k, v) :: rest => if JS.eqb k name then Some v else getAttr rest name
  end.

Fixpoint setAttr (attrs : list (jsstring * jsstring)) (name v : jsstring)
  : list (jsstring * jsstring) :=
  match attrs with
  | [] => [(name, v)]
  | (k, w) :: rest =>
      if JS.eqb k name then (k, v) :: rest else (k, w) :: setAttr rest name v
  end.

(** [elem.getAttribute(name)] *)
Definition getAttribute (p : props) (name : jsstring) : option jsstring :=
  getAttr (attributes p) name.

(** [elem.setAttribute(name, v)] *)
Definition setAttribute (p : props) (name v : jsstring) : props :=
  {| tagName := tagName p;
     attributes := setAttr (attributes p) name v;
     offsetWidth := offsetWidth p;
     offsetHeight := offsetHeight p;
     clientRects := clientRects p |}.

(** ASCII whitespace separates the tokens of a [class] attribute. *)
Definition isAsciiSpace (c : N) : bool :=
  ((c =? 32) || (c =? 9) || (c =? 10) || (c =? 12) || (c =? 13))%N.

Fixpoint tokens_aux (cur : jsstring) (s : jsstring) : list jsstring :=
  match s with
  | [] => match cur with [] => [] | _ => [rev cur] end
  | c :: s' =>
      if isAsciiSpace c
      then match cur with
           | [] => tokens_aux [] s'
           | _ => rev cur :: tokens_aux [] s'
           end
      else tokens_aux (c :: cur) s'
  end.

Definition tokens (s : jsstring) : list jsstring := tokens_aux [] s.

(** [elem.classList] *)
Definition classList (p : props) : list jsstring :=
  match getAttribute p (js "class") with
  | Some c => tokens c
  | None => []
  end.

(** [elem.classList.contains(c)] *)
Definition hasClass (p : props) (c : jsstring) : bool :=
  existsb (JS.eqb c) (classList p).

(** [node.textContent]: the text of all descendants, in document order. *)
Fixpoint textContent (n : node) : jsstring :=
  match n with
  | Text s => s
  | Element _ _ cs => flat_map textContent cs
  end.

Definition nid_of (n : node) : option nat :=
  match n with Text _ => None | Element i _ _ => Some i end.

Definition is_node (i : nat) (n : node) : bool :=
  match n with Text _ => false | Element j _ _ => Nat.eqb j i end.

(** ** Selectors

    The selectors of the script, in parsed form: a compound selector
    tests one element, a complex selector chains compounds with the
    descendant combinator, a selector list separates complex selectors
    with commas. *)

Inductive attr_test :=
| AttrPresent (name : jsstring)              (* [name] *)
| AttrPrefix (name value : jsstring).        (* [name^="value"] *)

Record compound := {
  sel_tag : option jsstring;
  sel_id : option jsstring;
  sel_classes : list jsstring;
  sel_attrs : list attr_test
}.

(** A complex selector, subject first: [".a .b h1"] is [[h1; .b; .a]]. *)
Definition complex := list compound.
Definition selector := list complex.

Definition test_attr (p : props) (t : attr_test) : bool :=
  match t with
  | AttrPresent name =>
      match getAttribute p name with Some _ => true | None => false end
  | AttrPrefix name value =>
      match getAttribute p name with
      | Some v => JS.truthy value && JS.startsWith v value
      | None => false
      end
  end.

Definition matches_compound (p : props) (c : compound) : bool :=
  match sel_tag c with Some t => JS.eqb (tagName p) t | None => true end
  && match sel_id c with
     | Some i => match getAttribute p (js "id") with
                 | Some v => JS.eqb v i
                 | None => false
                 end
     | None => true
     end
  && forallb (hasClass p) (sel_classes c)
  && forallb (test_attr p) (sel_attrs c).

(** The ancestors of an element, nearest first. *)
Definition ctx := list (nat * props).

(** The compounds [rest] match along the ancestors [anc], each one
    further out than the one before. *)
Fixpoint matches_ancestors (rest : list compound) : ctx -> bool :=
  match rest with
  | [] => fun _ => true
  | c :: r =>
      fix along (anc : ctx) : bool :=
        match anc with
        | [] => false
        | (_, a) :: anc' =>
            (matches_compound a c && matches_ancestors r anc') || along anc'
        end
  end.

Definition matches_complex (anc : ctx) (p : props) (x : complex) : bool :=
  match x with
  | [] => false
  | c :: rest => matches_compound p c && matches_ancestors rest anc
  end.

(** [elem.matches(sel)] for an element with ancestors [anc]. *)
Definition matches (sel : selector) (anc : ctx) (p : props) : bool :=
  existsb (matches_complex anc p) sel.

Definition node_matches (sel : selector) (e : ctx * node) : bool :=
  match snd e with
  | Text _ => false
  | Element _ p _ => matches sel (fst e) p
  end.

(** ** Traversal *)

(** The elements of a subtree in document order, each with its
    ancestors; [anc] are the ancestors of [n] itself. *)
Fixpoint listing (anc : ctx) (n : node) : list (ctx * node) :=
  match n with
  | Text _ => []
  | Element i p cs => (anc, n) :: flat_map (listing ((i, p) :: anc)) cs
  end.

(** The proper descendants of an element. *)
Definition descendants (anc : ctx) (n : node) : list (ctx * node) :=
  match n with
  | Text _ => []
  | Element i p cs => flat_map (listing ((i, p) :: anc)) cs
  end.

(** [document.querySelectorAll(sel)], on the tree under the document
    element [d]. *)
Definition querySelectorAll (d : node) (sel : selector) : list (ctx * node) :=
  filter (node_matches sel) (listing [] d).

(** [document.querySelector(sel)] *)
Definition querySelector (d : node) (sel : selector) : option node :=
  match querySelectorAll d sel with
  | [] => None
  | e :: _ => Some (snd e)
  end.

(** The element with identity [i], with its ancestors. *)
Definition locate (d : node) (i : nat) : option (ctx * node) :=
  find (fun e => is_node i (snd e)) (listing [] d).

(** [elem.querySelector(sel)] for the element [i] of [d]: the first
    proper descendant that matches. *)
Definition querySelectorIn (d : node) (i : nat) (sel : selector)
  : option node :=
  match locate d i with
  | None => None
  | Some (anc, n) =>
      match filter (node_matches sel) (descendants anc n) with
      | [] => None
      | e :: _ => Some (snd e)
      end
  end.

(** [elem.closest(sel)] from an element with properties [p], identity
    [i] and ancestors [anc]: the element itself or its nearest ancestor
    that matches. *)
Fixpoint closest (sel : selector) (i : nat) (p : props) (anc : ctx)
  : option nat :=
  if matches sel anc p then Some i
  else match anc with
       | [] => None
       | (j, q) :: anc' => closest sel j q anc'
       end.

(** Shorthands to write selectors down. *)
Definition cls (c : string) : compound :=
  {| sel_tag := None; sel_id := None; sel_classes := [js c]; sel_attrs := [] |}.
Definition tag (t : string) : compound :=
  {| sel_tag := Some (js t); sel_id := None; sel_classes := [];
     sel_attrs := [] |}.
Definition tag_cls (t c : string) : compound :=
  {| sel_tag := Some (js t); sel_id := None; sel_classes := [js c];
     sel_attrs := [] |}.
Definition by_id (i : string) : compound :=
  {| sel_tag := None; sel_id := Some (js i); sel_classes := [];
     sel_attrs := [] |}.
Definition has_attr (a : string) : compound :=
  {| sel_tag := None; sel_id := None; sel_classes := [];
     sel_attrs := [AttrPresent (js a)] |}.
Definition attr_prefix (a v : string) : compound :=
  {| sel_tag := None; sel_id := None; sel_classes := [];
     sel_attrs := [AttrPrefix (js a) (js v)] |}.
Definition tag_attr_prefix (t a v : string) : compound :=
  {| sel_tag := Some (js t); sel_id := None; sel_classes := [];
     sel_attrs := [AttrPrefix (js a) (js v)] |}.

End Dom.

(* ================================================================== *)
(** * The page address *)
(* ================================================================== *)

Module Url.

(** [window.location.search] of the address [href]: the query, from the
    first [?] up to the fragment, with its [?]; empty when the query is
    absent or empty. *)
Definition location_search (href : jsstring) : jsstring :=
  match JS.after 63 (JS.before 35 href) with
  | Some (c :: q) => 63%N :: c :: q
  | _ => []
  end.

Definition hex_val (c : N) : option N :=
  if ((48 <=? c) && (c <=? 57))%N then Some (c - 48)%N
  else if ((65 <=? c) && (c <=? 70))%N then Some (c - 55)%N
  else if ((97 <=? c) && (c <=? 102))%N then Some (c - 87)%N
  else None.

(** [+] becomes a space and [%XX] the byte [XX]. *)
Fixpoint percent_decode (s : jsstring) : list N :=
  match s with
  | [] => []
  | c :: r =>
      if (c =? 37)%N then
        match r with
        | h1 :: h2 :: r2 =>
            match hex_val h1, hex_val h2 with
            | Some a, Some b => (16 * a + b)%N :: percent_decode r2
            | _, _ => c :: percent_decode r
            end
        | _ => c :: percent_decode r
        end
      else (if (c =? 43)%N then 32%N else c) :: percent_decode r
  end.

Definition in_range (lo hi b : N) : bool := ((lo <=? b) && (b <=? hi))%N.

(** A code point as UTF-16 code units. *)
Definition utf16 (cp : N) : jsstring :=
  if (cp <? 65536)%N then [cp]
  else [(55296 + (cp - 65536) / 1024)%N; (56320 + (cp - 65536) mod 1024)%N].

(** UTF-8 decoding with U+FFFD for ill-formed sequences.  Units outside
    the byte range do not occur in a serialised address and are kept. *)
Fixpoint utf8_decode (bs : list N) : jsstring :=
  match bs with
  | [] => []
  | b :: r =>
      if ((b <? 128) || (255 <? b))%N then b :: utf8_decode r
      else if in_range 194 223 b then
        match r with
        | b1 :: r1 =>
            if in_range 128 191 b1
            then utf16 ((b - 192) * 64 + (b1 - 128))%N ++ utf8_decode r1
            else 65533%N :: utf8_decode r
        | [] => [65533%N]
        end
      else if in_range 224 239 b then
        match r with
        | b1 :: r1 =>
            if in_range (if (b =? 224)%N then 160 else 128)
                        (if (b =? 237)%N then 159 else 191) b1
            then match r1 with
                 | b2 :: r2 =>
                     if in_range 128 191 b2
                     then utf16 ((b - 224) * 4096 + (b1 - 128) * 64
                                 + (b2 - 128))%N ++ utf8_decode r2
                     else 65533%N :: utf8_decode r1
                 | [] => [65533%N]
                 end
            else 65533%N :: utf8_decode r
        | [] => [65533%N]
        end
      else if in_range 240 244 b then
        match r with
        | b1 :: r1 =>
            if in_range (if (b =? 240)%N then 144 else 128)
                        (if (b =? 244)%N then 143 else 191) b1
            then match r1 with
                 | b2 :: r2 =>
                     if in_range 128 191 b2
                     then match r2 with
                          | b3 :: r3 =>
                              if in_range 128 191 b3
                              then utf16 ((b - 240) * 262144
                                          + (b1 - 128) * 4096
                                          + (b2 - 128) * 64
                                          + (b3 - 128))%N ++ utf8_decode r3
                              else 65533%N :: utf8_decode r2
                          | [] => [65533%N]
                          end
                     else 65533%N :: utf8_decode r1
                 | [] => [65533%N]
                 end
            else 65533%N :: utf8_decode r
        | [] => [65533%N]
        end
      else 65533%N :: utf8_decode r
  end.

(** Decoding of one name or value of a query string
    (application/x-www-form-urlencoded). *)
Definition form_decode (s : jsstring) : jsstring :=
  utf8_decode (percent_decode s).

Definition parse_pair (piece : jsstring) : jsstring * jsstring :=
  (form_decode (JS.before 61 piece),
   form_decode (match JS.after 61 piece with Some v => v | None => [] end)).

(** [new URLSearchParams(init)]: the name-value pairs, in order. *)
Definition URLSearchParams (init : jsstring) : list (jsstring * jsstring) :=
  let s := match init with
           | c :: r => if (c =? 63)%N then r else init
           | [] => init
           end in
  map parse_pair (filter JS.truthy (JS.split_on 38 s)).

(** [params.get(name)]: the first value under [name], [null] if none. *)
Definition get (params : list (jsstring * jsstring)) (name : jsstring)
  : option jsstring :=
  Dom.getAttr params name.

End Url.

(* ================================================================== *)
(** * The Scraper *)
(* ================================================================== *)

Module Scraper.
Import Dom.

Record JobRecord := {
  job_title : jsstring;
  company : jsstring;
  description : jsstring;
  url : jsstring
}.

(** [document.querySelector(s1) || document.querySelector(s2) || ...] *)
Fixpoint first_match (d : node) (sels : list selector) : option node :=
  match sels with
  | [] => None
  | s :: rest =>
      match querySelector d s with
      | Some e => Some e
      | None => first_match d rest
      end
  end.

Definition TITLE_LOCATORS : list selector :=
  [ [[tag "h1"; cls "job-details-jobs-unified-top-card__job-title"]];
    [[cls "jobs-unified-top-card__job-title"]];
    [[cls "job-details-jobs-unified-top-card__job-title"]];
    [[tag_cls "h1" "t-24"]];
    [[tag "h1"]] ].

Definition COMPANY_LOCATORS : list selector :=
  [ [[tag "a"; cls "job-details-jobs-unified-top-card__company-name"]];
    [[tag "a"; cls "jobs-unified-top-card__company-name"]];
    [[cls "job-details-jobs-unified-top-card__company-name"]];
    [[cls "jobs-unified-top-card__company-name"]] ].

Definition DESCRIPTION_LOCATORS : list selector :=
  [ [[cls "jobs-box__html-content"; cls "jobs-description__content"]];
    [[cls "jobs-description-content__text"]];
    [[by_id "job-details"]] ].

Definition UNKNOWN_POSITION : jsstring := js "Unknown Position".
Definition UNKNOWN_COMPANY : jsstring := js "Unknown Company".

(** The one-unit string ["…"] (U+2026). *)
Definition ELLIPSIS : jsstring := [8230%N].

(** [el ? el.textContent.trim() : fallback] *)
Definition text_or (el : option node) (fallback : jsstring) : jsstring :=
  match el with
  | Some e => JS.trim (textContent e)
  | None => fallback
  end.

(** [fullDesc] of [scrapeJobData]: the trimmed text of the description
    element, empty when there is none. *)
Definition fullDesc (d : node) : jsstring :=
  text_or (first_match d DESCRIPTION_LOCATORS) [].

(** [fullDesc.length > 200 ? fullDesc.substring(0, 200) + "…" : fullDesc] *)
Definition truncate (full : jsstring) : jsstring :=
  if 200 <? List.length full then JS.substring0 200 full ++ ELLIPSIS else full.

Definition currentJobId (href : jsstring) : option jsstring :=
  Url.get (Url.URLSearchParams (Url.location_search href)) (js "currentJobId").

Definition deep_link (id : jsstring) : jsstring :=
  js "https://www.linkedin.com/jobs/view/" ++ id ++ js "/".

(** The [url] of the record: the address up to its first [?], replaced
    by the deep link when [currentJobId] is truthy. *)
Definition derived_url (href : jsstring) : jsstring :=
  let url := JS.before 63 href in
  match currentJobId href with
  | Some id => if JS.truthy id then deep_link id else url
  | None => url
  end.

(** [scrapeJobData()], reading the document under [d] at address [href]. *)
Definition scrapeJobData (d : node) (href : jsstring) : JobRecord :=
  let titleEl := first_match d TITLE_LOCATORS in
  let companyEl := first_match d COMPANY_LOCATORS in
  {| job_title := text_or titleEl UNKNOWN_POSITION;
     company := text_or companyEl UNKNOWN_COMPANY;
     description := truncate (fullDesc d);
     url := derived_url href |}.

End Scraper.

(* ================================================================== *)
(** * The Injector *)
(* ================================================================== *)

Module Injector.
Import Dom.

Definition BUTTON_ID_PREFIX : jsstring := js "jt-track-btn-".
Definition PROCESSED_ATTR : jsstring := js "data-jt-processed".

Definition APPLY_BTN_SELECTORS : list selector :=
  [ [[cls "jobs-apply-button"]];
    [[has_attr "data-live-test-job-apply-button"]];
    [[cls "jobs-apply-button--top-card"]];
    [[tag_attr_prefix "button" "aria-label" "Easy Apply"]];
    [[tag_attr_prefix "button" "aria-label" "Apply"]] ].

Definition CONTAINER_SELECTORS : list selector :=
  [ [[cls "jobs-s-apply"]];
    [[cls "jobs-unified-top-card__content--two-pane"]];
    [[cls "jobs-unified-top-card__actions-container"]];
    [[cls "jobs-details__main-content"]];
    [[cls "jobs-search__job-details--container"]];
    [[cls "mt5"]];
    [[cls "display-flex"]] ].

(** [[id^="jt-track-btn-"]] *)
Definition TRACK_BTN_SELECTOR : selector :=
  [[attr_prefix "id" "jt-track-btn-"]].

(** The state the scan works on: the tree under the document element,
    the number of [Math.random()] draws made so far, and the affordances
    passed to [log("Injecting button for:", applyBtn)], in order.  The
    layout numbers of the elements are part of the tree; the script
    never writes them, and the numbers of the elements of the page are
    taken to stay as they are while it runs. *)
Record page := {
  root : node;
  draws : nat;
  console : list nat
}.

(** [isVisible(elem)] *)
Definition isVisible (p : props) : bool :=
  negb ((offsetWidth p =? 0)%N && (offsetHeight p =? 0)%N
        && (clientRects p =? 0)%N).

(** [found.add(btn)] on a [Set], which keeps insertion order. *)
Definition set_add (found : list nat) (i : nat) : list nat :=
  if existsb (Nat.eqb i) found then found else found ++ [i].

(** Strategy 1 of [findApplyButtons], for one selector. *)
Definition add_visible (found : list nat) (e : ctx * node) : list nat :=
  match snd e with
  | Element i p _ => if isVisible p then set_add found i else found
  | Text _ => found
  end.

Definition by_selectors (d : node) (found : list nat) : list nat :=
  fold_left
    (fun found sel => fold_left add_visible (querySelectorAll d sel) found)
    APPLY_BTN_SELECTORS found.

(** [text === 'apply' || text === 'easy apply'] after trimming and
    lower-casing. *)
Definition apply_text (n : node) : bool :=
  let text := JS.toLowerCase (JS.trim (textContent n)) in
  JS.eqb text (js "apply") || JS.eqb text (js "easy apply").

(** Strategy 2, the callback of [allButtons.forEach]. *)
Definition add_by_text (found : list nat) (e : ctx * node) : list nat :=
  match snd e with
  | Element i p _ =>
      if existsb (Nat.eqb i) found then found
      else if negb (hasClass p (js "artdeco-button")) then found
      else if apply_text (snd e) && isVisible p then set_add found i
      else found
  | Text _ => found
  end.

Definition by_text (d : node) (found : list nat) : list nat :=
  fold_left add_by_text (querySelectorAll d [[tag "button"]]) found.

(** [findApplyButtons()]: the identities of the affordances found, in
    the order [Array.from(found)] gives them. *)
Definition findApplyButtons (d : node) : list nat :=
  by_text d (by_selectors d []).

(** The loop of [findInjectionContainer]. *)
Fixpoint first_closest (sels : list selector) (i : nat) (p : props)
  (anc : ctx) : option nat :=
  match sels with
  | [] => None
  | s :: rest =>
      match closest s i p anc with
      | Some c => Some c
      | None => first_closest rest i p anc
      end
  end.

(** [elem.parentElement] *)
Definition parentElement (anc : ctx) : option nat :=
  match anc with
  | [] => None
  | (j, _) :: _ => Some j
  end.

(** [findInjectionContainer(applyBtn)] *)
Definition findInjectionContainer (i : nat) (p : props) (anc : ctx)
  : option nat :=
  match first_closest CONTAINER_SELECTORS i p anc with
  | Some c => Some c
  | None => parentElement anc
  end.

(** [applyBtn.getAttribute(PROCESSED_ATTR) === "true"] *)
Definition processed (p : props) : bool :=
  match getAttribute p PROCESSED_ATTR with
  | Some v => JS.eqb v (js "true")
  | None => false
  end.

(** The greatest identity in a subtree; elements created later take
    identities above it. *)
Fixpoint max_nid (n : node) : nat :=
  match n with
  | Text _ => 0
  | Element i _ cs => fold_right (fun c m => Nat.max (max_nid c) m) i cs
  end.

Definition control_props (suffix : jsstring) : props :=
  {| tagName := js "button";
     attributes :=
       [ (js "id", BUTTON_ID_PREFIX ++ suffix);
         (js "class",
          js "jt-track-btn artdeco-button artdeco-button--2 artdeco-button--secondary");
         (js "title", js "Track this application in Job Tracker") ];
     offsetWidth := 0; offsetHeight := 0; clientRects := 0 |}.

Definition span_props : props :=
  {| tagName := js "span"; attributes := [];
     offsetWidth := 0; offsetHeight := 0; clientRects := 0 |}.

(** [createButton()]: a detached button (no layout yet) whose children
    are those of the markup ['<span>+</span> Track'].  [fresh] is the
    identity of the new button, the span takes the next one; [suffix] is
    [Math.random().toString(36).substr(2, 9)]. *)
Definition createButton (fresh : nat) (suffix : jsstring) : node :=
  Element fresh (control_props suffix)
    [ Element (S fresh) span_props [Text (js "+")]; Text (js " Track") ].

(** An element enters the layout when it is put into the document:
    [box] is what the browser then reports for it as [offsetWidth],
    [offsetHeight] and [getClientRects().length]. *)
Definition rendered (box : N * N * N) (n : node) : node :=
  match n with
  | Text s => Text s
  | Element i p cs =>
      Element i {| tagName := tagName p; attributes := attributes p;
                   offsetWidth := fst (fst box);
                   offsetHeight := snd (fst box);
                   clientRects := snd box |} cs
  end.

(** Writing to the element with identity [i]: [g] to its attributes,
    [h] to its child list. *)
Fixpoint update (i : nat) (g : props -> props)
  (h : list node -> list node) (n : node) : node :=
  match n with
  | Text s => Text s
  | Element j p cs =>
      if Nat.eqb j i then Element j (g p) (h cs)
      else Element j p (map (update i g h) cs)
  end.

(** [applyBtn.setAttribute(PROCESSED_ATTR, "true")] *)
Definition mark (a : nat) (d : node) : node :=
  update a (fun p => setAttribute p PROCESSED_ATTR (js "true"))
    (fun cs => cs) d.

(** [container.appendChild(trackBtn)] *)
Definition appendChild (c : nat) (t : node) (d : node) : node :=
  update c (fun p => p) (fun cs => cs ++ [t]) d.

(** The child list after [insertBefore(t, a.nextSibling)]: [t] comes
    right after [a], at the end when [a] is the last child. *)
Fixpoint insert_after (a : nat) (t : node) (cs : list node) : list node :=
  match cs with
  | [] => [t]
  | n :: rest =>
      if is_node a n then n :: t :: rest else n :: insert_after a t rest
  end.

(** [container.insertBefore(trackBtn, applyBtn.nextSibling)] *)
Definition insertAfter (c a : nat) (t : node) (d : node) : node :=
  update c (fun p => p) (insert_after a t) d.

(** [container.querySelector(`[id^="${BUTTON_ID_PREFIX}"]`)] is not null *)
Definition has_control (d : node) (c : nat) : bool :=
  match querySelectorIn d c TRACK_BTN_SELECTOR with
  | Some _ => true
  | None => false
  end.

(** [applyBtn.parentNode === container] *)
Definition parent_is (anc : ctx) (c : nat) : bool :=
  match anc with
  | [] => false
  | (j, _) :: _ => Nat.eqb j c
  end.

Section Scan.

(** The [k]-th draw of [Math.random().toString(36).substr(2, 9)], and
    the box the browser gives the [k]-th control. *)
Variable suffix : nat -> jsstring.
Variable layout : nat -> N * N * N.

(** The body of [applyButtons.forEach], for the affordance [a]. *)
Definition inject_one (pg : page) (a : nat) : page :=
  match locate (root pg) a with
  | Some (anc, Element _ p _) =>
      if processed p then pg
      else
        match findInjectionContainer a p anc with
        | None => pg
        | Some c =>
            if has_control (root pg) c
            then {| root := mark a (root pg);
                    draws := draws pg;
                    console := console pg |}
            else
              let trackBtn :=
                createButton (S (max_nid (root pg))) (suffix (draws pg)) in
              let shown := rendered (layout (draws pg)) trackBtn in
              let inserted :=
                if parent_is anc c
                then insertAfter c a shown (root pg)
                else appendChild c shown (root pg) in
              {| root := mark a inserted;
                 draws := S (draws pg);
                 console := console pg ++ [a] |}
        end
  | _ => pg
  end.

(** The callback [injectButtons] hands to [requestAnimationFrame]: one
    scan of the page. *)
Definition scan (pg : page) : page :=
  match findApplyButtons (root pg) with
  | [] => pg
  | applyButtons => fold_left inject_one applyButtons pg
  end.

End Scan.

(** The controls in the document. *)
Definition controls (d : node) : list (ctx * node) :=
  querySelectorAll d TRACK_BTN_SELECTOR.

(** ** Reading the page by identity *)

(** Whether the element [a] carries the processed marker. *)
Definition processed_at (d : node) (a : nat) : bool :=
  match locate d a with
  | Some (_, Element _ p _) => processed p
  | _ => false
  end.

(** The insertion container the element [a] resolves to. *)
Definition container_at (d : node) (a : nat) : option nat :=
  match locate d a with
  | Some (anc, Element _ p _) => findInjectionContainer a p anc
  | _ => None
  end.

(** An element the loop body passes by: it is marked, or it has no
    container. *)
Definition inert (d : node) (a : nat) : bool :=
  processed_at d a
  || match container_at d a with Some _ => false | None => true end.

(** Whether the element [a] resolves to the container [c]. *)
Definition resolves_to (d : node) (c a : nat) : bool :=
  match container_at d a with
  | Some c' => Nat.eqb c' c
  | None => false
  end.

(** [container.children] of the element [c], and how many of them are
    controls. *)
Definition children_at (d : node) (c : nat) : list node :=
  match locate d c with
  | Some (_, Element _ _ cs) => cs
  | _ => []
  end.

Definition is_control (n : node) : bool :=
  node_matches TRACK_BTN_SELECTOR ([], n).

Definition control_children (d : node) (c : nat) : nat :=
  List.length (filter is_control (children_at d c)).

(** Two lookups that found the same node, or both nothing. *)
Definition same_node (r r' : option (ctx * node)) : Prop :=
  match r, r' with
  | Some e, Some e' => snd e' = snd e
  | None, None => True
  | _, _ => False
  end.

(** A write to a child list that leaves the elements up to [b] in it
    where they were. *)
Definition keeps_old (b : nat) (h : list node -> list node) : Prop :=
  forall cs anc anc' x, x <= b ->
    same_node (find (fun e => is_node x (snd e)) (flat_map (listing anc) cs))
              (find (fun e => is_node x (snd e))
                 (flat_map (listing anc') (h cs))).

(** What strategy 1 asks of a selected element, and strategy 2. *)
Definition shown_as (e : ctx * node) (x : nat) : Prop :=
  match snd e with
  | Element i p _ => i = x /\ isVisible p = true
  | Text _ => False
  end.

Definition reads_apply (e : ctx * node) (x : nat) : Prop :=
  match snd e with
  | Element i p _ =>
      i = x /\ hasClass p (js "artdeco-button") = true
      /\ apply_text (snd e) = true /\ isVisible p = true
  | Text _ => False
  end.

(** What [findApplyButtons] asks of an element, both strategies. *)
Definition qualifies (e : ctx * node) : bool :=
  match snd e with
  | Element _ p _ =>
      isVisible p
      && (existsb (fun sel => matches sel (fst e) p) APPLY_BTN_SELECTORS
          || (matches [[tag "button"]] (fst e) p
              && hasClass p (js "artdeco-button")
              && apply_text (snd e)))
  | Text _ => false
  end.

(** ** How a scan changes the tree *)

(** Selectors that do not ask for the processed marker. *)
Definition clean_test (t : attr_test) : bool :=
  match t with
  | AttrPresent name => negb (JS.eqb name PROCESSED_ATTR)
  | AttrPrefix name _ => negb (JS.eqb name PROCESSED_ATTR)
  end.

Definition clean_compound (c : compound) : bool :=
  forallb clean_test (sel_attrs c).

Definition clean (sel : selector) : bool :=
  forallb (forallb clean_compound) sel.

(** A scan sets processed markers and puts new controls into child
    lists; it touches nothing else.  [props_sim p p'] says that [p'] is
    [p] up to the marker, which may have been set; [grow b d d'] says
    that [d'] comes from [d] by such changes, the new controls having
    identities above [b]. *)
Definition props_sim (p p' : props) : Prop :=
  tagName p' = tagName p
  /\ offsetWidth p' = offsetWidth p
  /\ offsetHeight p' = offsetHeight p
  /\ clientRects p' = clientRects p
  /\ (forall name, name <> PROCESSED_ATTR ->
        getAttribute p' name = getAttribute p name)
  /\ (processed p = true -> processed p' = true).

Definition fresh_control (b : nat) (t : node) : Prop :=
  exists i suffix box, b < i /\ t = rendered box (createButton i suffix).

Inductive grow (b : nat) : node -> node -> Prop :=
| grow_text s : grow b (Text s) (Text s)
| grow_element i p p' cs cs' :
    props_sim p p' -> grow_list b cs cs' ->
    grow b (Element i p cs) (Element i p' cs')
with grow_list (b : nat) : list node -> list node -> Prop :=
| grow_nil : grow_list b [] []
| grow_cons n n' l l' :
    grow b n n' -> grow_list b l l' -> grow_list b (n :: l) (n' :: l')
| grow_new t l l' :
    fresh_control b t -> grow_list b l l' -> grow_list b l (t :: l').

Scheme grow_mut := Minimality for grow Sort Prop
  with grow_list_mut := Minimality for grow_list Sort Prop.
Combined Scheme grow_both from grow_mut, grow_list_mut.

Definition ctx_sim (anc anc' : ctx) : Prop :=
  Forall2 (fun a a' => fst a' = fst a /\ props_sim (snd a) (snd a')) anc anc'.

(** The same relation on listings: entries correspond, or are entries
    of new controls. *)
Definition entry_sim (b : nat) (e e' : ctx * node) : Prop :=
  ctx_sim (fst e) (fst e') /\ grow b (snd e) (snd e')
  /\ exists i, nid_of (snd e) = Some i.

Definition new_entry (b : nat) (e' : ctx * node) : Prop :=
  (exists i, nid_of (snd e') = Some i /\ b < i)
  /\ qualifies e' = false.

Inductive entries_grow (b : nat)
  : list (ctx * node) -> list (ctx * node) -> Prop :=
| eg_nil : entries_grow b [] []
| eg_cons e e' l l' :
    entry_sim b e e' -> entries_grow b l l' ->
    entries_grow b (e :: l) (e' :: l')
| eg_new e' l l' :
    new_entry b e' -> entries_grow b l l' -> entries_grow b l (e' :: l').

(** What carries over from a tree to the trees a scan makes of it, for
    the elements the first tree has (identities up to [b]). *)
Record evolves (b : nat) (d d' : node) : Prop := {
  ev_found : forall x, In x (findApplyButtons d') -> In x (findApplyButtons d);
  ev_processed : forall x, x <= b ->
    processed_at d x = true -> processed_at d' x = true;
  ev_container : forall x, x <= b -> container_at d' x = container_at d x;
  ev_control : forall c, c <= b -> has_control d c = true -> has_control d' c = true;
  ev_max : max_nid d <= max_nid d'
}.

Arguments ev_found {b d d'}.
Arguments ev_processed {b d d'}.
Arguments ev_container {b d d'}.
Arguments ev_control {b d d'}.
Arguments ev_max {b d d'}.

End Injector.

(* ================================================================== *)
(** * The Submitter *)
(* ================================================================== *)

Module Submitter.

(** The child nodes of the control, given by the last write: through
    [innerHTML] (markup) or through [textContent] (one text node). *)
Inductive markup :=
| Html (source : jsstring)
| PlainText (data : jsstring).

(** Serialisation of a text node. *)
Definition escape_unit (c : N) : jsstring :=
  if (c =? 38)%N then js "&amp;"
  else if (c =? 60)%N then js "&lt;"
  else if (c =? 62)%N then js "&gt;"
  else if (c =? 160)%N then js "&nbsp;"
  else [c].

(** [button.innerHTML], read.  The markup the script writes
    (['<span>+</span> Track']) is its own serialisation. *)
Definition innerHTML (m : markup) : jsstring :=
  match m with
  | Html s => s
  | PlainText s => flat_map escape_unit s
  end.

(** The control: the properties of the button element the script reads
    or writes, with its expando properties [originalHTML] and
    [originalText] ([None] is [undefined]) and [dataset.tracked]. *)
Record button := {
  content : markup;
  classList : list jsstring;
  disabled : bool;
  originalHTML : option jsstring;
  originalText : option jsstring;
  tracked : option jsstring
}.

Definition DEFAULT_HTML : jsstring := js "<span>+</span> Track".

(** The button [createButton()] returns. *)
Definition createButton : button :=
  {| content := Html DEFAULT_HTML;
     classList := [ js "jt-track-btn"; js "artdeco-button";
                    js "artdeco-button--2"; js "artdeco-button--secondary" ];
     disabled := false;
     originalHTML := Some (innerHTML (Html DEFAULT_HTML));
     originalText := None;
     tracked := None |}.

(** [classList.add(c)] and [classList.remove(c)] *)
Definition class_add (l : list jsstring) (c : jsstring) : list jsstring :=
  if existsb (JS.eqb c) l then l else l ++ [c].

Definition class_remove (l : list jsstring) (c : jsstring) : list jsstring :=
  filter (fun x => negb (JS.eqb x c)) l.

(** A decoded JSON value; a number is kept as its literal. *)
#[local] Unset Elimination Schemes.
Inductive json :=
| JNull
| JBool (b : bool)
| JNumber (literal : jsstring)
| JString (s : jsstring)
| JArray (items : list json)
| JObject (fields : list (jsstring * json)).
#[local] Set Elimination Schemes.

(** A call of [fetch]. *)
Record request := {
  req_url : jsstring;
  req_method : jsstring;
  req_content_type : jsstring;
  req_body : Scraper.JobRecord                (* JSON.stringify(jobData) *)
}.

(** A call of [console.error]. *)
Inductive log_entry :=
| ApiError (err : json)                        (* "[JobTracker] API error:" *)
| NetworkError (e : jsstring).                 (* "[JobTracker] Network error:" *)

(** What is waiting in the event loop for this control: a [trackJob]
    suspended at one of its three [await]s, or the timer of
    [showFeedback], due at a time and holding the [type] it was set for. *)
Inductive task :=
| AwaitApiUrl
| AwaitResponse
| AwaitErrorBody
| RevertTimer (due : N) (type : jsstring).

Record world := {
  btn : button;
  now : N;                                     (* milliseconds *)
  pending : list (nat * task);
  next_id : nat;
  requests : list request;
  errors : list log_entry
}.

Definition with_btn (b : button) (w : world) : world :=
  {| btn := b; now := now w; pending := pending w; next_id := next_id w;
     requests := requests w; errors := errors w |}.

(** A new task under a new identity, or an old identity continued. *)
Definition spawn (t : task) (w : world) : world :=
  {| btn := btn w; now := now w;
     pending := (next_id w, t) :: pending w;
     next_id := S (next_id w);
     requests := requests w; errors := errors w |}.

Definition suspend (i : nat) (t : task) (w : world) : world :=
  {| btn := btn w; now := now w;
     pending := (i, t) :: pending w;
     next_id := next_id w;
     requests := requests w; errors := errors w |}.

Fixpoint lookup (i : nat) (l : list (nat * task)) : option task :=
  match l with
  | [] => None
  | (j, t) :: rest => if Nat.eqb j i then Some t else lookup i rest
  end.

Fixpoint remove (i : nat) (l : list (nat * task)) : list (nat * task) :=
  match l with
  | [] => []
  | (j, t) :: rest => if Nat.eqb j i then rest else (j, t) :: remove i rest
  end.

Definition resume (i : nat) (w : world) : world :=
  {| btn := btn w; now := now w;
     pending := remove i (pending w);
     next_id := next_id w;
     requests := requests w; errors := errors w |}.

Definition REVERT_DELAY : N := 2500.

(** [showFeedback(button, text, type)] *)
Definition showFeedback (text type : jsstring) (w : world) : world :=
  let b := btn w in
  let shown :=
    {| content := PlainText text;
       classList := class_add (classList b) (js "jt-" ++ type);
       disabled := JS.eqb type (js "success");
       originalHTML := originalHTML b;
       originalText := originalText b;
       tracked := tracked b |} in
  if negb (JS.eqb type (js "success"))
  then spawn (RevertTimer (now w + REVERT_DELAY) type) (with_btn shown w)
  else with_btn shown w.

(** [a || b] on an optional string. *)
Definition or_else (a : option jsstring) (b : jsstring) : jsstring :=
  match a with
  | Some s => if JS.truthy s then s else b
  | None => b
  end.

(** The callback of the timer [showFeedback] sets. *)
Definition revert (type : jsstring) (w : world) : world :=
  let b := btn w in
  with_btn
    {| content := Html (or_else (originalHTML b) DEFAULT_HTML);
       classList := class_remove (classList b) (js "jt-" ++ type);
       disabled := false;
       originalHTML := originalHTML b;
       originalText := originalText b;
       tracked := tracked b |} w.

Definition SET_API_URL : jsstring := [9881; 65039]%N ++ js " Set API URL".
Definition CANT_READ_JOB : jsstring := [9888; 65039]%N ++ js " Can't read job".
Definition SAVING : jsstring := [9203]%N ++ js " Saving...".
Definition TRACKED : jsstring := [9989]%N ++ js " Tracked!".
Definition FAILED : jsstring := [10060]%N ++ js " Failed".
Definition ERROR : jsstring := [10060]%N ++ js " Error".

(** [getApiUrl()]: [result.apiBaseUrl || ""] for the stored value. *)
Definition getApiUrl (apiBaseUrl : option jsstring) : jsstring :=
  or_else apiBaseUrl [].

(** [!jobData.job_title || jobData.job_title === "Unknown Position"] *)
Definition unusable_title (r : Scraper.JobRecord) : bool :=
  negb (JS.truthy (Scraper.job_title r))
  || JS.eqb (Scraper.job_title r) (js "Unknown Position").

Definition post (apiUrl : jsstring) (jobData : Scraper.JobRecord) : request :=
  {| req_url := apiUrl ++ js "/api/jobs";
     req_method := js "POST";
     req_content_type := js "application/json";
     req_body := jobData |}.

(** [trackJob] from the value of [await getApiUrl()] to its [await
    fetch(...)], for the invocation [i]. *)
Definition trackJob_configured (i : nat) (apiBaseUrl : option jsstring)
  (d : Dom.node) (href : jsstring) (w : world) : world :=
  let apiUrl := getApiUrl apiBaseUrl in
  if negb (JS.truthy apiUrl) then showFeedback SET_API_URL (js "warning") w
  else
    let jobData := Scraper.scrapeJobData d href in
    if unusable_title jobData
    then showFeedback CANT_READ_JOB (js "warning") w
    else
      let b := btn w in
      let sending :=
        {| content := PlainText SAVING;
           classList := classList b;
           disabled := true;
           originalHTML := originalHTML b;
           originalText := Some (innerHTML (content b));
           tracked := tracked b |} in
      suspend i AwaitResponse
        {| btn := sending; now := now w; pending := pending w;
           next_id := next_id w;
           requests := requests w ++ [post apiUrl jobData];
           errors := errors w |}.

(** How [fetch] settles: a response with its [ok] flag, or a rejection. *)
Inductive fetch_outcome :=
| Responded (ok : bool)
| Rejected (e : jsstring).

Definition with_tracked (w : world) : world :=
  let b := btn w in
  with_btn
    {| content := content b; classList := classList b;
       disabled := disabled b; originalHTML := originalHTML b;
       originalText := originalText b; tracked := Some (js "true") |} w.

Definition log_error (e : log_entry) (w : world) : world :=
  {| btn := btn w; now := now w; pending := pending w;
     next_id := next_id w; requests := requests w;
     errors := errors w ++ [e] |}.

(** [trackJob] from the settling of [fetch] on. *)
Definition trackJob_fetched (i : nat) (r : fetch_outcome) (w : world)
  : world :=
  match r with
  | Responded true => with_tracked (showFeedback TRACKED (js "success") w)
  | Responded false => suspend i AwaitErrorBody w
  | Rejected e => log_error (NetworkError e) (showFeedback ERROR (js "error") w)
  end.

(** [res.json().catch(() => ({}))]: the decoded body, the empty object
    when decoding fails. *)
Definition json_or_empty (body : option json) : json :=
  match body with
  | Some v => v
  | None => JObject []
  end.

(** [trackJob] from the value of [await res.json().catch(...)] on. *)
Definition trackJob_decoded (body : option json) (w : world) : world :=
  let err := json_or_empty body in
  log_error (ApiError err) (showFeedback FAILED (js "error") w).

(** What can happen to the control. *)
Inductive event :=
| Click
| StorageReply (i : nat) (apiBaseUrl : option jsstring)
    (d : Dom.node) (href : jsstring)
| FetchSettled (i : nat) (r : fetch_outcome)
| BodyDecoded (i : nat) (body : option json)
| TimerFired (i : nat)
| Elapse (ms : N).

(** One turn of the event loop; [None] when the event cannot happen in
    this state (a click on a disabled button is not dispatched, a task
    cannot continue unless it is waiting, a timer does not fire early). *)
Definition step (e : event) (w : world) : option world :=
  match e with
  | Click =>
      if disabled (btn w) then None else Some (spawn AwaitApiUrl w)
  | StorageReply i apiBaseUrl d href =>
      match lookup i (pending w) with
      | Some AwaitApiUrl =>
          Some (trackJob_configured i apiBaseUrl d href (resume i w))
      | _ => None
      end
  | FetchSettled i r =>
      match lookup i (pending w) with
      | Some AwaitResponse => Some (trackJob_fetched i r (resume i w))
      | _ => None
      end
  | BodyDecoded i body =>
      match lookup i (pending w) with
      | Some AwaitErrorBody => Some (trackJob_decoded body (resume i w))
      | _ => None
      end
  | TimerFired i =>
      match lookup i (pending w) with
      | Some (RevertTimer due type) =>
          if (due <=? now w)%N then Some (revert type (resume i w)) else None
      | _ => None
      end
  | Elapse ms =>
      Some {| btn := btn w; now := (now w + ms)%N; pending := pending w;
              next_id := next_id w; requests := requests w;
              errors := errors w |}
  end.

Fixpoint run (es : list event) (w : world) : option world :=
  match es with
  | [] => Some w
  | e :: rest =>
      match step e w with
      | Some w' => run rest w'
      | None => None
      end
  end.

(** A control as the Injector puts it on the page. *)
Definition initial : world :=
  {| btn := createButton; now := 0; pending := []; next_id := 0;
     requests := []; errors := [] |}.

(** The world after the events [es], from the control as created (the
    world is left as it is from the first event that cannot happen). *)
Definition world_after (es : list event) : world :=
  fold_left (fun w e => match step e w with Some w' => w' | None => w end)
    es initial.

(** The worlds a control can be in: those the event loop reaches from
    the control as created. *)
Definition reachable (w : world) : Prop :=
  exists es, run es initial = Some w.

End Submitter.

(* ================================================================== *)
(** * The earlier revision of the content script *)
(* ================================================================== *)

(** [extension/content.js]: the functions that differ from the ones
    above.  [trackJob] is the same up to the texts it shows. *)
Module Legacy.
Import Dom.

Definition TITLE_LOCATORS : list selector :=
  [ [[tag "h1"; cls "job-details-jobs-unified-top-card__job-title"]];
    [[cls "jobs-unified-top-card__job-title"]];
    [[tag_cls "h1" "t-24"]];
    [[tag "h1"]] ].

(** [scrapeJobData()]: no sentinel for the company, and the url is the
    address up to its first [?] whatever the query holds. *)
Definition scrapeJobData (d : node) (href : jsstring) : Scraper.JobRecord :=
  let titleEl := Scraper.first_match d TITLE_LOCATORS in
  let companyEl := Scraper.first_match d Scraper.COMPANY_LOCATORS in
  {| Scraper.job_title := Scraper.text_or titleEl (js "Unknown Position");
     Scraper.company := Scraper.text_or companyEl [];
     Scraper.description := Scraper.truncate (Scraper.fullDesc d);
     Scraper.url := JS.before 63 href |}.

(** The control of this revision: its text, its [className], its
    [disabled] flag. *)
Record button := {
  textContent : jsstring;
  className : jsstring;
  disabled : bool
}.

(** ["📋 Track Application"] *)
Definition TRACK_APPLICATION : jsstring :=
  [55357; 56523]%N ++ js " Track Application".

(** [showFeedback(button, text, type)]: the button as the call leaves
    it, and whether it set the 2500 ms timer. *)
Definition showFeedback (b : button) (text type : jsstring) : button * bool :=
  ({| textContent := text;
      className := js "jt-track-btn jt-" ++ type;
      disabled := JS.eqb type (js "success") |},
   negb (JS.eqb type (js "success"))).

(** The callback of that timer. *)
Definition revert (b : button) : button :=
  {| textContent := TRACK_APPLICATION;
     className := js "jt-track-btn";
     disabled := false |}.

(** ['.jobs-apply-button, [data-live-test-job-apply-button]'] *)
Definition APPLY_SELECTOR : selector :=
  [ [cls "jobs-apply-button"];
    [has_attr "data-live-test-job-apply-button"] ].

(** ['.jobs-s-apply, .jobs-unified-top-card__content--two-pane, .mt5,
    .display-flex'] *)
Definition CONTAINER_SELECTOR : selector :=
  [ [cls "jobs-s-apply"];
    [cls "jobs-unified-top-card__content--two-pane"];
    [cls "mt5"];
    [cls "display-flex"] ].

(** [dataset.hasTrackButton] *)
Definition HAS_TRACK_BUTTON : jsstring := js "data-has-track-button".

(** [createButton()]: every control has the same [id]. *)
Definition createButton (fresh : nat) : node :=
  Element fresh
    {| tagName := js "button";
       attributes := [ (js "id", js "jt-track-btn");
                       (js "class", js "jt-track-btn") ];
       offsetWidth := 0; offsetHeight := 0; clientRects := 0 |}
    [ Text TRACK_APPLICATION ].

(** [btn.dataset.hasTrackButton === 'true'] *)
Definition marked (p : props) : bool :=
  match getAttribute p HAS_TRACK_BUTTON with
  | Some v => JS.eqb v (js "true")
  | None => false
  end.

(** [btn.closest(...) || btn.parentElement] *)
Definition container (a : nat) (p : props) (anc : ctx) : option nat :=
  match closest CONTAINER_SELECTOR a p anc with
  | Some c => Some c
  | None => Injector.parentElement anc
  end.

(** The body of [applyButtons.forEach] for the element [a].  The control
    goes right after [a] in the child list of [a]'s parent, whichever
    container was found; [None] is the exception the DOM raises when
    that parent is the document itself. *)
Definition inject_one (page : option node) (a : nat) : option node :=
  match page with
  | None => None
  | Some d =>
      match locate d a with
      | Some (anc, Element _ p _) =>
          if marked p then Some d
          else
            match container a p anc with
            | None => Some d
            | Some _ =>
                match anc with
                | [] => None
                | (parent, _) :: _ =>
                    let trackBtn := createButton (S (Injector.max_nid d)) in
                    Some (Injector.update a
                            (fun p => setAttribute p HAS_TRACK_BUTTON (js "true"))
                            (fun cs => cs)
                            (Injector.insertAfter parent a trackBtn d))
                end
            end
      | _ => Some d
      end
  end.

(** [injectButton()] *)
Definition injectButton (d : node) : option node :=
  fold_left inject_one
    (flat_map (fun e => match nid_of (snd e) with
                        | Some i => [i]
                        | None => []
                        end)
       (querySelectorAll d APPLY_SELECTOR))
    (Some d).

(** The controls of this revision in the document. *)
Definition controls (d : node) : list (ctx * node) :=
  querySelectorAll d [[by_id "jt-track-btn"]].

End Legacy.

(* ================================================================== *)
(** * Sample pages *)
(* ================================================================== *)

Module Samples.
Import Dom.

Definition laid_out (t : string) (attrs : list (jsstring * jsstring)) : props :=
  {| tagName := js t; attributes := attrs;
     offsetWidth := 120; offsetHeight := 32; clientRects := 1 |}.

Definition el (t : string) (i : nat) (c : string) (cs : list node) : node :=
  Element i (laid_out t [(js "class", js c)]) cs.

(** A job page: title, company, description, one apply button. *)
Definition job_page : node :=
  el "html" 0 ""
    [ el "div" 1 "job-details-jobs-unified-top-card__job-title"
        [ Element 2 (laid_out "h1" []) [Text (js "  Staff Engineer ")] ];
      el "div" 3 "job-details-jobs-unified-top-card__company-name"
        [ Element 4 (laid_out "a" []) [Text (js "Initech")] ];
      Element 5 (laid_out "div" [(js "id", js "job-details")])
        [ Text (js "We build things.") ];
      el "div" 6 "jobs-s-apply"
        [ el "button" 7 "jobs-apply-button artdeco-button"
            [Text (js "Easy Apply")] ] ].

(** A page with nothing the locators know. *)
Definition blank_page : node :=
  el "html" 0 "" [ el "div" 1 "feed" [Text (js "Home")] ].

(** A description of 250 units. *)
Definition long_page : node :=
  el "html" 0 ""
    [ Element 1 (laid_out "div" [(js "id", js "job-details")])
        [ Text (repeat 97%N 250) ] ].

(** Two visible, unmarked apply buttons in one [.jobs-s-apply] bar, and
    a third affordance elsewhere that is found by its text. *)
Definition shared_bar : node :=
  el "html" 0 ""
    [ el "div" 1 "jobs-s-apply"
        [ el "button" 2 "jobs-apply-button artdeco-button"
            [Text (js "Easy Apply")];
          el "div" 3 "jobs-s-apply__secondary"
            [ el "button" 4 "jobs-apply-button" [Text (js "Apply")] ] ];
      el "div" 5 "jobs-details"
        [ el "button" 6 "artdeco-button" [Text (js " APPLY ")];
          Text (js "or save for later") ] ].

Definition shared_bar_page : Injector.page :=
  {| Injector.root := shared_bar; Injector.draws := 0;
     Injector.console := [] |}.

(** Draws of [Math.random] and boxes for the sample runs. *)
Definition sample_suffix (k : nat) : jsstring :=
  match k with 0 => js "k3j9x0a1z" | _ => js "q7w2e5r8t" end.

Definition sample_layout (k : nat) : N * N * N := (96%N, 32%N, 1%N).

Definition job_address : jsstring :=
  js "https://www.linkedin.com/jobs/view/4012345678/?refId=abc".

Definition search_page : jsstring :=
  js "https://www.linkedin.com/jobs/search/?currentJobId=&start=25".
Definition collections_page : jsstring :=
  js "https://www.linkedin.com/jobs/collections/recommended/?currentJobId=".
Definition search_with_id : jsstring :=
  js "https://www.linkedin.com/jobs/search/?currentJobId=4012345678&start=25".
Definition collections_with_id : jsstring :=
  js "https://www.linkedin.com/jobs/collections/recommended/?currentJobId=4012345678".

Definition backend : jsstring := js "http://localhost:8000".

(** A click with no base URL stored, then, one second later and with
    the base URL set, a second click whose request the backend accepts;
    then the timer of the first click's warning comes due and fires. *)
Definition warned_then_tracked : list Submitter.event :=
  [ Submitter.Click;
    Submitter.StorageReply 0 None job_page job_address;
    Submitter.Elapse 1000;
    Submitter.Click;
    Submitter.StorageReply 2 (Some backend) job_page job_address;
    Submitter.FetchSettled 2 (Submitter.Responded true) ].

Definition stale_timer_fires : list Submitter.event :=
  [ Submitter.Elapse 1500; Submitter.TimerFired 1 ].

(** The body [{"error":"db down"}], decoded. *)
Definition db_down : Submitter.json :=
  Submitter.JObject [(js "error", Submitter.JString (js "db down"))].

(** A submission in flight, and the backend answering it with a status
    that is not OK and the body above. *)
Definition in_flight : list Submitter.event :=
  [ Submitter.Click;
    Submitter.StorageReply 0 (Some backend) job_page job_address ].

Definition server_error : list Submitter.event :=
  in_flight ++ [ Submitter.FetchSettled 0 (Submitter.Responded false);
                 Submitter.BodyDecoded 0 (Some db_down) ].

(** A click with no base URL stored; a click on a page without title. *)
Definition unconfigured_click : list Submitter.event :=
  [ Submitter.Click;
    Submitter.StorageReply 0 None job_page job_address ].

Definition unreadable_click : list Submitter.event :=
  [ Submitter.Click;
    Submitter.StorageReply 0 (Some backend) blank_page job_address ].

End Samples.

(* ================================================================== *)
(** * The observer: when scans run *)
(* ================================================================== *)

Module Observer.

Definition DEBOUNCE : N := 500.
Definition INTERVAL : N := 3000.

(** The page with what [startObserver] leaves in the event loop: the
    slot [injectionTimeout], the timers set with [setTimeout] and not
    yet fired or cleared (identity and due time), the identity the next
    [setTimeout] returns, the callbacks waiting for an animation frame,
    and the time the interval fires next. *)
Record state := {
  page : Injector.page;
  now : N;
  injectionTimeout : option nat;
  timers : list (nat * N);
  next_timer : nat;
  frames : nat;
  next_tick : N
}.

(** [clearTimeout(id)] *)
Definition clearTimeout (id : nat) (l : list (nat * N)) : list (nat * N) :=
  filter (fun t => negb (Nat.eqb (fst t) id)) l.

(** [debouncedInject()]: [if (injectionTimeout) clearTimeout(...)], then
    a new timer into the slot.  An identity is truthy unless it is 0. *)
Definition debouncedInject (s : state) : state :=
  let kept :=
    match injectionTimeout s with
    | Some id => if Nat.eqb id 0 then timers s else clearTimeout id (timers s)
    | None => timers s
    end in
  {| page := page s; now := now s;
     injectionTimeout := Some (next_timer s);
     timers := (next_timer s, (now s + DEBOUNCE)%N) :: kept;
     next_timer := S (next_timer s);
     frames := frames s; next_tick := next_tick s |}.

(** [injectButtons()]: the scan is handed to [requestAnimationFrame]. *)
Definition injectButtons (s : state) : state :=
  {| page := page s; now := now s;
     injectionTimeout := injectionTimeout s; timers := timers s;
     next_timer := next_timer s;
     frames := S (frames s); next_tick := next_tick s |}.

(** The callback of the [MutationObserver]; a record is given by its
    [addedNodes.length]. *)
Definition observed (records : list N) (s : state) : state :=
  if existsb (fun added => (0 <? added)%N) records
  then debouncedInject s else s.

(** [startObserver()] on the page [pg] at time [t]: the initial run, the
    observer, and the interval, which takes the first timer identity. *)
Definition startObserver (pg : Injector.page) (t : N) : state :=
  injectButtons
    {| page := pg; now := t; injectionTimeout := None; timers := [];
       next_timer := 2; frames := 0; next_tick := (t + INTERVAL)%N |}.

Inductive event :=
| HostChange (root' : Dom.node) (records : list N)
| TimerFired (id : nat)
| Frame
| Tick
| Elapse (ms : N).


Fixpoint due_of (id : nat) (l : list (nat * N)) : option N :=
  match l with
  | [] => None
  | (j, due) :: rest => if Nat.eqb j id then Some due else due_of id rest
  end.

Section Loop.

Variable suffix : nat -> jsstring.
Variable layout : nat -> N * N * N.

(** The animation-frame callback of [injectButtons]: the scan, and then
    the observer's callback with one record for each control the scan
    put into the document (the containers are taken to lie in
    [document.body], the subtree the observer watches; a scan that
    inserts nothing gives no record either way). *)
Definition frame (s : state) : state :=
  let scanned := Injector.scan suffix layout (page s) in
  observed
    (repeat 1%N (Injector.draws scanned - Injector.draws (page s)))
    {| page := scanned; now := now s;
       injectionTimeout := injectionTimeout s; timers := timers s;
       next_timer := next_timer s;
       frames := pred (frames s); next_tick := next_tick s |}.

(** One turn of the event loop; [None] when the event cannot happen. *)
Definition step (e : event) (s : state) : option state :=
  match e with
  | HostChange root' records =>
      Some (observed records
              {| page := {| Injector.root := root';
                            Injector.draws := Injector.draws (page s);
                            Injector.console := Injector.console (page s) |};
                 now := now s;
                 injectionTimeout := injectionTimeout s; timers := timers s;
                 next_timer := next_timer s;
                 frames := frames s; next_tick := next_tick s |})
  | TimerFired id =>
      match due_of id (timers s) with
      | Some due =>
          if (due <=? now s)%N
          then Some (injectButtons
                       {| page := page s; now := now s;
                          injectionTimeout := injectionTimeout s;
                          timers := clearTimeout id (timers s);
                          next_timer := next_timer s;
                          frames := frames s; next_tick := next_tick s |})
          else None
      | None => None
      end
  | Frame =>
      match frames s with
      | O => None
      | S _ => Some (frame s)
      end
  | Tick =>
      if (next_tick s <=? now s)%N
      then Some (debouncedInject
                   {| page := page s; now := now s;
                      injectionTimeout := injectionTimeout s;
                      timers := timers s; next_timer := next_timer s;
                      frames := frames s;
                      next_tick := (next_tick s + INTERVAL)%N |})
      else None
  | Elapse ms =>
      Some {| page := page s; now := (now s + ms)%N;
              injectionTimeout := injectionTimeout s; timers := timers s;
              next_timer := next_timer s;
              frames := frames s; next_tick := next_tick s |}
  end.

Fixpoint run (es : list event) (s : state) : option state :=
  match es with
  | [] => Some s
  | e :: rest =>
      match step e s with
      | Some s' => run rest s'
      | None => None
      end
  end.

End Loop.

(** What the event loop keeps true of the slot and the timers. *)
Definition slot_inv (s : state) : Prop :=
  0 < next_timer s
  /\ (forall id, injectionTimeout s = Some id -> 0 < id < next_timer s)
  /\ (timers s = []
      \/ exists id due, timers s = [(id, due)] /\ injectionTimeout s = Some id).

End Observer.

(* ================================================================== *)
(** * The popup *)
(* ================================================================== *)

Module Popup.

Inductive field := SetupField | EditField.

(** What the script reads and writes of the popup's elements. *)
Record ui := {
  setupView_display : jsstring;
  connectedView_display : jsstring;
  urlSetupInput_value : jsstring;
  urlSetupInput_borderColor : jsstring;
  urlEditInput_value : jsstring;
  urlEditInput_borderColor : jsstring;
  displayUrl_textContent : jsstring;
  dashboardLink_href : jsstring;               (* as assigned *)
  editSection_display : jsstring;
  editUrlBtn_display : jsstring;
  focused : option field
}.

(** A call of [chrome.storage.sync] whose callback has not run yet. *)
Inductive task :=
| LoadGet
| EditGet
| SaveSet (url : jsstring)
| UpdateSet (url : jsstring).

Record state := {
  view : ui;
  apiBaseUrl : option jsstring;                (* the stored value *)
  pending : list (nat * task);
  next_id : nat
}.

Definition RED : jsstring := js "#E87171".

Fixpoint dropSlashes (s : jsstring) : jsstring :=
  match s with
  | [] => []
  | c :: s' => if (c =? 47)%N then dropSlashes s' else s
  end.

(** [s.replace(/\/+$/, "")] *)
Definition stripTrailingSlashes (s : jsstring) : jsstring :=
  rev (dropSlashes (rev s)).

(** [input.value.trim().replace(/\/+$/, "")] *)
Definition normalize (value : jsstring) : jsstring :=
  stripTrailingSlashes (JS.trim value).

Definition with_view (u : ui) (s : state) : state :=
  {| view := u; apiBaseUrl := apiBaseUrl s; pending := pending s;
     next_id := next_id s |}.

Definition spawn (t : task) (s : state) : state :=
  {| view := view s; apiBaseUrl := apiBaseUrl s;
     pending := (next_id s, t) :: pending s;
     next_id := S (next_id s) |}.

Fixpoint lookup (i : nat) (l : list (nat * task)) : option task :=
  match l with
  | [] => None
  | (j, t) :: rest => if Nat.eqb j i then Some t else lookup i rest
  end.

Fixpoint remove (i : nat) (l : list (nat * task)) : list (nat * task) :=
  match l with
  | [] => []
  | (j, t) :: rest => if Nat.eqb j i then rest else (j, t) :: remove i rest
  end.

(** [showSetup()] *)
Definition showSetup (u : ui) : ui :=
  {| setupView_display := js "block";
     connectedView_display := js "none";
     urlSetupInput_value := urlSetupInput_value u;
     urlSetupInput_borderColor := urlSetupInput_borderColor u;
     urlEditInput_value := urlEditInput_value u;
     urlEditInput_borderColor := urlEditInput_borderColor u;
     displayUrl_textContent := displayUrl_textContent u;
     dashboardLink_href := dashboardLink_href u;
     editSection_display := editSection_display u;
     editUrlBtn_display := editUrlBtn_display u;
     focused := Some SetupField |}.

(** [showConnected(url)] *)
Definition showConnected (url : jsstring) (u : ui) : ui :=
  {| setupView_display := js "none";
     connectedView_display := js "block";
     urlSetupInput_value := urlSetupInput_value u;
     urlSetupInput_borderColor := urlSetupInput_borderColor u;
     urlEditInput_value := urlEditInput_value u;
     urlEditInput_borderColor := urlEditInput_borderColor u;
     displayUrl_textContent := url;
     dashboardLink_href := url;
     editSection_display := editSection_display u;
     editUrlBtn_display := editUrlBtn_display u;
     focused := focused u |}.

(** The two lines that close the edit form. *)
Definition closeEdit (u : ui) : ui :=
  {| setupView_display := setupView_display u;
     connectedView_display := connectedView_display u;
     urlSetupInput_value := urlSetupInput_value u;
     urlSetupInput_borderColor := urlSetupInput_borderColor u;
     urlEditInput_value := urlEditInput_value u;
     urlEditInput_borderColor := urlEditInput_borderColor u;
     displayUrl_textContent := displayUrl_textContent u;
     dashboardLink_href := dashboardLink_href u;
     editSection_display := js "none";
     editUrlBtn_display := [];
     focused := focused u |}.

(** The callback of the edit button's [get]. *)
Definition openEdit (stored : option jsstring) (u : ui) : ui :=
  {| setupView_display := setupView_display u;
     connectedView_display := connectedView_display u;
     urlSetupInput_value := urlSetupInput_value u;
     urlSetupInput_borderColor := urlSetupInput_borderColor u;
     urlEditInput_value := Submitter.or_else stored [];
     urlEditInput_borderColor := urlEditInput_borderColor u;
     displayUrl_textContent := displayUrl_textContent u;
     dashboardLink_href := dashboardLink_href u;
     editSection_display := js "flex";
     editUrlBtn_display := js "none";
     focused := Some EditField |}.

(** An input that is refused: red border, focus. *)
Definition refuse (f : field) (u : ui) : ui :=
  {| setupView_display := setupView_display u;
     connectedView_display := connectedView_display u;
     urlSetupInput_value := urlSetupInput_value u;
     urlSetupInput_borderColor :=
       match f with SetupField => RED | EditField => urlSetupInput_borderColor u end;
     urlEditInput_value := urlEditInput_value u;
     urlEditInput_borderColor :=
       match f with EditField => RED | SetupField => urlEditInput_borderColor u end;
     displayUrl_textContent := displayUrl_textContent u;
     dashboardLink_href := dashboardLink_href u;
     editSection_display := editSection_display u;
     editUrlBtn_display := editUrlBtn_display u;
     focused := Some f |}.

(** The user edits an input. *)
Definition typed (f : field) (v : jsstring) (u : ui) : ui :=
  {| setupView_display := setupView_display u;
     connectedView_display := connectedView_display u;
     urlSetupInput_value :=
       match f with SetupField => v | EditField => urlSetupInput_value u end;
     urlSetupInput_borderColor := urlSetupInput_borderColor u;
     urlEditInput_value :=
       match f with EditField => v | SetupField => urlEditInput_value u end;
     urlEditInput_borderColor := urlEditInput_borderColor u;
     displayUrl_textContent := displayUrl_textContent u;
     dashboardLink_href := dashboardLink_href u;
     editSection_display := editSection_display u;
     editUrlBtn_display := editUrlBtn_display u;
     focused := focused u |}.

(** The click listener of [saveBtn]. *)
Definition saveClick (s : state) : state :=
  let url := normalize (urlSetupInput_value (view s)) in
  if negb (JS.truthy url) then with_view (refuse SetupField (view s)) s
  else spawn (SaveSet url) s.

(** The click listener of [updateBtn]. *)
Definition updateClick (s : state) : state :=
  let url := normalize (urlEditInput_value (view s)) in
  if negb (JS.truthy url) then with_view (refuse EditField (view s)) s
  else spawn (UpdateSet url) s.

(** The click listener of [cancelBtn]. *)
Definition cancelClick (s : state) : state :=
  with_view (closeEdit (view s)) s.

(** The [keydown] listeners: [saveBtn.click()], [updateBtn.click()] and
    [cancelBtn.click()] run the click listeners. *)
Definition setupKeydown (key : jsstring) (s : state) : state :=
  if JS.eqb key (js "Enter") then saveClick s else s.

Definition editKeydown (key : jsstring) (s : state) : state :=
  let s1 := if JS.eqb key (js "Enter") then updateClick s else s in
  if JS.eqb key (js "Escape") then cancelClick s1 else s1.

(** The callback of a storage call, run when the call completes; a
    [set] has written its value by then. *)
Definition completed (t : task) (s : state) : state :=
  match t with
  | LoadGet =>
      match apiBaseUrl s with
      | Some url =>
          if JS.truthy url then with_view (showConnected url (view s)) s
          else with_view (showSetup (view s)) s
      | None => with_view (showSetup (view s)) s
      end
  | EditGet => with_view (openEdit (apiBaseUrl s) (view s)) s
  | SaveSet url =>
      {| view := showConnected url (view s);
         apiBaseUrl := Some url;
         pending := pending s; next_id := next_id s |}
  | UpdateSet url =>
      {| view := closeEdit (showConnected url (view s));
         apiBaseUrl := Some url;
         pending := pending s; next_id := next_id s |}
  end.

Inductive event :=
| DOMContentLoaded
| Typed (f : field) (v : jsstring)
| SaveClicked
| EditClicked
| UpdateClicked
| CancelClicked
| SetupKey (key : jsstring)
| EditKey (key : jsstring)
| StorageDone (i : nat).

Definition step (e : event) (s : state) : option state :=
  match e with
  | DOMContentLoaded => Some (spawn LoadGet s)
  | Typed f v => Some (with_view (typed f v (view s)) s)
  | SaveClicked => Some (saveClick s)
  | EditClicked => Some (spawn EditGet s)
  | UpdateClicked => Some (updateClick s)
  | CancelClicked => Some (cancelClick s)
  | SetupKey key => Some (setupKeydown key s)
  | EditKey key => Some (editKeydown key s)
  | StorageDone i =>
      match lookup i (pending s) with
      | Some t =>
          Some (completed t
                  {| view := view s; apiBaseUrl := apiBaseUrl s;
                     pending := remove i (pending s);
                     next_id := next_id s |})
      | None => None
      end
  end.

Fixpoint run (es : list event) (s : state) : option state :=
  match es with
  | [] => Some s
  | e :: rest =>
      match step e s with
      | Some s' => run rest s'
      | None => None
      end
  end.

(** The popup as it opens: the elements as the page has them, the value
    the store holds, no call under way. *)
Definition opened (u : ui) (stored : option jsstring) : state :=
  {| view := u; apiBaseUrl := stored; pending := []; next_id := 0 |}.

(** A base URL as the popup writes it: not empty, no slash at the end. *)
Definition well_formed (url : jsstring) : Prop :=
  url <> [] /\ last url 0%N <> 47%N.

(** Exactly one of the two views is shown. *)
Definition one_view (u : ui) : Prop :=
  (setupView_display u = js "block" /\ connectedView_display u = js "none")
  \/ (setupView_display u = js "none" /\ connectedView_display u = js "block").

Definition set_url (t : task) : option jsstring :=
  match t with
  | SaveSet url => Some url
  | UpdateSet url => Some url
  | _ => None
  end.

End Popup.

(* ================================================================== *)
(** * More notions for the properties below *)
(* ================================================================== *)

Module Notions.
Import Dom.

(** No white space at either end. *)
Definition trimmed (s : jsstring) : Prop :=
  (forall c r, s = c :: r -> JS.isWhiteSpace c = false)
  /\ (forall c r, s = r ++ [c] -> JS.isWhiteSpace c = false).

(** A code unit that stands for itself in a query string. *)
Definition plain (c : N) : bool :=
  ((c <? 128) && negb (c =? 37) && negb (c =? 43) && negb (c =? 38)
   && negb (c =? 35) && negb (c =? 61) && negb (c =? 63))%N.

(** The request of a submission is well formed. *)
Definition proper_request (r : Submitter.request) : Prop :=
  Submitter.req_method r = js "POST"
  /\ Submitter.req_content_type r = js "application/json"
  /\ (exists base, base <> [] /\ Submitter.req_url r = base ++ js "/api/jobs")
  /\ Scraper.job_title (Submitter.req_body r) <> []
  /\ Scraper.job_title (Submitter.req_body r) <> js "Unknown Position".

Fixpoint count_clicks (es : list Submitter.event) : nat :=
  match es with
  | [] => 0
  | Submitter.Click :: rest => S (count_clicks rest)
  | _ :: rest => count_clicks rest
  end.

Fixpoint count_waiting (l : list (nat * Submitter.task)) : nat :=
  match l with
  | [] => 0
  | (_, Submitter.AwaitApiUrl) :: rest => S (count_waiting rest)
  | _ :: rest => count_waiting rest
  end.

(** The properties of the element [x] of the page. *)
Definition props_at (d : node) (x : nat) : option props :=
  match locate d x with
  | Some (_, Element _ p _) => Some p
  | _ => None
  end.

(** An element stays where it is: it is still there, under the same
    ancestors, with its tag, its layout and its attributes other than
    the processed marker. *)
Definition stays (x : nat) (d d' : node) : Prop :=
  forall anc p cs,
    locate d x = Some (anc, Element x p cs) ->
    exists anc' p' cs',
      locate d' x = Some (anc', Element x p' cs')
      /\ map fst anc' = map fst anc
      /\ Injector.props_sim p p'.


(** What the store holds, and what the calls under way will write. *)
Definition store_inv (stored : option jsstring) (s : Popup.state) : Prop :=
  (Popup.apiBaseUrl s = stored
   \/ exists url, Popup.apiBaseUrl s = Some url /\ Popup.well_formed url)
  /\ forall i t url,
       In (i, t) (Popup.pending s) -> Popup.set_url t = Some url ->
       Popup.well_formed url.


End Notions.

(** More sample data. *)
Module Samples2.
Import Dom.

Definition popup_as_loaded : Popup.ui :=
  {| Popup.setupView_display := js "none";
     Popup.connectedView_display := js "none";
     Popup.urlSetupInput_value := [];
     Popup.urlSetupInput_borderColor := [];
     Popup.urlEditInput_value := [];
     Popup.urlEditInput_borderColor := [];
     Popup.displayUrl_textContent := [];
     Popup.dashboardLink_href := js "#";
     Popup.editSection_display := js "none";
     Popup.editUrlBtn_display := [];
     Popup.focused := None |}.

Definition typed_url : jsstring := js "  http://localhost:8000//  ".

(** The user opens the popup, types a URL and saves it. *)
Definition first_setup : list Popup.event :=
  [ Popup.DOMContentLoaded; Popup.StorageDone 0;
    Popup.Typed Popup.SetupField typed_url;
    Popup.SetupKey (js "Enter"); Popup.StorageDone 1 ].

(** A submission the backend accepts, with nothing else going on; a
    submission whose request never gets through. *)
Definition accepted : list Submitter.event :=
  Samples.in_flight ++ [ Submitter.FetchSettled 0 (Submitter.Responded true) ].

Definition accepted_then_idle : list Submitter.event :=
  accepted ++ [ Submitter.Elapse 5000 ].

Definition connection_lost : list Submitter.event :=
  Samples.in_flight
  ++ [ Submitter.FetchSettled 0 (Submitter.Rejected (js "TypeError: Failed to fetch")) ].

(** The popup after some events, opened with nothing stored. *)
Definition popup_after (es : list Popup.event) : Popup.state :=
  match Popup.run es (Popup.opened popup_as_loaded None) with
  | Some s => s
  | None => Popup.opened popup_as_loaded None
  end.

(** The observer started on the sample page at time 0, after some
    events. *)
Definition observer_after (es : list Observer.event) : Observer.state :=
  match Observer.run Samples.sample_suffix Samples.sample_layout es
          (Observer.startObserver Samples.shared_bar_page 0) with
  | Some s => s
  | None => Observer.startObserver Samples.shared_bar_page 0
  end.

(** The first frame, whose insertion the observer sees; then the
    interval comes round before the debounce timer has fired. *)
Definition frame_then_tick : list Observer.event :=
  [ Observer.Frame; Observer.Elapse 3000; Observer.Tick ].


(** After the backend refused a submission, a second click within the
    delay window whose request is still in flight when the timer of the
    error has come due; and that timer firing. *)
Definition retry_in_flight : list Submitter.event :=
  Samples.server_error
  ++ [ Submitter.Click;
       Submitter.StorageReply 2 (Some Samples.backend) Samples.job_page
         Samples.job_address;
       Submitter.Elapse 2500 ].

Definition retry_reenabled : list Submitter.event :=
  retry_in_flight ++ [ Submitter.TimerFired 1 ].

End Samples2.

(* ================================================================== *)
(** * Properties of strings *)
(* ================================================================== *)

Section StringFacts.

Lemma jseqb_eq (a b : jsstring) : JS.eqb a b = true <-> a = b.
Proof.
  revert b; induction a as [|x a IH]; intros [|y b]; simpl; split;
    try congruence; try reflexivity.
  - intros H. apply andb_true_iff in H as [H1 H2].
    apply N.eqb_eq in H1. apply IH in H2. congruence.
  - intros H. injection H as -> ->.
    apply andb_true_iff. split; [apply N.eqb_refl | now apply IH].
Qed.

Lemma jseqb_refl (a : jsstring) : JS.eqb a a = true.
Proof. now apply jseqb_eq. Qed.

Lemma jseqb_neq (a b : jsstring) : JS.eqb a b = false <-> a <> b.
Proof.
  split.
  - intros H E. apply jseqb_eq in E. congruence.
  - intros H. destruct (JS.eqb a b) eqn:E; [|reflexivity].
    apply jseqb_eq in E. contradiction.
Qed.

Lemma truthy_false (s : jsstring) : JS.truthy s = false <-> s = [].
Proof. destruct s; simpl; split; congruence. Qed.

End StringFacts.

(* ================================================================== *)
(** * Properties of the Scraper *)
(* ================================================================== *)

Section ScraperFacts.
Import Dom Scraper Samples.

Lemma first_match_none (d : node) (sels : list selector) :
  Forall (fun s => querySelector d s = None) sels ->
  first_match d sels = None.
Proof.
  induction 1 as [|s sels Hs _ IH]; simpl; [reflexivity|].
  now rewrite Hs.
Qed.

Lemma truncate_long (full : jsstring) :
  200 < List.length full ->
  truncate full = firstn 200 full ++ ELLIPSIS
  /\ List.length (truncate full) = 201.
Proof.
  intros H. unfold truncate, JS.substring0.
  assert (E : (200 <? List.length full) = true) by (apply Nat.ltb_lt; exact H).
  rewrite E. split; [reflexivity|].
  rewrite length_app, length_firstn, Nat.min_l by lia. reflexivity.
Qed.

Lemma truncate_short (full : jsstring) :
  List.length full <= 200 -> truncate full = full.
Proof.
  intros H. unfold truncate.
  assert (E : (200 <? List.length full) = false) by (apply Nat.ltb_ge; exact H).
  now rewrite E.
Qed.

(** C1. The description of the scraped record is the trimmed text of the
    description element, cut to its first 200 code units with one
    ellipsis unit appended when it is longer than 200 (201 units in
    all), and unchanged when it has at most 200 units. *)
Theorem description_truncated_at_200 (d : node) (href : jsstring) :
  let full := fullDesc d in
  let out := description (scrapeJobData d href) in
  (200 < List.length full ->
     out = firstn 200 full ++ [8230%N] /\ List.length out = 201)
  /\ (List.length full <= 200 -> out = full).
Proof.
  simpl. split; intros H.
  - now apply truncate_long.
  - now apply truncate_short.
Qed.

Lemma description_truncated_at_200_witness :
  description (scrapeJobData long_page job_address)
  = repeat 97%N 200 ++ [8230%N]
  /\ description (scrapeJobData job_page job_address) = js "We build things.".
Proof.
  split.
  - refine (proj1 (proj1 (description_truncated_at_200 long_page job_address)
                     _)).
    vm_compute. lia.
  - refine (proj2 (description_truncated_at_200 job_page job_address) _).
    vm_compute. lia.
Defined.

(** C5. When no company locator matches the company is the sentinel
    "Unknown Company"; when no description locator matches the
    description is the empty string. *)
Theorem missing_company_and_description (d : node) (href : jsstring) :
  (Forall (fun s => querySelector d s = None) COMPANY_LOCATORS ->
     company (scrapeJobData d href) = js "Unknown Company")
  /\ (Forall (fun s => querySelector d s = None) DESCRIPTION_LOCATORS ->
        description (scrapeJobData d href) = []).
Proof.
  split; intros H; unfold scrapeJobData.
  - cbn [company]. now rewrite first_match_none by exact H.
  - cbn [description]. unfold fullDesc.
    now rewrite first_match_none by exact H.
Qed.

Lemma missing_company_and_description_witness :
  company (scrapeJobData blank_page job_address) = js "Unknown Company"
  /\ description (scrapeJobData blank_page job_address) = [].
Proof.
  split.
  - apply (proj1 (missing_company_and_description blank_page job_address)).
    repeat constructor.
  - apply (proj2 (missing_company_and_description blank_page job_address)).
    repeat constructor.
Defined.

Lemma missing_title (d : node) (href : jsstring) :
  Forall (fun s => querySelector d s = None) TITLE_LOCATORS ->
  job_title (scrapeJobData d href) = js "Unknown Position".
Proof.
  intros H; unfold scrapeJobData; cbn [job_title].
  now rewrite first_match_none by exact H.
Qed.

Lemma derived_url_some (href id : jsstring) :
  currentJobId href = Some id -> id <> [] ->
  derived_url href = deep_link id.
Proof.
  intros H Hne. unfold derived_url. rewrite H.
  destruct id; [contradiction | reflexivity].
Qed.

Lemma derived_url_stripped (href : jsstring) :
  currentJobId href = None \/ currentJobId href = Some [] ->
  derived_url href = JS.before 63 href.
Proof. intros [H|H]; unfold derived_url; now rewrite H. Qed.

(** C4, as the script has it.  When the [currentJobId] parameter of the
    address has a non-empty value, the url of the record is the deep
    link built from that value alone, so two addresses with the same
    value give the same url whatever else they contain; when the
    parameter is absent or its value is empty, the url is the address
    up to its first [?]. *)
Theorem url_from_job_identifier (d1 d2 : node) (h1 h2 id : jsstring) :
  (currentJobId h1 = Some id -> id <> [] ->
     url (scrapeJobData d1 h1) = deep_link id
     /\ (currentJobId h2 = Some id ->
           url (scrapeJobData d2 h2) = url (scrapeJobData d1 h1)))
  /\ (currentJobId h1 = None \/ currentJobId h1 = Some [] ->
        url (scrapeJobData d1 h1) = JS.before 63 h1).
Proof.
  split.
  - intros H1 Hne. simpl. split.
    + now apply derived_url_some.
    + intros H2. now rewrite (derived_url_some h1 id), (derived_url_some h2 id).
  - intros H. simpl. now apply derived_url_stripped.
Qed.

Lemma url_from_job_identifier_witness :
  url (scrapeJobData job_page search_with_id)
  = js "https://www.linkedin.com/jobs/view/4012345678/"
  /\ url (scrapeJobData blank_page collections_with_id)
     = url (scrapeJobData job_page search_with_id)
  /\ url (scrapeJobData job_page job_address)
     = js "https://www.linkedin.com/jobs/view/4012345678/".
Proof.
  destruct (url_from_job_identifier job_page blank_page search_with_id
              collections_with_id (js "4012345678")) as [H _].
  destruct H as [H1 H2].
  - vm_compute. reflexivity.
  - discriminate.
  - split; [exact H1|]. split.
    + apply H2. vm_compute. reflexivity.
    + apply (proj2 (url_from_job_identifier job_page job_page job_address
                      job_address [])).
      left. vm_compute. reflexivity.
Defined.

(** Two addresses that both carry the parameter, with the same (empty)
    value, and whose records have different urls. *)
Lemma url_not_by_identifier_alone :
  currentJobId search_page = Some []
  /\ currentJobId collections_page = Some []
  /\ derived_url search_page = js "https://www.linkedin.com/jobs/search/"
  /\ derived_url collections_page
     = js "https://www.linkedin.com/jobs/collections/recommended/"
  /\ derived_url search_page <> derived_url collections_page.
Proof.
  repeat split; try (vm_compute; reflexivity).
  vm_compute. discriminate.
Qed.

End ScraperFacts.

(* ================================================================== *)
(** * Properties of the Submitter *)
(* ================================================================== *)

Section SubmitterFacts.
Import Submitter.

Lemma class_add_in (l : list jsstring) (c : jsstring) : In c (class_add l c).
Proof.
  unfold class_add. destruct (existsb (JS.eqb c) l) eqn:E.
  - apply existsb_exists in E as (x & Hx & Hc).
    apply jseqb_eq in Hc. now subst.
  - apply in_or_app. right. now left.
Qed.

(** [showFeedback] with a type that is not ["success"]. *)
Lemma showFeedback_transient (text type : jsstring) (w : world) :
  type <> js "success" ->
  showFeedback text type w =
  spawn (RevertTimer (now w + REVERT_DELAY) type)
    (with_btn
       {| content := PlainText text;
          classList := class_add (classList (btn w)) (js "jt-" ++ type);
          disabled := false;
          originalHTML := originalHTML (btn w);
          originalText := originalText (btn w);
          tracked := tracked (btn w) |} w).
Proof.
  intros H. apply jseqb_neq in H. unfold showFeedback. now rewrite H.
Qed.

(** [showFeedback] with the type ["success"]: the button is disabled
    and nothing is scheduled. *)
Lemma showFeedback_success (text : jsstring) (w : world) :
  disabled (btn (showFeedback text (js "success") w)) = true
  /\ pending (showFeedback text (js "success") w) = pending w
  /\ next_id (showFeedback text (js "success") w) = next_id w.
Proof. repeat split. Qed.

Lemma showFeedback_requests (text type : jsstring) (w : world) :
  requests (showFeedback text type w) = requests w.
Proof.
  unfold showFeedback. now destruct (negb (JS.eqb type (js "success"))).
Qed.

Lemma showFeedback_originalHTML (text type : jsstring) (w : world) :
  originalHTML (btn (showFeedback text type w)) = originalHTML (btn w).
Proof.
  unfold showFeedback. now destruct (negb (JS.eqb type (js "success"))).
Qed.

(** No turn of the event loop writes [originalHTML]. *)
Lemma step_originalHTML (e : event) (w w' : world) :
  step e w = Some w' -> originalHTML (btn w') = originalHTML (btn w).
Proof.
  destruct e as [|i stored d href|i r|i body|i|ms]; unfold step.
  - destruct (disabled (btn w)); [discriminate|]. now intros [= <-].
  - destruct (lookup i (pending w)) as [[| | |]|]; try discriminate.
    intros [= <-]. unfold trackJob_configured.
    destruct (negb (JS.truthy (getApiUrl stored))).
    + now rewrite showFeedback_originalHTML.
    + destruct (unusable_title _).
      * now rewrite showFeedback_originalHTML.
      * reflexivity.
  - destruct (lookup i (pending w)) as [[| | |]|]; try discriminate.
    intros [= <-]. destruct r as [[|]|e]; unfold trackJob_fetched.
    + unfold with_tracked, with_btn; cbn [btn originalHTML].
      now rewrite showFeedback_originalHTML.
    + reflexivity.
    + unfold log_error; cbn [btn].
      now rewrite showFeedback_originalHTML.
  - destruct (lookup i (pending w)) as [[| | |]|]; try discriminate.
    intros [= <-]. unfold trackJob_decoded, log_error; cbn [btn].
    now rewrite showFeedback_originalHTML.
  - destruct (lookup i (pending w)) as [[| | |due type]|]; try discriminate.
    destruct (due <=? now w)%N; [|discriminate]. now intros [= <-].
  - now intros [= <-].
Qed.

(** Every control keeps the [originalHTML] it was created with. *)
Lemma reachable_originalHTML (w : world) :
  reachable w -> originalHTML (btn w) = Some DEFAULT_HTML.
Proof.
  intros [es H].
  assert (G : forall es w0, run es w0 = Some w ->
              originalHTML (btn w) = originalHTML (btn w0)).
  { clear. induction es as [|e es IH]; intros w0; simpl.
    - now intros [= ->].
    - destruct (step e w0) as [w1|] eqn:E; [|discriminate].
      intros H. rewrite (IH _ H). now apply step_originalHTML with e. }
  now rewrite (G _ _ H).
Qed.

(** The timer [showFeedback] sets fires once its delay has passed, and
    then enables the button and restores the label. *)
Lemma revert_after_delay (text type : jsstring) (w : world) :
  type <> js "success" ->
  let w' := showFeedback text type w in
  exists w1 w2,
    step (Elapse REVERT_DELAY) w' = Some w1
    /\ step (TimerFired (next_id w)) w1 = Some w2
    /\ disabled (btn w2) = false
    /\ content (btn w2) = Html (or_else (originalHTML (btn w)) DEFAULT_HTML)
    /\ requests w2 = requests w
    /\ errors w2 = errors w.
Proof.
  intros H. simpl. rewrite showFeedback_transient by exact H.
  eexists. eexists. split; [reflexivity|].
  simpl. rewrite Nat.eqb_refl. rewrite N.leb_refl.
  repeat split.
Qed.

(** C10. A call of [showFeedback] with a type other than ["success"]
    leaves the button enabled when it returns: from then on and
    throughout the 2500 ms before the revert timer can fire, a click on
    the control is dispatched. *)
Theorem feedback_reenables_at_once (text type : jsstring) (w : world) :
  type <> js "success" ->
  let w' := showFeedback text type w in
  disabled (btn w') = false
  /\ lookup (next_id w) (pending w')
     = Some (RevertTimer (now w + 2500) type)
  /\ forall ms, (ms < 2500)%N ->
       exists w1 w2,
         step (Elapse ms) w' = Some w1
         /\ step (TimerFired (next_id w)) w1 = None
         /\ step Click w1 = Some w2.
Proof.
  intros H. simpl. rewrite showFeedback_transient by exact H.
  split; [reflexivity|]. split.
  - simpl. now rewrite Nat.eqb_refl.
  - intros ms Hms. eexists. eexists. split; [reflexivity|].
    simpl. rewrite Nat.eqb_refl. split; [|reflexivity].
    unfold REVERT_DELAY.
    destruct (N.leb_spec (now w + 2500) (now w + ms)) as [L|L];
      [lia | reflexivity].
Qed.

Lemma feedback_reenables_at_once_witness :
  disabled (btn (showFeedback SET_API_URL (js "warning") initial)) = false.
Proof.
  apply (feedback_reenables_at_once SET_API_URL (js "warning") initial).
  vm_compute. discriminate.
Defined.

(** A click on an enabled button starts one [trackJob], which waits for
    the settings store; nothing else happens yet. *)
Lemma click_starts_trackJob (w w1 : world) :
  step Click w = Some w1 ->
  disabled (btn w) = false
  /\ lookup (next_id w) (pending w1) = Some AwaitApiUrl
  /\ btn w1 = btn w /\ requests w1 = requests w /\ now w1 = now w.
Proof.
  unfold step. destruct (disabled (btn w)); [discriminate|].
  intros [= <-]. simpl. now rewrite Nat.eqb_refl.
Qed.

(** What [trackJob] does when the store replies and the stored base URL
    is missing or empty, or the title is unusable. *)
Lemma reply_refused (w1 w2 : world) (i : nat) (stored : option jsstring)
  (d : Dom.node) (href : jsstring) :
  step (StorageReply i stored d href) w1 = Some w2 ->
  JS.truthy (getApiUrl stored) = false
  \/ unusable_title (Scraper.scrapeJobData d href) = true ->
  exists text,
    (text = SET_API_URL \/ text = CANT_READ_JOB)
    /\ (JS.truthy (getApiUrl stored) = false -> text = SET_API_URL)
    /\ w2 = showFeedback text (js "warning") (resume i w1).
Proof.
  unfold step.
  destruct (lookup i (pending w1)) as [[| | |]|]; try discriminate.
  intros [= <-] Hc. unfold trackJob_configured.
  destruct (JS.truthy (getApiUrl stored)) eqn:Eu; simpl.
  - destruct Hc as [Hc|Hc]; [discriminate|]. rewrite Hc.
    exists CANT_READ_JOB. repeat split; auto. discriminate.
  - exists SET_API_URL. repeat split; auto.
Qed.

(** C2. When no title locator matches, the title of the record is the
    sentinel "Unknown Position".  A click starts a [trackJob] that waits
    for the settings store, and when a [trackJob] resumes on a page
    whose scraped title is empty or the sentinel, it issues no request
    and ends with a warning shown on the control. *)
Theorem unreadable_title_is_rejected (d : Dom.node) (href : jsstring) :
  (Forall (fun s => Dom.querySelector d s = None) Scraper.TITLE_LOCATORS ->
     Scraper.job_title (Scraper.scrapeJobData d href) = js "Unknown Position")
  /\ (forall w w1 : world,
        step Click w = Some w1 ->
        lookup (next_id w) (pending w1) = Some AwaitApiUrl
        /\ requests w1 = requests w)
  /\ forall (w1 w2 : world) (i : nat) (stored : option jsstring),
       Scraper.job_title (Scraper.scrapeJobData d href) = []
       \/ Scraper.job_title (Scraper.scrapeJobData d href)
          = js "Unknown Position" ->
       step (StorageReply i stored d href) w1 = Some w2 ->
       requests w2 = requests w1
       /\ In (js "jt-warning") (classList (btn w2))
       /\ (content (btn w2) = PlainText SET_API_URL
           \/ content (btn w2) = PlainText CANT_READ_JOB).
Proof.
  split; [apply missing_title|]. split.
  { intros w w1 Hc. now destruct (click_starts_trackJob w w1 Hc)
      as (_ & H1 & _ & H2 & _). }
  intros w1 w2 i stored Ht Hs.
  destruct (reply_refused w1 w2 i stored d href Hs) as (text & Htext & _ & ->).
  - right. unfold unusable_title.
    destruct Ht as [-> | ->]; reflexivity.
  - rewrite showFeedback_requests.
    rewrite showFeedback_transient by (vm_compute; discriminate).
    repeat split.
    + simpl. apply class_add_in.
    + simpl. destruct Htext as [-> | ->]; auto.
Qed.

Lemma unreadable_title_is_rejected_witness :
  Scraper.job_title (Scraper.scrapeJobData Samples.blank_page Samples.job_address)
  = js "Unknown Position"
  /\ requests (world_after Samples.unreadable_click) = []
  /\ In (js "jt-warning")
       (classList (btn (world_after Samples.unreadable_click))).
Proof.
  destruct (unreadable_title_is_rejected Samples.blank_page Samples.job_address)
    as (Ha & _ & Hb).
  assert (Ht : Scraper.job_title
                 (Scraper.scrapeJobData Samples.blank_page Samples.job_address)
               = js "Unknown Position")
    by (apply Ha; repeat constructor).
  split; [exact Ht|].
  destruct (Hb (world_after [Click])
              (world_after Samples.unreadable_click) 0 (Some Samples.backend))
    as (H1 & H2 & _).
  - now right.
  - reflexivity.
  - split; [exact H1 | exact H2].
Defined.

(** C3. When a [trackJob] started by a click resumes and the settings
    store holds no base URL, or an empty one, it issues no request and
    shows the configuration warning; 2500 ms later the timer set by the
    warning fires and the control shows the label it was created with
    again, still without any request. *)
Theorem unset_url_warns_then_reverts (w1 w2 : world) (i : nat)
  (stored : option jsstring) (d : Dom.node) (href : jsstring) :
  reachable w1 ->
  stored = None \/ stored = Some [] ->
  step (StorageReply i stored d href) w1 = Some w2 ->
  requests w2 = requests w1
  /\ content (btn w2) = PlainText SET_API_URL
  /\ In (js "jt-warning") (classList (btn w2))
  /\ lookup (next_id w1) (pending w2)
     = Some (RevertTimer (now w1 + 2500) (js "warning"))
  /\ exists w3 w4,
       step (Elapse 2500) w2 = Some w3
       /\ step (TimerFired (next_id w1)) w3 = Some w4
       /\ content (btn w4) = content createButton
       /\ requests w4 = requests w1.
Proof.
  intros Hreach Hstored Hs.
  assert (Hu : JS.truthy (getApiUrl stored) = false)
    by (destruct Hstored as [-> | ->]; reflexivity).
  destruct (reply_refused w1 w2 i stored d href Hs (or_introl Hu))
    as (text & _ & Htext & ->).
  rewrite (Htext Hu).
  assert (Hw : js "warning" <> js "success") by (vm_compute; discriminate).
  destruct (revert_after_delay SET_API_URL (js "warning") (resume i w1) Hw)
    as (w3 & w4 & E3 & E4 & _ & Hcontent & Hreq & _).
  rewrite showFeedback_requests.
  rewrite showFeedback_transient by exact Hw.
  rewrite showFeedback_transient in E3 by exact Hw.
  repeat split.
  - simpl. apply class_add_in.
  - simpl. rewrite Nat.eqb_refl. reflexivity.
  - exists w3, w4. repeat split.
    + exact E3.
    + exact E4.
    + rewrite Hcontent. simpl.
      now rewrite (reachable_originalHTML w1 Hreach).
    + exact Hreq.
Qed.

Lemma unset_url_warns_then_reverts_witness :
  requests (world_after Samples.unconfigured_click) = []
  /\ content (btn (world_after Samples.unconfigured_click))
     = PlainText SET_API_URL.
Proof.
  destruct (unset_url_warns_then_reverts (world_after [Click])
              (world_after Samples.unconfigured_click) 0 None
              Samples.job_page Samples.job_address)
    as (H1 & H2 & _).
  - exists [Click]. reflexivity.
  - now left.
  - reflexivity.
  - split; [exact H1 | exact H2].
Defined.

(** ** A timer that is waiting *)

Lemma lookup_remove_other (i j : nat) (l : list (nat * task)) :
  i <> j -> lookup i (remove j l) = lookup i l.
Proof.
  intros Hij. induction l as [|[k t] l IH]; simpl; [reflexivity|].
  destruct (Nat.eqb_spec k j) as [->|Hkj].
  - destruct (Nat.eqb_spec j i); [congruence | reflexivity].
  - simpl. now rewrite IH.
Qed.

Lemma lookup_distinct (i j : nat) (l : list (nat * task)) (t u : task) :
  lookup i l = Some t -> lookup j l = Some u -> t <> u -> i <> j.
Proof. intros Hi Hj Htu ->. congruence. Qed.

Lemma showFeedback_keeps_timer (text ty : jsstring) (w : world) (id : nat)
  (t : task) :
  lookup id (pending w) = Some t /\ id < next_id w ->
  lookup id (pending (showFeedback text ty w)) = Some t
  /\ id < next_id (showFeedback text ty w).
Proof.
  intros [H1 H2]. unfold showFeedback.
  destruct (negb (JS.eqb ty (js "success")));
    cbn [spawn with_btn pending next_id lookup]; [|auto].
  destruct (Nat.eqb_spec (next_id w) id); [lia | auto].
Qed.

(** A timer that is waiting keeps waiting, whatever else happens, until
    it fires itself. *)
Lemma step_keeps_timer (e : event) (w w' : world) (id : nat) (due : N)
  (type : jsstring) :
  step e w = Some w' -> e <> TimerFired id ->
  lookup id (pending w) = Some (RevertTimer due type) /\ id < next_id w ->
  lookup id (pending w') = Some (RevertTimer due type) /\ id < next_id w'.
Proof.
  intros S1 He [H1 H2].
  assert (R : forall j u, lookup j (pending w) = Some u ->
              u <> RevertTimer due type ->
              lookup id (pending (resume j w)) = Some (RevertTimer due type)
              /\ id < next_id (resume j w)).
  { intros j u Hj Hu. cbn [resume pending next_id].
    rewrite lookup_remove_other; [auto|].
    apply (lookup_distinct id j (pending w) _ u H1 Hj). congruence. }
  assert (Sus : forall j u w0, j <> id -> u <> RevertTimer due type ->
              lookup id (pending w0) = Some (RevertTimer due type)
              /\ id < next_id w0 ->
              lookup id (pending (suspend j u w0))
              = Some (RevertTimer due type)
              /\ id < next_id (suspend j u w0)).
  { intros j u w0 Hj _ [A B]. cbn [suspend pending next_id lookup].
    destruct (Nat.eqb_spec j id); [contradiction | auto]. }
  destruct e as [|i stored d href|i r|i body|i|ms]; unfold step in S1.
  - destruct (disabled (btn w)); [discriminate|]. injection S1 as <-.
    cbn [spawn pending next_id lookup].
    destruct (Nat.eqb_spec (next_id w) id); [lia | auto].
  - destruct (lookup i (pending w)) as [[| | |]|] eqn:L; try discriminate.
    injection S1 as <-.
    assert (Hi : i <> id) by (intros ->; congruence).
    pose proof (R i AwaitApiUrl L ltac:(discriminate)) as K.
    unfold trackJob_configured.
    destruct (negb (JS.truthy (getApiUrl stored)));
      [now apply showFeedback_keeps_timer|].
    destruct (unusable_title (Scraper.scrapeJobData d href));
      [now apply showFeedback_keeps_timer|].
    cbn [suspend pending next_id lookup].
    destruct (Nat.eqb_spec i id); [contradiction | exact K].
  - destruct (lookup i (pending w)) as [[| | |]|] eqn:L; try discriminate.
    injection S1 as <-.
    assert (Hi : i <> id) by (intros ->; congruence).
    pose proof (R i AwaitResponse L ltac:(discriminate)) as K.
    destruct r as [[|]|e]; unfold trackJob_fetched.
    + cbn [with_tracked with_btn pending next_id].
      now apply showFeedback_keeps_timer.
    + apply Sus; [exact Hi | discriminate | exact K].
    + cbn [log_error pending next_id]. now apply showFeedback_keeps_timer.
  - destruct (lookup i (pending w)) as [[| | |]|] eqn:L; try discriminate.
    injection S1 as <-.
    pose proof (R i AwaitErrorBody L ltac:(discriminate)) as K.
    unfold trackJob_decoded. cbn [log_error pending next_id].
    now apply showFeedback_keeps_timer.
  - destruct (lookup i (pending w)) as [[| | |due' type']|] eqn:L;
      try discriminate.
    destruct (due' <=? now w)%N; [|discriminate]. injection S1 as <-.
    assert (Hi : id <> i) by (intros ->; now apply He).
    cbn [revert with_btn resume pending next_id].
    rewrite lookup_remove_other; auto.
  - injection S1 as <-. auto.
Qed.

Lemma run_keeps_timer (es : list event) (w w' : world) (id : nat) (due : N)
  (type : jsstring) :
  run es w = Some w' -> ~ In (TimerFired id) es ->
  lookup id (pending w) = Some (RevertTimer due type) /\ id < next_id w ->
  lookup id (pending w') = Some (RevertTimer due type) /\ id < next_id w'.
Proof.
  revert w. induction es as [|e es IH]; intros w; simpl.
  - now intros [= <-].
  - destruct (step e w) as [w1|] eqn:E; [|discriminate].
    intros R Hn H. apply (IH w1 R); [tauto|].
    apply (step_keeps_timer e w w1 id due type E); [|exact H].
    intros ->. apply Hn. now left.
Qed.

(** What the callback of the timer does, once the timer is due. *)
Lemma timer_fires (w : world) (id : nat) (due : N) (type : jsstring) :
  lookup id (pending w) = Some (RevertTimer due type) ->
  ((now w < due)%N -> step (TimerFired id) w = None)
  /\ ((due <= now w)%N ->
      exists w',
        step (TimerFired id) w = Some w'
        /\ disabled (btn w') = false
        /\ content (btn w')
           = Html (or_else (originalHTML (btn w)) DEFAULT_HTML)
        /\ ~ In (js "jt-" ++ type) (classList (btn w'))
        /\ requests w' = requests w
        /\ errors w' = errors w).
Proof.
  intros L. unfold step. rewrite L. split.
  - intros H. apply N.leb_gt in H. now rewrite H.
  - intros H. apply N.leb_le in H. rewrite H. eexists.
    split; [reflexivity|].
    cbn [revert with_btn resume btn disabled content classList requests
         errors originalHTML].
    repeat split. unfold class_remove. intros Hin.
    apply filter_In in Hin as [_ Hin]. now rewrite jseqb_refl in Hin.
Qed.

(** C9. When the backend answers a submission with a status that is not
    OK, [trackJob] goes on to decode the body, with nothing shown or
    logged yet; when the decoding settles (an undecodable body counts as
    the empty object) the control shows the error state and the decoded
    body is logged, and the timer of the error is set for 2500 ms later.
    Whatever happens to the control in the meantime (further clicks, a
    retry in flight that has disabled the button, other timers), that
    timer keeps waiting; it cannot fire before the 2500 ms are over, and
    once they are, it fires, and its callback leaves the button enabled,
    with the idle markup and without the class [jt-error], sending and
    logging nothing. *)
Theorem rejected_submission_reports_and_reenables (i : nat) :
  (forall w w1 : world,
     step (FetchSettled i (Responded false)) w = Some w1 ->
     lookup i (pending w1) = Some AwaitErrorBody
     /\ btn w1 = btn w /\ errors w1 = errors w /\ requests w1 = requests w)
  /\ forall (w1 w2 : world) (body : option json),
       step (BodyDecoded i body) w1 = Some w2 ->
       content (btn w2) = PlainText FAILED
       /\ In (js "jt-error") (classList (btn w2))
       /\ errors w2
          = errors w1 ++ [ApiError (match body with
                                    | Some v => v
                                    | None => JObject []
                                    end)]
       /\ requests w2 = requests w1
       /\ lookup (next_id w1) (pending w2)
          = Some (RevertTimer (now w1 + 2500) (js "error"))
       /\ (exists w3 w4,
             step (Elapse 2500) w2 = Some w3
             /\ step (TimerFired (next_id w1)) w3 = Some w4
             /\ disabled (btn w4) = false)
       /\ forall (es : list event) (w3 : world),
            run es w2 = Some w3 ->
            ~ In (TimerFired (next_id w1)) es ->
            ((now w3 < now w1 + 2500)%N ->
             step (TimerFired (next_id w1)) w3 = None)
            /\ ((now w1 + 2500 <= now w3)%N ->
                exists w4,
                  step (TimerFired (next_id w1)) w3 = Some w4
                  /\ disabled (btn w4) = false
                  /\ content (btn w4)
                     = Html (or_else (originalHTML (btn w3)) DEFAULT_HTML)
                  /\ ~ In (js "jt-error") (classList (btn w4))
                  /\ requests w4 = requests w3
                  /\ errors w4 = errors w3).
Proof.
  split.
  - intros w w1. unfold step.
    destruct (lookup i (pending w)) as [[| | |]|]; try discriminate.
    intros [= <-]. simpl. now rewrite Nat.eqb_refl.
  - intros w1 w2 body. unfold step.
    destruct (lookup i (pending w1)) as [[| | |]|]; try discriminate.
    intros [= <-].
    assert (He : js "error" <> js "success") by (vm_compute; discriminate).
    unfold trackJob_decoded.
    rewrite showFeedback_transient by exact He.
    assert (T : lookup (next_id w1)
                  (pending
                     (log_error (ApiError (json_or_empty body))
                        (spawn (RevertTimer (now (resume i w1) + REVERT_DELAY)
                                  (js "error"))
                           (with_btn
                              {| content := PlainText FAILED;
                                 classList :=
                                   class_add (classList (btn (resume i w1)))
                                     (js "jt-" ++ js "error");
                                 disabled := false;
                                 originalHTML := originalHTML (btn (resume i w1));
                                 originalText := originalText (btn (resume i w1));
                                 tracked := tracked (btn (resume i w1)) |}
                              (resume i w1)))))
                = Some (RevertTimer (now w1 + 2500) (js "error"))).
    { simpl. now rewrite Nat.eqb_refl. }
    split; [reflexivity|]. split; [simpl; apply class_add_in|].
    split; [reflexivity|]. split; [reflexivity|]. split; [exact T|]. split.
    + eexists. eexists. split; [reflexivity|]. simpl.
      rewrite Nat.eqb_refl. unfold REVERT_DELAY. rewrite N.leb_refl.
      split; reflexivity.
    + intros es w3 R Hn.
      destruct (run_keeps_timer es _ w3 (next_id w1) (now w1 + 2500)
                  (js "error") R Hn) as [K _].
      { split; [exact T | simpl; lia]. }
      exact (timer_fires w3 (next_id w1) (now w1 + 2500) (js "error") K).
Qed.

Lemma rejected_submission_reports_and_reenables_witness :
  content (btn (world_after Samples.server_error)) = PlainText FAILED
  /\ errors (world_after Samples.server_error) = [ApiError Samples.db_down]
  /\ disabled (btn (world_after Samples2.retry_in_flight)) = true
  /\ disabled (btn (world_after Samples2.retry_reenabled)) = false.
Proof.
  destruct (proj2 (rejected_submission_reports_and_reenables 0)
              (world_after (Samples.in_flight
                            ++ [FetchSettled 0 (Responded false)]))
              (world_after Samples.server_error)
              (Some Samples.db_down))
    as (H1 & _ & H3 & _ & _ & _ & H7).
  - vm_compute. reflexivity.
  - destruct (H7 [ Click;
                   StorageReply 2 (Some Samples.backend) Samples.job_page
                     Samples.job_address;
                   Elapse 2500 ]
                (world_after Samples2.retry_in_flight)) as [_ H8].
    + vm_compute. reflexivity.
    + intros [H|[H|[H|[]]]]; discriminate H.
    + destruct H8 as (w4 & S4 & D4 & _).
      * vm_compute. discriminate.
      * split; [exact H1|]. split; [exact H3|].
        split; [vm_compute; reflexivity|].
        assert (E : Some (world_after Samples2.retry_reenabled) = Some w4)
          by (rewrite <- S4; vm_compute; reflexivity).
        injection E as ->. exact D4.
Defined.

(** An OK response puts the control into its success state: the label
    is shown, the button is disabled and marked tracked, and no timer is
    set. *)
Lemma accepted_submission_disables (w w' : world) (i : nat) :
  step (FetchSettled i (Responded true)) w = Some w' ->
  content (btn w') = PlainText TRACKED
  /\ disabled (btn w') = true
  /\ tracked (btn w') = Some (js "true")
  /\ pending w' = remove i (pending w).
Proof.
  unfold step.
  destruct (lookup i (pending w)) as [[| | |]|]; try discriminate.
  intros [= <-]. repeat split.
Qed.

(** With the button disabled and nothing pending, only time passes: the
    control stays as it is. *)
Lemma disabled_and_idle_is_final (w w' : world) (e : event) :
  disabled (btn w) = true -> pending w = [] ->
  step e w = Some w' ->
  btn w' = btn w /\ pending w' = [] /\ requests w' = requests w.
Proof.
  intros Hd Hp. destruct e; unfold step; rewrite ?Hd, ?Hp; simpl;
    try discriminate.
  intros [= <-]. simpl. auto.
Qed.

(** C8, where the script falls short.  After the sample run the backend
    has accepted the submission and the control is in its success state,
    disabled, with no timer set by the success; the timer that the
    warning of the earlier click left behind is still pending.  When it
    fires, the button is enabled again and shows the idle label. *)
Theorem success_undone_by_earlier_timer :
  exists w_ok w_end,
    run Samples.warned_then_tracked initial = Some w_ok
    /\ content (btn w_ok) = PlainText TRACKED
    /\ disabled (btn w_ok) = true
    /\ tracked (btn w_ok) = Some (js "true")
    /\ pending w_ok = [(1, RevertTimer 2500 (js "warning"))]
    /\ run Samples.stale_timer_fires w_ok = Some w_end
    /\ disabled (btn w_end) = false
    /\ content (btn w_end) = content createButton
    /\ tracked (btn w_end) = Some (js "true").
Proof.
  eexists. eexists.
  split; [vm_compute; reflexivity|].
  repeat split; vm_compute; reflexivity.
Qed.

End SubmitterFacts.

(* ================================================================== *)
(** * Properties of the DOM under a scan *)
(* ================================================================== *)

Section GrowthFacts.
Import Dom Injector.

Lemma node_induction (P : node -> Prop) :
  (forall s, P (Text s)) ->
  (forall i p cs, Forall P cs -> P (Element i p cs)) ->
  forall n, P n.
Proof.
  intros Ht He. fix IH 1. intros [s|i p cs].
  - apply Ht.
  - apply He. induction cs as [|c cs IHcs]; constructor.
    + apply IH.
    + exact IHcs.
Qed.

(** ** Attributes *)

Lemma getAttr_setAttr_same (l : list (jsstring * jsstring)) (name v : jsstring) :
  getAttr (setAttr l name v) name = Some v.
Proof.
  induction l as [|[k w] l IH]; simpl.
  - now rewrite jseqb_refl.
  - destruct (JS.eqb k name) eqn:E; simpl; rewrite E; [reflexivity | exact IH].
Qed.

Lemma getAttr_setAttr_other (l : list (jsstring * jsstring))
  (name v name' : jsstring) :
  name' <> name -> getAttr (setAttr l name v) name' = getAttr l name'.
Proof.
  intros Hne. induction l as [|[k w] l IH]; simpl.
  - destruct (JS.eqb name name') eqn:E; [|reflexivity].
    apply jseqb_eq in E. congruence.
  - destruct (JS.eqb k name) eqn:E; simpl.
    + apply jseqb_eq in E. subst k.
      destruct (JS.eqb name name') eqn:E'; [|reflexivity].
      apply jseqb_eq in E'. congruence.
    + destruct (JS.eqb k name'); [reflexivity | exact IH].
Qed.

Lemma props_sim_refl (p : props) : props_sim p p.
Proof. repeat split; auto. Qed.

Lemma props_sim_trans (p q r : props) :
  props_sim p q -> props_sim q r -> props_sim p r.
Proof.
  intros (A1 & A2 & A3 & A4 & A5 & A6) (B1 & B2 & B3 & B4 & B5 & B6).
  repeat split; try congruence.
  - intros name Hn. rewrite B5, A5; auto.
  - auto.
Qed.

Lemma processed_marked (p : props) :
  processed (setAttribute p PROCESSED_ATTR (js "true")) = true.
Proof.
  unfold processed, getAttribute, setAttribute; cbn [attributes].
  now rewrite getAttr_setAttr_same.
Qed.

Lemma props_sim_mark (p : props) :
  props_sim p (setAttribute p PROCESSED_ATTR (js "true")).
Proof.
  repeat split.
  - intros name Hn. unfold getAttribute, setAttribute; cbn [attributes].
    now apply getAttr_setAttr_other.
  - intros _. apply processed_marked.
Qed.

Lemma ctx_sim_refl (anc : ctx) : ctx_sim anc anc.
Proof.
  induction anc; constructor; auto. split; [reflexivity | apply props_sim_refl].
Qed.

(** ** Selectors that do not ask for the marker see no difference *)

Lemma forallb_pointwise {A : Type} (f g : A -> bool) (l : list A) :
  (forall x, In x l -> f x = g x) -> forallb f l = forallb g l.
Proof.
  induction l as [|a l IH]; intros H; [reflexivity|]. simpl.
  rewrite (H a) by now left. f_equal. apply IH. intros x Hx. apply H. now right.
Qed.

Lemma hasClass_sim (p p' : props) (c : jsstring) :
  props_sim p p' -> hasClass p' c = hasClass p c.
Proof.
  intros (_ & _ & _ & _ & H & _). unfold hasClass, classList.
  rewrite H; [reflexivity|]. vm_compute. discriminate.
Qed.

Lemma isVisible_sim (p p' : props) :
  props_sim p p' -> isVisible p' = isVisible p.
Proof.
  intros (_ & H1 & H2 & H3 & _). unfold isVisible. now rewrite H1, H2, H3.
Qed.

Lemma test_attr_sim (p p' : props) (t : attr_test) :
  props_sim p p' -> clean_test t = true -> test_attr p' t = test_attr p t.
Proof.
  intros (_ & _ & _ & _ & H & _) Hc.
  destruct t as [name|name value]; simpl in *;
    apply negb_true_iff, jseqb_neq in Hc; now rewrite (H name Hc).
Qed.

Lemma matches_compound_sim (p p' : props) (c : compound) :
  props_sim p p' -> clean_compound c = true ->
  matches_compound p' c = matches_compound p c.
Proof.
  intros Hs Hc. unfold matches_compound.
  assert (Hid : getAttribute p' (js "id") = getAttribute p (js "id")).
  { destruct Hs as (_ & _ & _ & _ & H & _). apply H. vm_compute. discriminate. }
  assert (Ht : tagName p' = tagName p) by apply Hs.
  rewrite Hid, Ht. f_equal; [f_equal|].
  - apply forallb_pointwise. intros x _. now apply hasClass_sim.
  - unfold clean_compound in Hc. rewrite forallb_forall in Hc.
    apply forallb_pointwise. intros t Ht'. apply test_attr_sim; auto.
Qed.

Lemma matches_ancestors_sim (rest : list compound) (anc anc' : ctx) :
  ctx_sim anc anc' -> forallb clean_compound rest = true ->
  matches_ancestors rest anc' = matches_ancestors rest anc.
Proof.
  revert anc anc'. induction rest as [|c r IH]; intros anc anc' Hs Hc.
  - reflexivity.
  - simpl in Hc. apply andb_true_iff in Hc as [Hc Hr].
    induction Hs as [|[j a] [j' a'] anc anc' [_ Ha] Hs IHs].
    + reflexivity.
    + simpl in *. rewrite IHs.
      rewrite (matches_compound_sim a a' c Ha Hc).
      now rewrite (IH anc anc' Hs Hr).
Qed.

Lemma matches_sim (sel : selector) (anc anc' : ctx) (p p' : props) :
  clean sel = true -> ctx_sim anc anc' -> props_sim p p' ->
  matches sel anc' p' = matches sel anc p.
Proof.
  intros Hc Ha Hp. unfold matches, clean in *.
  induction sel as [|x sel IH]; [reflexivity|].
  simpl in *. apply andb_true_iff in Hc as [Hx Hc].
  rewrite (IH Hc). f_equal.
  destruct x as [|c rest]; [reflexivity|]. simpl in *.
  apply andb_true_iff in Hx as [Hx1 Hx2].
  rewrite (matches_compound_sim p p' c Hp Hx1).
  now rewrite (matches_ancestors_sim rest anc anc' Ha Hx2).
Qed.

Lemma closest_sim (sel : selector) (anc anc' : ctx) :
  clean sel = true -> ctx_sim anc anc' ->
  forall i p p', props_sim p p' ->
  closest sel i p' anc' = closest sel i p anc.
Proof.
  intros Hc Hs. induction Hs as [|[j a] [j' a'] anc anc' [Hj Ha] Hs IH];
    intros i p p' Hp.
  - simpl. now rewrite (matches_sim sel [] [] p p' Hc (Forall2_nil _) Hp).
  - simpl in Hj. subst j'. simpl.
    rewrite (matches_sim sel ((j, a) :: anc) ((j, a') :: anc') p p' Hc); auto.
    + now rewrite (IH j a a' Ha).
    + constructor; auto.
Qed.

Lemma findInjectionContainer_sim (i : nat) (p p' : props) (anc anc' : ctx) :
  ctx_sim anc anc' -> props_sim p p' ->
  findInjectionContainer i p' anc' = findInjectionContainer i p anc.
Proof.
  intros Ha Hp. unfold findInjectionContainer.
  assert (E : forall sels, forallb clean sels = true ->
            first_closest sels i p' anc' = first_closest sels i p anc).
  { induction sels as [|s sels IH]; intros Hc; [reflexivity|].
    simpl in *. apply andb_true_iff in Hc as [Hs Hc].
    rewrite (closest_sim s anc anc' Hs Ha i p p' Hp). now rewrite IH. }
  rewrite E by reflexivity.
  destruct (first_closest CONTAINER_SELECTORS i p anc); [reflexivity|].
  destruct Ha as [|[j a] [j' a'] ? ? [Hj _] _]; simpl in *; congruence.
Qed.

(** ** Text *)

Lemma trimStart_keeps (c : N) (s : jsstring) :
  JS.isWhiteSpace c = false -> In c s -> In c (JS.trimStart s).
Proof.
  intros Hc. induction s as [|x s IH]; simpl; [auto|].
  intros [->|H].
  - rewrite Hc. now left.
  - destruct (JS.isWhiteSpace x); [auto | now right].
Qed.

Lemma trim_keeps (c : N) (s : jsstring) :
  JS.isWhiteSpace c = false -> In c s -> In c (JS.trim s).
Proof.
  intros Hc H. unfold JS.trim, JS.trimEnd.
  apply in_rev in H. rewrite <- in_rev.
  apply trimStart_keeps; [exact Hc|]. rewrite <- in_rev.
  apply trimStart_keeps; [exact Hc|]. now rewrite in_rev.
Qed.

(** A text with a plus sign is not the text of an apply button. *)
Lemma apply_text_plus (n : node) :
  In 43%N (textContent n) -> apply_text n = false.
Proof.
  intros H. unfold apply_text.
  assert (G : In 43%N (JS.toLowerCase (JS.trim (textContent n)))).
  { unfold JS.toLowerCase. change 43%N with (JS.lower_unit 43).
    apply in_map. now apply trim_keeps. }
  apply orb_false_iff. split; apply jseqb_neq; intros E; rewrite E in G;
    vm_compute in G; intuition discriminate.
Qed.

Lemma apply_text_same (n n' : node) :
  textContent n' = textContent n -> apply_text n' = apply_text n.
Proof. intros E. unfold apply_text. now rewrite E. Qed.

Lemma fresh_control_plus (b : nat) (t : node) :
  fresh_control b t -> In 43%N (textContent t).
Proof. intros (i & s & box & _ & ->). simpl. now left. Qed.

Lemma grow_text_or_plus (b : nat) :
  (forall n n', grow b n n' ->
     textContent n' = textContent n \/ In 43%N (textContent n'))
  /\ (forall cs cs', grow_list b cs cs' ->
        flat_map textContent cs' = flat_map textContent cs
        \/ In 43%N (flat_map textContent cs')).
Proof.
  apply grow_both.
  - intros s. now left.
  - intros i p p' cs cs' _ _ IH. exact IH.
  - now left.
  - intros n n' l l' _ [E1|P1] _ [E2|P2]; simpl.
    + left. now rewrite E1, E2.
    + right. apply in_or_app. now right.
    + right. apply in_or_app. now left.
    + right. apply in_or_app. now left.
  - intros t l l' Hf _ _. right. simpl. apply in_or_app. left.
    now apply fresh_control_plus with b.
Qed.

(** ** Affordances stay what they are, controls are none *)

Lemma existsb_pointwise {A : Type} (f g : A -> bool) (l : list A) :
  (forall x, In x l -> f x = g x) -> existsb f l = existsb g l.
Proof.
  induction l as [|a l IH]; intros H; [reflexivity|]. simpl.
  rewrite (H a) by now left. f_equal. apply IH. intros x Hx. apply H. now right.
Qed.

Lemma clean_apply_selectors :
  forall sel, In sel APPLY_BTN_SELECTORS -> clean sel = true.
Proof.
  intros sel H. simpl in H.
  repeat (destruct H as [<-|H]; [reflexivity|]). contradiction.
Qed.

Lemma qualifies_sim (b : nat) (e e' : ctx * node) :
  entry_sim b e e' -> qualifies e' = true -> qualifies e = true.
Proof.
  destruct e as [anc n], e' as [anc' n']. intros (Ha & Hg & _). simpl in *.
  destruct (proj1 (grow_text_or_plus b) n n' Hg) as [Et|Pt];
    inversion Hg as [s|i p p' cs cs' Hp Hcs]; subst; try discriminate.
  - unfold qualifies; cbn [fst snd].
    rewrite (isVisible_sim p p' Hp), (hasClass_sim p p' _ Hp).
    rewrite (matches_sim [[tag "button"]] anc anc' p p' eq_refl Ha Hp).
    rewrite (apply_text_same (Element i p cs) (Element i p' cs') Et).
    rewrite (existsb_pointwise
               (fun sel => matches sel anc' p') (fun sel => matches sel anc p)).
    + auto.
    + intros sel Hsel. apply matches_sim; auto. now apply clean_apply_selectors.
  - unfold qualifies; cbn [fst snd].
    rewrite (apply_text_plus (Element i p' cs') Pt), andb_false_r, orb_false_r.
    rewrite (isVisible_sim p p' Hp).
    rewrite (existsb_pointwise
               (fun sel => matches sel anc' p') (fun sel => matches sel anc p)).
    + intros H. apply andb_true_iff in H as [H1 H2]. rewrite H1, H2. reflexivity.
    + intros sel Hsel. apply matches_sim; auto. now apply clean_apply_selectors.
Qed.

Lemma fresh_control_entries (b : nat) (t : node) (anc : ctx) :
  fresh_control b t -> Forall (new_entry b) (listing anc t).
Proof.
  intros (i & s & box & Hi & ->). simpl.
  constructor; [|constructor; [|constructor]].
  - split; [exists i; split; [reflexivity | exact Hi]|].
    unfold qualifies; cbn [fst snd]. apply andb_false_iff. right. reflexivity.
  - split; [exists (S i); split; [reflexivity | lia]|].
    unfold qualifies; cbn [fst snd]. apply andb_false_iff. right. reflexivity.
Qed.

(** ** Listings *)

Lemma entries_grow_app (b : nat) (l1 l1' l2 l2' : list (ctx * node)) :
  entries_grow b l1 l1' -> entries_grow b l2 l2' ->
  entries_grow b (l1 ++ l2) (l1' ++ l2').
Proof.
  intros G1 G2. induction G1; simpl; [exact G2| |].
  - apply eg_cons; auto.
  - apply eg_new; auto.
Qed.

Lemma entries_grow_new (b : nat) (l0 l l' : list (ctx * node)) :
  Forall (new_entry b) l0 -> entries_grow b l l' ->
  entries_grow b l (l0 ++ l').
Proof.
  intros G1 G2. induction G1; simpl; [exact G2|]. apply eg_new; auto.
Qed.

Lemma listing_grow (b : nat) :
  (forall n n', grow b n n' ->
     forall anc anc', ctx_sim anc anc' ->
     entries_grow b (listing anc n) (listing anc' n'))
  /\ (forall cs cs', grow_list b cs cs' ->
        forall anc anc', ctx_sim anc anc' ->
        entries_grow b (flat_map (listing anc) cs)
          (flat_map (listing anc') cs')).
Proof.
  apply grow_both.
  - intros s anc anc' _. constructor.
  - intros i p p' cs cs' Hp Hcs IH anc anc' Ha. simpl. apply eg_cons.
    + split; [exact Ha|]. split; [|now exists i].
      now apply grow_element.
    + apply IH. constructor; [split; [reflexivity | exact Hp] | exact Ha].
  - intros anc anc' _. constructor.
  - intros n n' l l' _ IH1 _ IH2 anc anc' Ha. simpl.
    apply entries_grow_app; auto.
  - intros t l l' Hf _ IH anc anc' Ha. simpl.
    apply entries_grow_new; auto. now apply fresh_control_entries.
Qed.

(** ** What [findApplyButtons] returns *)

Lemma existsb_eqb_in (i : nat) (l : list nat) :
  existsb (Nat.eqb i) l = true <-> In i l.
Proof.
  rewrite existsb_exists. split.
  - intros (x & Hx & E). apply Nat.eqb_eq in E. now subst.
  - intros H. exists i. split; [exact H | apply Nat.eqb_refl].
Qed.

Lemma set_add_in (x i : nat) (found : list nat) :
  In x (set_add found i) <-> In x found \/ x = i.
Proof.
  unfold set_add. destruct (existsb (Nat.eqb i) found) eqn:E.
  - apply existsb_eqb_in in E. split; [auto|]. intros [H| ->]; auto.
  - rewrite in_app_iff. simpl. intuition.
Qed.

Lemma set_add_nodup (i : nat) (found : list nat) :
  NoDup found -> NoDup (set_add found i).
Proof.
  intros H. unfold set_add. destruct (existsb (Nat.eqb i) found) eqn:E.
  - exact H.
  - apply NoDup_app; [exact H | repeat constructor; simpl; tauto |].
    intros a Ha [<-|[]].
    apply existsb_eqb_in in Ha. congruence.
Qed.

Lemma fold_left_in {E : Type} (f : list nat -> E -> list nat)
  (cond : E -> nat -> Prop) :
  (forall found e x, In x (f found e) <-> In x found \/ cond e x) ->
  forall l found x,
    In x (fold_left f l found) <->
    In x found \/ exists e, In e l /\ cond e x.
Proof.
  intros Hf. induction l as [|e l IH]; intros found x; simpl.
  - split; [auto|]. intros [H|(e & [] & _)]. exact H.
  - rewrite IH, Hf. split.
    + intros [[H|H]|(e' & He & Hx)].
      * now left.
      * right. exists e. auto.
      * right. exists e'. auto.
    + intros [H|(e' & [<-|He] & Hx)].
      * left. now left.
      * left. now right.
      * right. exists e'. auto.
Qed.

Lemma fold_left_nodup {E : Type} (f : list nat -> E -> list nat) :
  (forall found e, NoDup found -> NoDup (f found e)) ->
  forall l found, NoDup found -> NoDup (fold_left f l found).
Proof.
  intros Hf. induction l as [|e l IH]; intros found H; simpl; auto.
Qed.

Lemma add_visible_in (found : list nat) (e : ctx * node) (x : nat) :
  In x (add_visible found e) <-> In x found \/ shown_as e x.
Proof.
  unfold add_visible, shown_as. destruct (snd e) as [s|i p cs]; [tauto|].
  destruct (isVisible p).
  - rewrite set_add_in. split.
    + intros [H|H]; [now left | right; split; [symmetry; exact H | reflexivity]].
    + intros [H|[H _]]; [now left | right; symmetry; exact H].
  - split; [auto|]. intros [H|[_ H]]; [exact H | discriminate].
Qed.

Lemma add_visible_nodup (found : list nat) (e : ctx * node) :
  NoDup found -> NoDup (add_visible found e).
Proof.
  intros H. unfold add_visible. destruct (snd e) as [s|i p cs]; [exact H|].
  destruct (isVisible p); [now apply set_add_nodup | exact H].
Qed.

Lemma add_by_text_in (found : list nat) (e : ctx * node) (x : nat) :
  In x (add_by_text found e) <-> In x found \/ reads_apply e x.
Proof.
  unfold add_by_text, reads_apply. destruct (snd e) as [s|i p cs] eqn:En;
    [tauto|].
  destruct (existsb (Nat.eqb i) found) eqn:Ef.
  { apply existsb_eqb_in in Ef. split; [auto|].
    intros [H|[H _]]; [exact H | now subst]. }
  destruct (hasClass p (js "artdeco-button")); cbn [negb].
  2:{ split; [auto|]. intros [H|(_ & H & _)]; [exact H | discriminate]. }
  destruct (apply_text (Element i p cs)); cbn [andb].
  2:{ split; [auto|]. intros [H|(_ & _ & H & _)]; [exact H | discriminate]. }
  destruct (isVisible p).
  - rewrite set_add_in. split.
    + intros [H|H]; [now left | right; repeat split; symmetry; exact H].
    + intros [H|[H _]]; [now left | right; symmetry; exact H].
  - split; [auto|]. intros [H|(_ & _ & _ & H)]; [exact H | discriminate].
Qed.

Lemma add_by_text_nodup (found : list nat) (e : ctx * node) :
  NoDup found -> NoDup (add_by_text found e).
Proof.
  intros H. unfold add_by_text. destruct (snd e) as [s|i p cs]; [exact H|].
  destruct (existsb (Nat.eqb i) found); [exact H|].
  destruct (negb (hasClass p (js "artdeco-button"))); [exact H|].
  destruct (apply_text (Element i p cs) && isVisible p);
    [now apply set_add_nodup | exact H].
Qed.

Lemma by_selectors_in (d : node) (x : nat) (found : list nat) :
  In x (by_selectors d found) <->
  In x found
  \/ exists sel, In sel APPLY_BTN_SELECTORS
       /\ exists e, In e (querySelectorAll d sel) /\ shown_as e x.
Proof.
  unfold by_selectors.
  apply (fold_left_in
           (fun found sel => fold_left add_visible (querySelectorAll d sel) found)
           (fun sel x => exists e, In e (querySelectorAll d sel) /\ shown_as e x)).
  intros found' sel y. apply (fold_left_in add_visible shown_as).
  apply add_visible_in.
Qed.

Lemma findApplyButtons_nodup (d : node) : NoDup (findApplyButtons d).
Proof.
  unfold findApplyButtons, by_text, by_selectors.
  apply (fold_left_nodup add_by_text add_by_text_nodup).
  apply fold_left_nodup; [|constructor].
  intros found sel H.
  now apply (fold_left_nodup add_visible add_visible_nodup).
Qed.

(** An identity is found exactly when some element with it qualifies. *)
Lemma findApplyButtons_in (d : node) (x : nat) :
  In x (findApplyButtons d) <->
  exists e, In e (listing [] d) /\ is_node x (snd e) = true
            /\ qualifies e = true.
Proof.
  unfold findApplyButtons, by_text.
  rewrite (fold_left_in add_by_text reads_apply add_by_text_in).
  rewrite by_selectors_in. split.
  - intros [[[]|(sel & Hsel & e & He & Hx)]|(e & He & Hx)].
    + unfold querySelectorAll in He. apply filter_In in He as [He Hm].
      unfold shown_as in Hx. unfold node_matches in Hm.
      destruct e as [anc [s|i p cs]]; cbn [fst snd] in *; [contradiction|].
      destruct Hx as [-> Hv]. exists (anc, Element x p cs).
      split; [exact He|]. split; [apply Nat.eqb_refl|].
      unfold qualifies; cbn [fst snd]. rewrite Hv. cbn [andb].
      apply orb_true_iff. left. apply existsb_exists. exists sel.
      split; [exact Hsel | exact Hm].
    + unfold querySelectorAll in He. apply filter_In in He as [He Hm].
      unfold reads_apply in Hx. unfold node_matches in Hm.
      destruct e as [anc [s|i p cs]]; cbn [fst snd] in *; [contradiction|].
      destruct Hx as (-> & Hc & Ht & Hv). exists (anc, Element x p cs).
      split; [exact He|]. split; [apply Nat.eqb_refl|].
      unfold qualifies; cbn [fst snd]. rewrite Hv, Hm, Hc, Ht.
      cbn [andb]. apply orb_true_r.
  - intros ([anc [s|i p cs]] & He & Hi & Hq); cbn [snd] in *; [discriminate|].
    apply Nat.eqb_eq in Hi. subst i.
    unfold qualifies in Hq; cbn [fst snd] in Hq.
    apply andb_true_iff in Hq as [Hv Hq].
    apply orb_true_iff in Hq as [Hq|Hq].
    + left. right. apply existsb_exists in Hq as (sel & Hsel & Hm).
      exists sel. split; [exact Hsel|]. exists (anc, Element x p cs).
      split; [|split; [reflexivity | exact Hv]].
      unfold querySelectorAll. apply filter_In. split; [exact He | exact Hm].
    + right. apply andb_true_iff in Hq as [Hq Ht].
      apply andb_true_iff in Hq as [Hm Hc].
      exists (anc, Element x p cs).
      split; [|repeat split; assumption].
      unfold querySelectorAll. apply filter_In. split; [exact He | exact Hm].
Qed.

(** ** Looking elements up after the tree has grown *)

Lemma grow_is_node (b x : nat) (n n' : node) :
  grow b n n' -> is_node x n' = is_node x n.
Proof. now intros [s|i p p' cs cs' _ _]. Qed.

Lemma new_entry_is_node (b x : nat) (e : ctx * node) :
  new_entry b e -> x <= b -> is_node x (snd e) = false.
Proof.
  intros [(i & Hi & Hb) _] Hx. destruct (snd e) as [s|j p cs]; [reflexivity|].
  simpl in *. injection Hi as ->. apply Nat.eqb_neq. lia.
Qed.

Lemma find_entries_grow (b x : nat) (l l' : list (ctx * node)) :
  entries_grow b l l' -> x <= b ->
  match find (fun e => is_node x (snd e)) l with
  | Some e =>
      exists e', find (fun e => is_node x (snd e)) l' = Some e'
                 /\ entry_sim b e e'
  | None => find (fun e => is_node x (snd e)) l' = None
  end.
Proof.
  intros G Hx. induction G as [|e e' l l' Hs G IH|e' l l' Hn G IH]; simpl.
  - reflexivity.
  - rewrite (grow_is_node b x (snd e) (snd e')) by apply Hs.
    destruct (is_node x (snd e)); [|exact IH]. exists e'. auto.
  - now rewrite (new_entry_is_node b x e' Hn Hx).
Qed.

Lemma locate_grow (b x : nat) (d d' : node) :
  grow b d d' -> x <= b ->
  match locate d x with
  | Some e => exists e', locate d' x = Some e' /\ entry_sim b e e'
  | None => locate d' x = None
  end.
Proof.
  intros G Hx. unfold locate. apply find_entries_grow; [|exact Hx].
  apply (proj1 (listing_grow b)); [exact G | constructor].
Qed.

Lemma entries_grow_in (b : nat) (l l' : list (ctx * node)) (e : ctx * node) :
  entries_grow b l l' -> In e l ->
  exists e', In e' l' /\ entry_sim b e e'.
Proof.
  intros G. induction G as [|e0 e0' l l' Hs G IH|e0' l l' Hn G IH];
    intros H; simpl in *.
  - contradiction.
  - destruct H as [<-|H]; [exists e0'; auto|].
    destruct (IH H) as (e' & He' & Hs'). exists e'. auto.
  - destruct (IH H) as (e' & He' & Hs'). exists e'. auto.
Qed.

Lemma entries_grow_in_rev (b : nat) (l l' : list (ctx * node))
  (e' : ctx * node) :
  entries_grow b l l' -> In e' l' ->
  (exists e, In e l /\ entry_sim b e e') \/ new_entry b e'.
Proof.
  intros G. induction G as [|e0 e0' l l' Hs G IH|e0' l l' Hn G IH];
    intros H; simpl in *.
  - contradiction.
  - destruct H as [<-|H]; [left; exists e0; auto|].
    destruct (IH H) as [(e & He & Hs')|Hn]; [left; exists e; auto | now right].
  - destruct H as [<-|H]; [now right|].
    destruct (IH H) as [(e & He & Hs')|Hn']; [left; exists e; auto | now right].
Qed.

Lemma node_matches_sim (b : nat) (sel : selector) (e e' : ctx * node) :
  clean sel = true -> entry_sim b e e' ->
  node_matches sel e' = node_matches sel e.
Proof.
  intros Hc (Ha & Hg & _). unfold node_matches.
  inversion Hg as [s|i p p' cs cs' Hp Hcs]; [reflexivity|].
  now apply matches_sim.
Qed.

(** ** Identities *)

Lemma max_nid_self (i : nat) (p : props) (cs : list node) :
  i <= max_nid (Element i p cs).
Proof.
  simpl. induction cs as [|c cs IH]; simpl; lia.
Qed.

Lemma max_nid_child (i : nat) (p : props) (cs : list node) (c : node) :
  In c cs -> max_nid c <= max_nid (Element i p cs).
Proof.
  simpl. induction cs as [|c0 cs IH]; simpl; [contradiction|].
  intros [->|H]; [lia|]. specialize (IH H). lia.
Qed.

Lemma listing_nid_bound (n : node) :
  forall anc e, In e (listing anc n) ->
  forall i, nid_of (snd e) = Some i -> i <= max_nid n.
Proof.
  induction n as [s|i p cs IH] using node_induction; intros anc e He j Hj.
  - contradiction.
  - cbn [listing] in He. destruct He as [<-|He].
    + simpl in Hj. injection Hj as <-. apply max_nid_self.
    + apply in_flat_map in He as (c & Hc & He).
      rewrite Forall_forall in IH.
      specialize (IH c Hc _ _ He j Hj).
      pose proof (max_nid_child i p cs c Hc). lia.
Qed.

Lemma locate_bound (d : node) (x : nat) (e : ctx * node) :
  locate d x = Some e -> x <= max_nid d.
Proof.
  unfold locate. intros H. apply find_some in H as [He Hx].
  destruct e as [anc [s|i p cs]]; simpl in Hx; [discriminate|].
  apply Nat.eqb_eq in Hx. subst i.
  now apply (listing_nid_bound d [] (anc, Element x p cs) He).
Qed.

Lemma grow_max_nid (b : nat) :
  (forall n n', grow b n n' -> max_nid n <= max_nid n')
  /\ (forall cs cs', grow_list b cs cs' ->
        forall i, fold_right (fun c m => Nat.max (max_nid c) m) i cs
                  <= fold_right (fun c m => Nat.max (max_nid c) m) i cs').
Proof.
  apply grow_both.
  - intros s. apply Nat.le_refl.
  - intros i p p' cs cs' _ _ IH. simpl. apply IH.
  - intros i. apply Nat.le_refl.
  - intros n n' l l' _ IH1 _ IH2 i. simpl. specialize (IH2 i). lia.
  - intros t l l' _ _ IH i. simpl. specialize (IH i). lia.
Qed.

(** ** What carries over *)

Lemma processed_at_grow (b x : nat) (d d' : node) :
  grow b d d' -> x <= b ->
  processed_at d x = true -> processed_at d' x = true.
Proof.
  intros G Hx. unfold processed_at.
  pose proof (locate_grow b x d d' G Hx) as L.
  destruct (locate d x) as [[anc n]|]; [|discriminate].
  destruct L as ([anc' n'] & -> & _ & Hg & _). simpl in Hg.
  inversion Hg as [s|i p p' cs cs' Hp Hcs]; subst; [discriminate|].
  apply Hp.
Qed.

Lemma container_at_grow (b x : nat) (d d' : node) :
  grow b d d' -> x <= b -> container_at d' x = container_at d x.
Proof.
  intros G Hx. unfold container_at.
  pose proof (locate_grow b x d d' G Hx) as L.
  destruct (locate d x) as [[anc n]|]; [|now rewrite L].
  destruct L as ([anc' n'] & -> & Ha & Hg & _). simpl in Ha, Hg.
  inversion Hg as [s|i p p' cs cs' Hp Hcs]; subst; [reflexivity|].
  now apply findInjectionContainer_sim.
Qed.

Lemma has_control_true (d : node) (c : nat) :
  has_control d c = true <->
  exists anc n e, locate d c = Some (anc, n)
    /\ In e (descendants anc n)
    /\ node_matches TRACK_BTN_SELECTOR e = true.
Proof.
  unfold has_control, querySelectorIn. split.
  - destruct (locate d c) as [[anc n]|]; [|discriminate].
    destruct (filter (node_matches TRACK_BTN_SELECTOR) (descendants anc n))
      as [|e l] eqn:E; [discriminate|]. intros _.
    assert (H : In e (filter (node_matches TRACK_BTN_SELECTOR)
                        (descendants anc n))) by (rewrite E; now left).
    apply filter_In in H as [H1 H2]. exists anc, n, e. auto.
  - intros (anc & n & e & -> & He & Hm).
    destruct (filter (node_matches TRACK_BTN_SELECTOR) (descendants anc n))
      as [|e0 l] eqn:E; [|reflexivity].
    assert (H : In e (filter (node_matches TRACK_BTN_SELECTOR)
                        (descendants anc n)))
      by (apply filter_In; auto).
    rewrite E in H. contradiction.
Qed.

Lemma descendants_grow (b : nat) (e e' : ctx * node) :
  entry_sim b e e' ->
  entries_grow b (descendants (fst e) (snd e)) (descendants (fst e') (snd e')).
Proof.
  destruct e as [anc n], e' as [anc' n']. intros (Ha & Hg & _). simpl in *.
  inversion Hg as [s|i p p' cs cs' Hp Hcs]; subst; simpl; [constructor|].
  apply (proj2 (listing_grow b)); [exact Hcs|].
  constructor; [split; [reflexivity | exact Hp] | exact Ha].
Qed.

Lemma has_control_grow (b c : nat) (d d' : node) :
  grow b d d' -> c <= b ->
  has_control d c = true -> has_control d' c = true.
Proof.
  intros G Hc H. apply has_control_true in H as (anc & n & e & Hl & He & Hm).
  pose proof (locate_grow b c d d' G Hc) as L. rewrite Hl in L.
  destruct L as ([anc' n'] & Hl' & Hs).
  destruct (entries_grow_in b _ _ e (descendants_grow b _ _ Hs) He)
    as (e' & He' & Hs').
  apply has_control_true. exists anc', n', e'. repeat split; auto.
  now rewrite (node_matches_sim b TRACK_BTN_SELECTOR e e' eq_refl Hs').
Qed.

Lemma found_grow (b x : nat) (d d' : node) :
  grow b d d' ->
  In x (findApplyButtons d') -> In x (findApplyButtons d).
Proof.
  intros G H. apply findApplyButtons_in in H as (e' & He' & Hx & Hq).
  apply findApplyButtons_in.
  assert (L : entries_grow b (listing [] d) (listing [] d'))
    by (apply (proj1 (listing_grow b)); [exact G | constructor]).
  destruct (entries_grow_in_rev b _ _ e' L He') as [(e & He & Hs)|[_ Hn]].
  - exists e. split; [exact He|]. split.
    + rewrite <- Hx. symmetry. apply (grow_is_node b). apply Hs.
    + now apply (qualifies_sim b e e').
  - congruence.
Qed.

Lemma grow_evolves (b : nat) (d d' : node) : grow b d d' -> evolves b d d'.
Proof.
  intros G. constructor.
  - intros x. now apply found_grow with b.
  - intros x. now apply processed_at_grow.
  - intros x. now apply container_at_grow.
  - intros c. now apply has_control_grow.
  - now apply (proj1 (grow_max_nid b)).
Qed.

Lemma evolves_refl (b : nat) (d : node) : evolves b d d.
Proof. constructor; auto. Qed.

Lemma evolves_trans (b : nat) (d1 d2 d3 : node) :
  evolves b d1 d2 -> evolves b d2 d3 -> evolves b d1 d3.
Proof.
  intros [A1 A2 A3 A4 A5] [B1 B2 B3 B4 B5]. constructor.
  - auto.
  - auto.
  - intros x Hx. now rewrite B3, A3.
  - auto.
  - lia.
Qed.

Lemma evolves_weaken (b b' : nat) (d d' : node) :
  b <= b' -> evolves b' d d' -> evolves b d d'.
Proof.
  intros Hb [A1 A2 A3 A4 A5]. constructor; auto.
  - intros x Hx. apply A2. lia.
  - intros x Hx. apply A3. lia.
  - intros c Hc. apply A4. lia.
Qed.

(** ** The writes of a scan are growth *)

Lemma grow_refl (b : nat) (n : node) : grow b n n.
Proof.
  induction n as [s|i p cs IH] using node_induction; constructor.
  - apply props_sim_refl.
  - induction IH; constructor; auto.
Qed.

Lemma grow_list_refl (b : nat) (cs : list node) : grow_list b cs cs.
Proof. induction cs; constructor; auto using grow_refl. Qed.

Lemma grow_list_append (b : nat) (t : node) (cs : list node) :
  fresh_control b t -> grow_list b cs (cs ++ [t]).
Proof.
  intros Hf. induction cs as [|c cs IH]; simpl.
  - apply grow_new; [exact Hf | constructor].
  - apply grow_cons; [apply grow_refl | exact IH].
Qed.

Lemma grow_list_insert_after (b a : nat) (t : node) (cs : list node) :
  fresh_control b t -> grow_list b cs (insert_after a t cs).
Proof.
  intros Hf. induction cs as [|c cs IH]; simpl.
  - apply grow_new; [exact Hf | constructor].
  - destruct (is_node a c).
    + apply grow_cons; [apply grow_refl|].
      apply grow_new; [exact Hf | apply grow_list_refl].
    + apply grow_cons; [apply grow_refl | exact IH].
Qed.

Lemma grow_update (b i : nat) (g : props -> props)
  (h : list node -> list node) :
  (forall p, props_sim p (g p)) -> (forall cs, grow_list b cs (h cs)) ->
  forall n, grow b n (update i g h n).
Proof.
  intros Hg Hh. induction n as [s|j p cs IH] using node_induction; simpl.
  - constructor.
  - destruct (Nat.eqb j i).
    + constructor; auto.
    + constructor; [apply props_sim_refl|].
      induction IH; simpl; constructor; auto.
Qed.

Lemma mark_fresh_control (b a : nat) (t : node) :
  fresh_control b t -> a <= b -> mark a t = t.
Proof.
  intros (i & s & box & Hi & ->) Ha. unfold mark. simpl.
  assert (E1 : Nat.eqb i a = false) by (apply Nat.eqb_neq; lia).
  destruct a as [|a]; [now rewrite E1|].
  assert (E2 : Nat.eqb i a = false) by (apply Nat.eqb_neq; lia).
  now rewrite E1, E2.
Qed.

Lemma grow_then_mark (b a : nat) :
  a <= b ->
  (forall n n', grow b n n' -> grow b n (mark a n'))
  /\ (forall cs cs', grow_list b cs cs' ->
        grow_list b cs (map (mark a) cs')).
Proof.
  intros Ha. apply grow_both.
  - intros s. constructor.
  - intros i p p' cs cs' Hp Hcs IH. unfold mark. simpl.
    destruct (Nat.eqb i a).
    + constructor; [|exact Hcs].
      apply props_sim_trans with p'; [exact Hp | apply props_sim_mark].
    + constructor; [exact Hp | exact IH].
  - constructor.
  - intros n n' l l' _ IH1 _ IH2. simpl. now constructor.
  - intros t l l' Hf _ IH. simpl.
    rewrite (mark_fresh_control b a t Hf Ha). now apply grow_new.
Qed.

Lemma grow_weaken (b b' : nat) :
  b <= b' ->
  (forall n n', grow b' n n' -> grow b n n')
  /\ (forall cs cs', grow_list b' cs cs' -> grow_list b cs cs').
Proof.
  intros Hb. apply grow_both.
  - constructor.
  - intros. now constructor.
  - constructor.
  - intros. now constructor.
  - intros t l l' (i & s & box & Hi & ->) _ IH. apply grow_new; [|exact IH].
    exists i, s, box. split; [lia | reflexivity].
Qed.

(** ** Reading back what was written *)

Lemma find_app {A : Type} (f : A -> bool) (l1 l2 : list A) :
  find f (l1 ++ l2) =
  match find f l1 with Some x => Some x | None => find f l2 end.
Proof.
  induction l1 as [|a l1 IH]; simpl; [reflexivity|].
  now destruct (f a).
Qed.

Lemma find_update (i : nat) (g : props -> props)
  (h : list node -> list node) (n : node) :
  forall anc0,
    match find (fun e => is_node i (snd e)) (listing anc0 n) with
    | Some (anc, Element j p cs) =>
        find (fun e => is_node i (snd e)) (listing anc0 (update i g h n))
        = Some (anc, Element j (g p) (h cs))
    | Some (_, Text _) => False
    | None =>
        find (fun e => is_node i (snd e)) (listing anc0 (update i g h n))
        = None
    end.
Proof.
  induction n as [s|j p cs IH] using node_induction; intros anc0.
  - reflexivity.
  - cbn [listing update find snd is_node].
    destruct (Nat.eqb j i) eqn:E.
    + cbn [listing find snd is_node]. now rewrite E.
    + cbn [listing find snd is_node]. rewrite E.
      induction IH as [|c cs Hc _ IHcs]; [reflexivity|].
      cbn [map flat_map]. rewrite !find_app.
      specialize (Hc ((j, p) :: anc0)).
      destruct (find (fun e => is_node i (snd e)) (listing ((j, p) :: anc0) c))
        as [[anc [s|k q ks]]|].
      * contradiction.
      * now rewrite Hc.
      * rewrite Hc. exact IHcs.
Qed.

Lemma locate_update (i : nat) (g : props -> props)
  (h : list node -> list node) (d : node) (anc : ctx) (j : nat) (p : props)
  (cs : list node) :
  locate d i = Some (anc, Element j p cs) ->
  locate (update i g h d) i = Some (anc, Element j (g p) (h cs)).
Proof.
  unfold locate. intros H. pose proof (find_update i g h d []) as F.
  now rewrite H in F.
Qed.

Lemma locate_element (d : node) (x : nat) (e : ctx * node) :
  locate d x = Some e -> exists p cs, snd e = Element x p cs.
Proof.
  unfold locate. intros H. apply find_some in H as [_ H].
  destruct (snd e) as [s|i p cs]; simpl in H; [discriminate|].
  apply Nat.eqb_eq in H. subst. eauto.
Qed.

Lemma processed_at_mark (d : node) (a : nat) (e : ctx * node) :
  locate d a = Some e -> processed_at (mark a d) a = true.
Proof.
  intros H. destruct (locate_element d a e H) as (p & cs & E).
  destruct e as [anc n]. simpl in E. subst n.
  unfold processed_at, mark.
  rewrite (locate_update a _ _ d anc a p cs H). apply processed_marked.
Qed.

(** ** Containers are elements of the tree *)

Lemma closest_in (sel : selector) (anc : ctx) :
  forall i p c, closest sel i p anc = Some c ->
  c = i \/ In c (map fst anc).
Proof.
  induction anc as [|[j q] anc IH]; intros i p c; simpl.
  - destruct (matches sel [] p); [|discriminate]. intros [= <-]. now left.
  - destruct (matches sel ((j, q) :: anc) p); [intros [= <-]; now left|].
    intros H. apply IH in H as [->|H]; right; auto.
Qed.

Lemma findInjectionContainer_in (i : nat) (p : props) (anc : ctx) (c : nat) :
  findInjectionContainer i p anc = Some c ->
  c = i \/ In c (map fst anc).
Proof.
  unfold findInjectionContainer.
  assert (G : forall sels, first_closest sels i p anc = Some c ->
              c = i \/ In c (map fst anc)).
  { induction sels as [|s sels IH]; simpl; [discriminate|].
    destruct (closest s i p anc) eqn:E; [|exact IH].
    intros [= <-]. now apply closest_in with s p. }
  destruct (first_closest CONTAINER_SELECTORS i p anc) eqn:E.
  - intros [= <-]. now apply G with CONTAINER_SELECTORS.
  - destruct anc as [|[j q] anc]; simpl; [discriminate|].
    intros [= <-]. right. now left.
Qed.

Lemma listing_ctx_located (n : node) :
  forall anc0 e, In e (listing anc0 n) ->
  forall j, In j (map fst (fst e)) ->
  In j (map fst anc0)
  \/ exists e0, In e0 (listing anc0 n) /\ is_node j (snd e0) = true.
Proof.
  induction n as [s|i p cs IH] using node_induction; intros anc0 e He j Hj.
  - contradiction.
  - cbn [listing] in He. destruct He as [<-|He]; [now left|].
    apply in_flat_map in He as (c & Hc & He).
    rewrite Forall_forall in IH.
    destruct (IH c Hc _ e He j Hj) as [[<-|H]|(e0 & He0 & H0)].
    + right. exists (anc0, Element i p cs). split; [now left|].
      apply Nat.eqb_refl.
    + now left.
    + right. exists e0. split; [|exact H0]. cbn [listing]. right.
      apply in_flat_map. exists c. auto.
Qed.

Lemma find_exists {A : Type} (f : A -> bool) (l : list A) (x : A) :
  In x l -> f x = true -> exists y, find f l = Some y.
Proof.
  intros Hx Hf. destruct (find f l) as [y|] eqn:E; [eauto|].
  now rewrite (find_none f l E x Hx) in Hf.
Qed.

Lemma container_located (d : node) (a c : nat) :
  container_at d a = Some c -> exists e, locate d c = Some e.
Proof.
  unfold container_at. destruct (locate d a) as [[anc n]|] eqn:L;
    [|discriminate].
  destruct (locate_element d a _ L) as (p & cs & E). simpl in E. subst n.
  intros H. apply findInjectionContainer_in in H as [->|H]; [eauto|].
  unfold locate in L |- *. pose proof (find_some _ _ L) as [He _].
  destruct (listing_ctx_located d [] _ He c H) as [[]|(e0 & He0 & H0)].
  now apply find_exists with e0.
Qed.

(** ** A container that was given a control holds one *)

Lemma control_matches (anc : ctx) (i : nat) (s : jsstring) (box : N * N * N) :
  node_matches TRACK_BTN_SELECTOR (anc, rendered box (createButton i s)) = true.
Proof.
  unfold node_matches, matches, TRACK_BTN_SELECTOR, attr_prefix. simpl.
  unfold matches_compound. simpl.
  unfold test_attr, getAttribute. simpl. now destruct s.
Qed.

Lemma has_control_after_insert (d : node) (c : nat)
  (h : list node -> list node) (t : node) (b : nat) :
  (exists e, locate d c = Some e) ->
  (forall cs, In t (h cs)) -> fresh_control b t ->
  has_control (update c (fun p => p) h d) c = true.
Proof.
  intros [e L] Hh (i & s & box & _ & ->).
  destruct (locate_element d c e L) as (p & cs & E).
  destruct e as [anc n]. simpl in E. subst n.
  apply has_control_true.
  exists anc, (Element c p (h cs)),
    ((c, p) :: anc, rendered box (createButton i s)).
  split; [exact (locate_update c (fun p => p) h d anc c p cs L)|].
  split; [|apply control_matches].
  cbn [descendants]. apply in_flat_map.
  exists (rendered box (createButton i s)). split; [apply Hh | now left].
Qed.

Lemma insert_after_in (a : nat) (t : node) (cs : list node) :
  In t (insert_after a t cs).
Proof.
  induction cs as [|c cs IH]; simpl; [now left|].
  destruct (is_node a c); simpl; auto.
Qed.

(** ** The children of a container *)

Lemma find_any_ctx (x : nat) (n : node) :
  forall anc anc',
    same_node (find (fun e => is_node x (snd e)) (listing anc n))
              (find (fun e => is_node x (snd e)) (listing anc' n)).
Proof.
  induction n as [s|j p cs IH] using node_induction; intros anc anc'.
  - exact I.
  - cbn [listing find snd is_node]. destruct (Nat.eqb j x); [reflexivity|].
    induction IH as [|c cs Hc _ IHcs]; [exact I|].
    cbn [flat_map]. rewrite !find_app.
    specialize (Hc ((j, p) :: anc) ((j, p) :: anc')). unfold same_node in Hc.
    destruct (find (fun e => is_node x (snd e)) (listing ((j, p) :: anc) c)),
             (find (fun e => is_node x (snd e)) (listing ((j, p) :: anc') c));
      try contradiction; [exact Hc | exact IHcs].
Qed.

Lemma find_any_ctx_list (x : nat) (cs : list node) (anc anc' : ctx) :
  same_node (find (fun e => is_node x (snd e)) (flat_map (listing anc) cs))
            (find (fun e => is_node x (snd e)) (flat_map (listing anc') cs)).
Proof.
  induction cs as [|c cs IH]; [exact I|].
  cbn [flat_map]. rewrite !find_app.
  pose proof (find_any_ctx x c anc anc') as Hc. unfold same_node in Hc.
  destruct (find (fun e => is_node x (snd e)) (listing anc c)),
           (find (fun e => is_node x (snd e)) (listing anc' c));
    try contradiction; [exact Hc | exact IH].
Qed.

Lemma find_fresh_control (b x : nat) (t : node) (anc : ctx) :
  fresh_control b t -> x <= b ->
  find (fun e => is_node x (snd e)) (listing anc t) = None.
Proof.
  intros Hf Hx. pose proof (fresh_control_entries b t anc Hf) as F.
  induction F as [|e l He _ IH]; [reflexivity|]. simpl.
  now rewrite (new_entry_is_node b x e He Hx).
Qed.

Lemma keeps_old_id (b : nat) : keeps_old b (fun cs => cs).
Proof. intros cs anc anc' x _. apply find_any_ctx_list. Qed.

Lemma keeps_old_append (b : nat) (t : node) :
  fresh_control b t -> keeps_old b (fun cs => cs ++ [t]).
Proof.
  intros Hf cs anc anc' x Hx. rewrite flat_map_app, find_app. cbn [flat_map].
  rewrite app_nil_r, (find_fresh_control b x t anc' Hf Hx).
  pose proof (find_any_ctx_list x cs anc anc') as H. unfold same_node in *.
  destruct (find (fun e => is_node x (snd e)) (flat_map (listing anc) cs)),
           (find (fun e => is_node x (snd e)) (flat_map (listing anc') cs));
    auto.
Qed.

Lemma keeps_old_insert_after (b a : nat) (t : node) :
  fresh_control b t -> keeps_old b (insert_after a t).
Proof.
  intros Hf cs anc anc' x Hx. induction cs as [|c cs IH].
  - cbn [insert_after flat_map]. rewrite app_nil_r.
    now rewrite (find_fresh_control b x t anc' Hf Hx).
  - cbn [insert_after]. pose proof (find_any_ctx x c anc anc') as Hc.
    unfold same_node in Hc, IH |- *.
    destruct (is_node a c); cbn [flat_map]; rewrite !find_app.
    + rewrite (find_fresh_control b x t anc' Hf Hx).
      pose proof (find_any_ctx_list x cs anc anc') as Hcs.
      unfold same_node in Hcs.
      destruct (find (fun e => is_node x (snd e)) (listing anc c)),
               (find (fun e => is_node x (snd e)) (listing anc' c));
        try contradiction; [exact Hc | exact Hcs].
    + destruct (find (fun e => is_node x (snd e)) (listing anc c)),
               (find (fun e => is_node x (snd e)) (listing anc' c));
        try contradiction; [exact Hc | exact IH].
Qed.

(** A write to the element [i] leaves any other element of the page what
    it is, up to the write reaching into its children. *)
Lemma find_update_other (b i c : nat) (g : props -> props)
  (h : list node -> list node) :
  c <> i -> c <= b -> keeps_old b h ->
  forall n anc anc',
    match find (fun e => is_node c (snd e)) (listing anc n),
          find (fun e => is_node c (snd e)) (listing anc' (update i g h n))
    with
    | Some e, Some e' =>
        exists p cs, snd e = Element c p cs
          /\ (snd e' = Element c p cs
              \/ snd e' = Element c p (map (update i g h) cs))
    | None, None => True
    | _, _ => False
    end.
Proof.
  intros Hci Hcb Hh.
  induction n as [s|j p cs IH] using node_induction; intros anc anc'.
  - exact I.
  - cbn [update]. destruct (Nat.eqb j i) eqn:Eji.
    + apply Nat.eqb_eq in Eji. subst j.
      cbn [listing find snd is_node].
      assert (E : Nat.eqb i c = false) by (apply Nat.eqb_neq; congruence).
      rewrite E.
      pose proof (Hh cs ((i, p) :: anc) ((i, g p) :: anc') c Hcb) as K.
      unfold same_node in K.
      destruct (find (fun e => is_node c (snd e))
                  (flat_map (listing ((i, p) :: anc)) cs)) as [e|] eqn:F,
               (find (fun e => is_node c (snd e))
                  (flat_map (listing ((i, g p) :: anc')) (h cs))) as [e'|];
        try contradiction; [|exact I].
      apply find_some in F as [_ F].
      destruct (snd e) as [s|k q ks] eqn:Ee; simpl in F; [discriminate|].
      apply Nat.eqb_eq in F. subst k. exists q, ks. rewrite K. auto.
    + cbn [listing find snd is_node].
      destruct (Nat.eqb j c) eqn:Ejc.
      * apply Nat.eqb_eq in Ejc. subst j. exists p, cs. cbn [snd]. auto.
      * induction IH as [|x xs Hx _ IHxs]; [exact I|].
        cbn [map flat_map]. rewrite !find_app.
        specialize (Hx ((j, p) :: anc) ((j, p) :: anc')).
        destruct (find (fun e => is_node c (snd e)) (listing ((j, p) :: anc) x)),
                 (find (fun e => is_node c (snd e))
                    (listing ((j, p) :: anc') (update i g h x)));
          try contradiction; [exact Hx | exact IHxs].
Qed.

Lemma is_control_update (i : nat) (g : props -> props)
  (h : list node -> list node) (n : node) :
  (forall p, props_sim p (g p)) ->
  is_control (update i g h n) = is_control n.
Proof.
  intros Hg. destruct n as [s|j p cs]; [reflexivity|]. cbn [update].
  destruct (Nat.eqb j i); [|reflexivity].
  unfold is_control, node_matches. cbn [fst snd].
  apply matches_sim; [reflexivity | constructor | apply Hg].
Qed.

Lemma control_count_update (i : nat) (g : props -> props)
  (h : list node -> list node) (cs : list node) :
  (forall p, props_sim p (g p)) ->
  List.length (filter is_control (map (update i g h) cs))
  = List.length (filter is_control cs).
Proof.
  intros Hg. induction cs as [|c cs IH]; [reflexivity|]. cbn [map filter].
  rewrite (is_control_update i g h c Hg).
  destruct (is_control c); simpl; now rewrite IH.
Qed.

(** A write elsewhere does not change how many controls a container
    has among its children. *)
Lemma control_children_update_other (b i c : nat) (g : props -> props)
  (h : list node -> list node) (d : node) :
  c <> i -> c <= b -> keeps_old b h -> (forall p, props_sim p (g p)) ->
  control_children (update i g h d) c = control_children d c.
Proof.
  intros Hci Hcb Hh Hg. unfold control_children, children_at, locate.
  pose proof (find_update_other b i c g h Hci Hcb Hh d [] []) as F.
  destruct (find (fun e => is_node c (snd e)) (listing [] d)) as [[anc n]|],
           (find (fun e => is_node c (snd e)) (listing [] (update i g h d)))
             as [[anc' n']|]; try contradiction; [|reflexivity].
  destruct F as (p & cs & E & [E'|E']); cbn [snd] in E, E'; subst n n'.
  - reflexivity.
  - now apply control_count_update.
Qed.

Lemma is_control_fresh (b : nat) (t : node) :
  fresh_control b t -> is_control t = true.
Proof. intros (i & s & box & _ & ->). apply control_matches. Qed.

Lemma control_count_append (t : node) (cs : list node) :
  is_control t = true ->
  List.length (filter is_control (cs ++ [t]))
  = S (List.length (filter is_control cs)).
Proof.
  intros Ht. rewrite filter_app, length_app. simpl. rewrite Ht. simpl. lia.
Qed.

Lemma control_count_insert_after (a : nat) (t : node) (cs : list node) :
  is_control t = true ->
  List.length (filter is_control (insert_after a t cs))
  = S (List.length (filter is_control cs)).
Proof.
  intros Ht. induction cs as [|c cs IH]; simpl.
  - now rewrite Ht.
  - destruct (is_node a c); simpl.
    + rewrite Ht. destruct (is_control c); simpl; lia.
    + destruct (is_control c); simpl; now rewrite IH.
Qed.

(** A write to the children of the container itself. *)
Lemma children_at_update (c : nat) (h : list node -> list node) (d : node)
  (e : ctx * node) :
  locate d c = Some e ->
  children_at (update c (fun p => p) h d) c = h (children_at d c).
Proof.
  intros L. destruct (locate_element d c e L) as (p & cs & E).
  destruct e as [anc n]. simpl in E. subst n. unfold children_at.
  now rewrite (locate_update c (fun p => p) h d anc c p cs L), L.
Qed.

Lemma control_children_mark (a c : nat) (d : node) :
  control_children (mark a d) c = control_children d c.
Proof.
  destruct (Nat.eq_dec c a) as [->|Hne].
  - unfold control_children, children_at, mark.
    destruct (locate d a) as [[anc n]|] eqn:L.
    + destruct (locate_element d a _ L) as (p & cs & E). simpl in E. subst n.
      now rewrite (locate_update a _ (fun cs => cs) d anc a p cs L).
    + pose proof (locate_grow a a d (mark a d)) as G. rewrite L in G.
      unfold mark in G. rewrite G; [reflexivity| |lia].
      apply grow_update; [apply props_sim_mark | apply grow_list_refl].
  - apply control_children_update_other with (b := c); auto.
    + apply keeps_old_id.
    + apply props_sim_mark.
Qed.

End GrowthFacts.

(* ================================================================== *)
(** * Properties of the Injector *)
(* ================================================================== *)

Section InjectorFacts.
Import Dom Injector.

Variable suffix : nat -> jsstring.
Variable layout : nat -> N * N * N.

Lemma scan_fold (pg : page) :
  scan suffix layout pg
  = fold_left (inject_one suffix layout) (findApplyButtons (root pg)) pg.
Proof. unfold scan. now destruct (findApplyButtons (root pg)). Qed.

Lemma found_bound (d : node) (a : nat) :
  In a (findApplyButtons d) -> a <= max_nid d.
Proof.
  intros H. apply findApplyButtons_in in H as (e & He & Ha & _).
  apply (listing_nid_bound d [] e He).
  destruct (snd e) as [s|i p cs]; simpl in *; [discriminate|].
  apply Nat.eqb_eq in Ha. now subst.
Qed.

(** The loop body, case by case. *)
Lemma inject_one_step (pg : page) (a : nat) :
  let d := root pg in
  let pg' := inject_one suffix layout pg a in
  grow (max_nid d) d (root pg')
  /\ inert (root pg') a = true
  /\ (container_at d a <> None -> processed_at (root pg') a = true)
  /\ (pg' = pg
      \/ (exists c, container_at d a = Some c
            /\ has_control d c = true
            /\ draws pg' = draws pg /\ console pg' = console pg)
      \/ (exists c, processed_at d a = false
            /\ container_at d a = Some c
            /\ has_control d c = false
            /\ draws pg' = S (draws pg)
            /\ console pg' = console pg ++ [a]
            /\ has_control (root pg') c = true)).
Proof.
  cbv zeta. unfold inject_one, inert.
  destruct (locate (root pg) a) as [[anc [s|i p cs]]|] eqn:L.
  - unfold processed_at, container_at. rewrite L.
    repeat split; auto using grow_refl; congruence.
  - destruct (locate_element _ _ _ L) as (p0 & cs0 & E).
    simpl in E. injection E as -> <- <-.
    assert (Ha : a <= max_nid (root pg)) by (now apply locate_bound with (1 := L)).
    assert (Pa : processed_at (root pg) a = processed p)
      by (unfold processed_at; now rewrite L).
    assert (Ca : container_at (root pg) a = findInjectionContainer a p anc)
      by (unfold container_at; now rewrite L).
    destruct (processed p) eqn:P.
    { rewrite Pa. repeat split; auto using grow_refl. }
    destruct (findInjectionContainer a p anc) as [c|] eqn:C.
    2:{ rewrite Pa, Ca. repeat split; auto using grow_refl; congruence. }
    destruct (has_control (root pg) c) eqn:H; cbn [root draws console].
    + assert (Pm : processed_at (mark a (root pg)) a = true)
        by (now apply processed_at_mark with (1 := L)).
      split; [|split; [now rewrite Pm|split; [intros _; exact Pm|]]].
      * apply grow_update; [apply props_sim_mark | apply grow_list_refl].
      * right. left. exists c. auto.
    + set (b := max_nid (root pg)).
      set (t := rendered (layout (draws pg))
                  (createButton (S b) (suffix (draws pg)))).
      assert (Hf : fresh_control b t).
      { exists (S b), (suffix (draws pg)), (layout (draws pg)).
        split; [lia | reflexivity]. }
      set (h := if parent_is anc c then insert_after a t
                else fun cs => cs ++ [t]).
      assert (Ed : (if parent_is anc c then insertAfter c a t (root pg)
                    else appendChild c t (root pg))
                   = update c (fun p => p) h (root pg)).
      { unfold h, insertAfter, appendChild. now destruct (parent_is anc c). }
      rewrite Ed. set (d1 := update c (fun p => p) h (root pg)).
      assert (G1 : grow b (root pg) d1).
      { apply grow_update; [apply props_sim_refl|].
        intros cs'. unfold h. destruct (parent_is anc c).
        - now apply grow_list_insert_after.
        - now apply grow_list_append. }
      assert (Pm : processed_at (mark a d1) a = true).
      { pose proof (locate_grow b a (root pg) d1 G1 Ha) as L1.
        rewrite L in L1. destruct L1 as (e' & L1 & _).
        now apply processed_at_mark with (1 := L1). }
      split; [|split; [now rewrite Pm|split; [intros _; exact Pm|]]].
      * now apply (proj1 (grow_then_mark b a Ha)).
      * right. right. exists c. repeat split; auto.
        apply has_control_grow with (b := c) (d := d1); [|lia|].
        -- apply grow_update; [apply props_sim_mark | apply grow_list_refl].
        -- apply has_control_after_insert with (t := t) (b := b); auto.
           ++ apply container_located with a. now rewrite Ca.
           ++ intros cs'. unfold h. destruct (parent_is anc c).
              ** apply insert_after_in.
              ** apply in_or_app. right. now left.
  - unfold processed_at, container_at. rewrite L.
    repeat split; auto using grow_refl; congruence.
Qed.

Lemma inject_one_evolves (pg : page) (a : nat) :
  evolves (max_nid (root pg)) (root pg) (root (inject_one suffix layout pg a)).
Proof. apply grow_evolves. apply (inject_one_step pg a). Qed.

Lemma fold_evolves (l : list nat) :
  forall pg,
    evolves (max_nid (root pg)) (root pg)
      (root (fold_left (inject_one suffix layout) l pg)).
Proof.
  induction l as [|a l IH]; intros pg; simpl; [apply evolves_refl|].
  pose proof (inject_one_evolves pg a) as E1.
  apply evolves_trans with (root (inject_one suffix layout pg a)); [exact E1|].
  apply evolves_weaken with (max_nid (root (inject_one suffix layout pg a))).
  - apply E1.
  - apply IH.
Qed.





Lemma step_evolves_from (d0 : node) (pg : page) (a : nat) :
  evolves (max_nid d0) d0 (root pg) ->
  evolves (max_nid d0) d0 (root (inject_one suffix layout pg a)).
Proof.
  intros E. apply evolves_trans with (root pg); [exact E|].
  apply evolves_weaken with (max_nid (root pg)); [apply (ev_max E)|].
  apply inject_one_evolves.
Qed.


Lemma resolves_bound (d : node) (c a : nat) :
  resolves_to d c a = true -> c <= max_nid d.
Proof.
  unfold resolves_to. destruct (container_at d a) as [c'|] eqn:C;
    [|discriminate]. intros H. apply Nat.eqb_eq in H. subst c'.
  destruct (container_located d a c C) as (e & L).
  now apply locate_bound with e.
Qed.

Lemma console_grows (l : list nat) :
  forall pg, exists injected,
    console (fold_left (inject_one suffix layout) l pg)
    = console pg ++ injected.
Proof.
  induction l as [|a0 l IH]; intros pg; simpl.
  - exists []. now rewrite app_nil_r.
  - destruct (IH (inject_one suffix layout pg a0)) as (inj & Hc).
    destruct (inject_one_step pg a0) as (_ & _ & _ & [Heq|[Hm|Hins]]).
    + rewrite Heq in *. exists inj. exact Hc.
    + destruct Hm as (c & _ & _ & _ & Hc1). rewrite Hc1 in Hc.
      exists inj. exact Hc.
    + destruct Hins as (c & _ & _ & _ & _ & Hc1 & _).
      rewrite Hc1, <- app_assoc in Hc. exists ([a0] ++ inj). exact Hc.
Qed.

Lemma filter_none {A : Type} (f : A -> bool) (l : list A) :
  (forall x, f x = false) -> filter f l = [].
Proof.
  intros H. induction l as [|x l IH]; simpl; [reflexivity|]. now rewrite H.
Qed.

(** One container is given at most one control in a run of the loop. *)
Lemma fold_one_per_container (d0 : node) (c : nat) (l : list nat) :
  (forall a, In a l -> a <= max_nid d0) ->
  forall pg, evolves (max_nid d0) d0 (root pg) ->
  exists injected,
    console (fold_left (inject_one suffix layout) l pg)
    = console pg ++ injected
    /\ (has_control (root pg) c = true ->
        filter (resolves_to d0 c) injected = [])
    /\ List.length (filter (resolves_to d0 c) injected) <= 1.
Proof.
  destruct (le_gt_dec c (max_nid d0)) as [Hc|Hc].
  2:{ intros _ pg _. destruct (console_grows l pg) as (inj & Hlog).
      exists inj. split; [exact Hlog|].
      assert (N : filter (resolves_to d0 c) inj = []).
      { apply filter_none. intros x.
        destruct (resolves_to d0 c x) eqn:R; [|reflexivity].
        apply resolves_bound in R. lia. }
      rewrite N. simpl. split; [reflexivity | lia]. }
  induction l as [|a0 l IH]; intros Hl pg E; simpl.
  - exists []. rewrite app_nil_r. simpl. split; [reflexivity|].
    split; [reflexivity | lia].
  - assert (Hl' : forall a, In a l -> a <= max_nid d0)
      by (intros x Hx; apply Hl; now right).
    pose proof (step_evolves_from d0 pg a0 E) as E1.
    destruct (IH Hl' (inject_one suffix layout pg a0) E1)
      as (inj & Hlog & Hk & Hn).
    assert (Mono : has_control (root pg) c = true ->
                   has_control (root (inject_one suffix layout pg a0)) c = true).
    { apply (ev_control (inject_one_evolves pg a0)).
      pose proof (ev_max E). lia. }
    destruct (inject_one_step pg a0) as (_ & _ & _ & [Heq|[Hm|Hins]]).
    + rewrite Heq in *. exists inj. auto.
    + destruct Hm as (c1 & _ & _ & _ & Hc1).
      exists inj. rewrite Hlog, Hc1. auto.
    + destruct Hins as (c1 & _ & C1 & H1 & _ & Hc1 & K1).
      exists (a0 :: inj). rewrite Hlog, Hc1, <- app_assoc.
      split; [reflexivity|]. simpl.
      assert (R : resolves_to d0 c a0 = Nat.eqb c1 c).
      { unfold resolves_to.
        rewrite <- (ev_container E a0 (Hl a0 (or_introl eq_refl))).
        now rewrite C1. }
      rewrite R. destruct (Nat.eqb c1 c) eqn:Ec.
      * apply Nat.eqb_eq in Ec. subst c1.
        rewrite (Hk K1). simpl. split; [congruence | lia].
      * auto.
Qed.

(** The loop body and the children of a container: an injection for an
    affordance that resolves to the container adds one control to its
    children, and nothing else changes their number. *)
Lemma inject_one_children (pg : page) (a c : nat) :
  c <= max_nid (root pg) ->
  exists injected,
    (injected = [] \/ injected = [a])
    /\ console (inject_one suffix layout pg a) = console pg ++ injected
    /\ control_children (root (inject_one suffix layout pg a)) c
       = control_children (root pg) c
         + List.length (filter (resolves_to (root pg) c) injected).
Proof.
  intros Hc. unfold inject_one.
  assert (Skip : exists injected,
            (injected = [] \/ injected = [a])
            /\ console pg = console pg ++ injected
            /\ control_children (root pg) c
               = control_children (root pg) c
                 + List.length (filter (resolves_to (root pg) c) injected)).
  { exists []. rewrite app_nil_r. simpl. auto. }
  destruct (locate (root pg) a) as [[anc [s|i p cs]]|] eqn:L; try exact Skip.
  destruct (locate_element _ _ _ L) as (p0 & cs0 & E).
  simpl in E. injection E as -> <- <-.
  destruct (processed p); [exact Skip|].
  destruct (findInjectionContainer a p anc) as [c1|] eqn:C; [|exact Skip].
  assert (Ca : container_at (root pg) a = Some c1)
    by (unfold container_at; now rewrite L).
  destruct (has_control (root pg) c1); cbn [root console].
  - exists []. rewrite app_nil_r, control_children_mark. simpl. auto.
  - set (b := max_nid (root pg)).
    set (t := rendered (layout (draws pg))
                (createButton (S b) (suffix (draws pg)))).
    assert (Hf : fresh_control b t).
    { exists (S b), (suffix (draws pg)), (layout (draws pg)).
      split; [lia | reflexivity]. }
    set (h := if parent_is anc c1 then insert_after a t
              else fun cs => cs ++ [t]).
    assert (Ed : (if parent_is anc c1 then insertAfter c1 a t (root pg)
                  else appendChild c1 t (root pg))
                 = update c1 (fun p => p) h (root pg)).
    { unfold h, insertAfter, appendChild. now destruct (parent_is anc c1). }
    rewrite Ed, control_children_mark.
    exists [a]. split; [now right|]. split; [reflexivity|].
    cbn [filter]. unfold resolves_to at 1. rewrite Ca.
    destruct (Nat.eqb c1 c) eqn:Ec.
    + apply Nat.eqb_eq in Ec. subst c1.
      destruct (container_located (root pg) a c Ca) as (e & Le).
      unfold control_children.
      rewrite (children_at_update c h (root pg) e Le). unfold h.
      pose proof (is_control_fresh b t Hf) as Ht.
      destruct (parent_is anc c); simpl.
      * rewrite (control_count_insert_after a t _ Ht). lia.
      * rewrite (control_count_append t _ Ht). lia.
    + apply Nat.eqb_neq in Ec. simpl. rewrite Nat.add_0_r.
      apply control_children_update_other with (b := b); auto.
      * unfold h. destruct (parent_is anc c1).
        -- now apply keeps_old_insert_after.
        -- now apply keeps_old_append.
      * apply props_sim_refl.
Qed.

Lemma fold_children (d0 : node) (c : nat) (l : list nat) :
  c <= max_nid d0 -> (forall a, In a l -> a <= max_nid d0) ->
  forall pg, evolves (max_nid d0) d0 (root pg) ->
  exists injected,
    console (fold_left (inject_one suffix layout) l pg)
    = console pg ++ injected
    /\ control_children (root (fold_left (inject_one suffix layout) l pg)) c
       = control_children (root pg) c
         + List.length (filter (resolves_to d0 c) injected).
Proof.
  intros Hc. induction l as [|a0 l IH]; intros Hl pg E; simpl.
  - exists []. rewrite app_nil_r. simpl. auto.
  - assert (Hl' : forall a, In a l -> a <= max_nid d0)
      by (intros x Hx; apply Hl; now right).
    destruct (IH Hl' (inject_one suffix layout pg a0)
                (step_evolves_from d0 pg a0 E)) as (inj2 & Hlog2 & Hn2).
    destruct (inject_one_children pg a0 c) as (inj1 & Hinj & Hlog1 & Hn1).
    { pose proof (ev_max E). lia. }
    exists (inj1 ++ inj2). rewrite Hlog2, Hlog1, Hn2, Hn1, <- app_assoc.
    split; [reflexivity|]. rewrite filter_app, length_app.
    assert (R : filter (resolves_to (root pg) c) inj1
                = filter (resolves_to d0 c) inj1).
    { destruct Hinj as [-> | ->]; [reflexivity|]. cbn [filter].
      unfold resolves_to.
      now rewrite (ev_container E a0 (Hl a0 (or_introl eq_refl))). }
    rewrite R. lia.
Qed.

(** Every affordance of the list that has a container ends up marked. *)
Lemma fold_marks (d0 : node) (l : list nat) :
  (forall a, In a l -> a <= max_nid d0) ->
  forall pg, evolves (max_nid d0) d0 (root pg) ->
  forall a, In a l -> container_at d0 a <> None ->
    processed_at (root (fold_left (inject_one suffix layout) l pg)) a = true.
Proof.
  induction l as [|a0 l IH]; intros Hl pg E a Ha Hc; simpl in *;
    [contradiction|].
  assert (Hl' : forall a, In a l -> a <= max_nid d0)
    by (intros x Hx; apply Hl; now right).
  pose proof (step_evolves_from d0 pg a0 E) as E1.
  destruct (in_dec Nat.eq_dec a l) as [Hin|Hout]; [now apply IH|].
  destruct Ha as [<-|Ha]; [|contradiction].
  pose proof (Hl a0 (or_introl eq_refl)) as Hb.
  apply (ev_processed (fold_evolves l (inject_one suffix layout pg a0))).
  - pose proof (ev_max E1). lia.
  - apply (inject_one_step pg a0).
    now rewrite (ev_container E a0 Hb).
Qed.

(** C7. During a scan every affordance found keeps the container it
    resolves to.  For every element [c] of the page, the scan injects a
    control for at most one of the affordances that resolve to [c] (each
    injection is logged with its affordance), and the controls among the
    children of [c] grow in number by exactly these injections: by at
    most one, however many affordances share the container.  Every
    affordance found that resolves to [c] carries the processed marker
    after the scan. *)
Theorem shared_container_gets_one_control (pg : page) (c : nat) :
  let after := scan suffix layout pg in
  (forall a, In a (findApplyButtons (root pg)) ->
     container_at (root after) a = container_at (root pg) a)
  /\ (exists injected,
        console after = console pg ++ injected
        /\ List.length (filter (resolves_to (root pg) c) injected) <= 1
        /\ ((exists e, locate (root pg) c = Some e) ->
            control_children (root after) c
            = control_children (root pg) c
              + List.length (filter (resolves_to (root pg) c) injected)))
  /\ forall a, In a (findApplyButtons (root pg)) ->
       container_at (root pg) a = Some c ->
       processed_at (root after) a = true.
Proof.
  cbv zeta. rewrite (scan_fold pg). split; [|split].
  - intros a Ha.
    apply (ev_container (fold_evolves (findApplyButtons (root pg)) pg)).
    now apply found_bound.
  - destruct (fold_one_per_container (root pg) c (findApplyButtons (root pg))
                (found_bound (root pg)) pg (evolves_refl _ _))
      as (inj & Hlog & _ & Hn).
    exists inj. split; [exact Hlog|]. split; [exact Hn|].
    intros (e & Le).
    destruct (fold_children (root pg) c (findApplyButtons (root pg))
                (locate_bound (root pg) c e Le)
                (found_bound (root pg)) pg (evolves_refl _ _))
      as (inj' & Hlog' & Hn').
    rewrite Hlog in Hlog'. apply app_inv_head in Hlog'. now subst inj'.
  - intros a Ha Hc.
    apply (fold_marks (root pg) (findApplyButtons (root pg))
             (found_bound (root pg)) pg (evolves_refl _ _) a Ha).
    congruence.
Qed.

End InjectorFacts.

Section InjectorSamples.
Import Dom Injector Samples.


Lemma shared_container_gets_one_control_witness :
  processed_at
    (root (scan sample_suffix sample_layout shared_bar_page)) 2 = true
  /\ processed_at
       (root (scan sample_suffix sample_layout shared_bar_page)) 4 = true
  /\ control_children
       (root (scan sample_suffix sample_layout shared_bar_page)) 1 <= 1.
Proof.
  destruct (shared_container_gets_one_control sample_suffix sample_layout
              shared_bar_page 1) as (_ & (inj & _ & Hn & Hc) & H).
  split; [apply H; vm_compute; auto|].
  split; [apply H; vm_compute; auto|].
  rewrite Hc.
  - change (control_children (root shared_bar_page) 1) with 0. exact Hn.
  - eexists. vm_compute. reflexivity.
Defined.

End InjectorSamples.

(* ================================================================== *)
(** * The earlier revision, where it agrees and where it differs *)
(* ================================================================== *)

Section LegacyFacts.
Import Dom Samples.

(** The description is cut the same way. *)
Lemma legacy_description_truncated (d : node) (href : jsstring) :
  Scraper.description (Legacy.scrapeJobData d href)
  = Scraper.description (Scraper.scrapeJobData d href).
Proof. reflexivity. Qed.

(** A missing company gives the empty string, not a sentinel. *)
Lemma legacy_company_missing (d : node) (href : jsstring) :
  Forall (fun s => querySelector d s = None) Scraper.COMPANY_LOCATORS ->
  Scraper.company (Legacy.scrapeJobData d href) = [].
Proof.
  intros H. unfold Legacy.scrapeJobData; cbn [Scraper.company].
  now rewrite first_match_none by exact H.
Qed.

(** The url never depends on [currentJobId]. *)
Lemma legacy_url_stripped :
  Scraper.url (Legacy.scrapeJobData job_page search_with_id)
  = js "https://www.linkedin.com/jobs/search/".
Proof. vm_compute. reflexivity. Qed.

(** [showFeedback] leaves the button enabled at once here too. *)
Lemma legacy_feedback_reenables_at_once (b : Legacy.button)
  (text type : jsstring) :
  type <> js "success" ->
  Legacy.disabled (fst (Legacy.showFeedback b text type)) = false
  /\ snd (Legacy.showFeedback b text type) = true.
Proof.
  intros H. apply jseqb_neq in H. unfold Legacy.showFeedback. simpl.
  now rewrite H.
Qed.

(** On the sample page this revision puts a control after each of the
    two buttons it selects, although they share a container, and a
    second run adds nothing. *)
Lemma legacy_injects_per_button :
  exists d',
    Legacy.injectButton shared_bar = Some d'
    /\ map (fun e => nid_of (snd e)) (Legacy.controls d') = [Some 7; Some 8]
    /\ Legacy.injectButton d' = Some d'.
Proof.
  eexists. split; [vm_compute; reflexivity|].
  split; vm_compute; reflexivity.
Qed.

End LegacyFacts.

(* ================================================================== *)
(** * Further properties of the Scraper *)
(* ================================================================== *)

Section ScraperMore.
Import Dom Scraper Notions.

Lemma trimStart_head (s : jsstring) (c : N) (r : jsstring) :
  JS.trimStart s = c :: r -> JS.isWhiteSpace c = false.
Proof.
  induction s as [|x s IH]; simpl; [discriminate|].
  destruct (JS.isWhiteSpace x) eqn:E; [exact IH|].
  intros [= <- _]. exact E.
Qed.

Lemma trimStart_suffix (s : jsstring) :
  exists pre, s = pre ++ JS.trimStart s.
Proof.
  induction s as [|x s [pre IH]]; simpl; [now exists []|].
  destruct (JS.isWhiteSpace x).
  - exists (x :: pre). simpl. now rewrite <- IH.
  - now exists [].
Qed.

Lemma trimEnd_prefix (s : jsstring) :
  exists post, s = JS.trimEnd s ++ post.
Proof.
  unfold JS.trimEnd. destruct (trimStart_suffix (rev s)) as [pre H].
  exists (rev pre). rewrite <- rev_app_distr, <- H. now rewrite rev_involutive.
Qed.

Lemma trim_is_trimmed (s : jsstring) : trimmed (JS.trim s).
Proof.
  split; intros c r H.
  - unfold JS.trim in H.
    destruct (trimEnd_prefix (JS.trimStart s)) as [post E].
    rewrite H in E. simpl in E. now apply trimStart_head in E.
  - unfold JS.trim, JS.trimEnd in H.
    apply (f_equal (@rev N)) in H.
    rewrite rev_involutive, rev_app_distr in H. simpl in H.
    now apply trimStart_head in H.
Qed.

Lemma trimStart_fixed (s : jsstring) :
  (forall c r, s = c :: r -> JS.isWhiteSpace c = false) ->
  JS.trimStart s = s.
Proof.
  destruct s as [|c r]; [reflexivity|]. intros H. simpl.
  now rewrite (H c r eq_refl).
Qed.

Lemma trim_fixed (s : jsstring) : trimmed s -> JS.trim s = s.
Proof.
  intros [H1 H2]. unfold JS.trim, JS.trimEnd.
  rewrite (trimStart_fixed s H1), trimStart_fixed; [apply rev_involutive|].
  intros c r E. apply (H2 c (rev r)).
  rewrite <- (rev_involutive s), E. reflexivity.
Qed.

Lemma text_or_trimmed (el : option node) (fallback : jsstring) :
  trimmed fallback -> trimmed (text_or el fallback).
Proof. destruct el; simpl; [intros _; apply trim_is_trimmed | auto]. Qed.

Lemma literal_trimmed (s : jsstring) :
  match s with c :: _ => JS.isWhiteSpace c = false | [] => True end ->
  match rev s with c :: _ => JS.isWhiteSpace c = false | [] => True end ->
  trimmed s.
Proof.
  intros H1 H2. split; intros c r E.
  - now rewrite E in H1.
  - rewrite E, rev_app_distr in H2. exact H2.
Qed.

(** X1. The title and the company of every scraped record have no white
    space at either end, whether they come from the page or are the
    sentinels, and trimming them again changes nothing. *)
Theorem scraped_names_are_trimmed (d : node) (href : jsstring) :
  let r := scrapeJobData d href in
  trimmed (job_title r) /\ trimmed (company r)
  /\ JS.trim (job_title r) = job_title r
  /\ JS.trim (company r) = company r.
Proof.
  cbv zeta.
  assert (T : trimmed (job_title (scrapeJobData d href))).
  { apply text_or_trimmed. apply literal_trimmed; vm_compute; reflexivity. }
  assert (C : trimmed (company (scrapeJobData d href))).
  { apply text_or_trimmed. apply literal_trimmed; vm_compute; reflexivity. }
  repeat split; try apply T; try apply C; now apply trim_fixed.
Qed.

Lemma first_match_first (d : node) (before after : list selector)
  (s : selector) (e : node) :
  Forall (fun s' => querySelector d s' = None) before ->
  querySelector d s = Some e ->
  first_match d (before ++ s :: after) = Some e.
Proof.
  intros Hb Hs. induction Hb as [|s' before H' _ IH]; simpl.
  - now rewrite Hs.
  - now rewrite H'.
Qed.

(** X2. Each field of the record is read from the first locator of its
    list that matches anything: the locators before it matched nothing,
    the ones after it are not consulted, and the field is the trimmed
    text of the first element that locator selects. *)
Theorem first_matching_locator_wins (d : node) (href : jsstring)
  (before after : list selector) (s : selector) (e : node) :
  Forall (fun s' => querySelector d s' = None) before ->
  querySelector d s = Some e ->
  (TITLE_LOCATORS = before ++ s :: after ->
     job_title (scrapeJobData d href) = JS.trim (textContent e))
  /\ (COMPANY_LOCATORS = before ++ s :: after ->
        company (scrapeJobData d href) = JS.trim (textContent e))
  /\ (DESCRIPTION_LOCATORS = before ++ s :: after ->
        fullDesc d = JS.trim (textContent e)).
Proof.
  intros Hb Hs.
  pose proof (first_match_first d before after s e Hb Hs) as F.
  repeat split; intros E; unfold scrapeJobData, fullDesc;
    cbn [job_title company]; rewrite E, F; reflexivity.
Qed.

Lemma first_matching_locator_wins_witness :
  fullDesc Samples.job_page = js "We build things.".
Proof.
  refine (proj2 (proj2 (first_matching_locator_wins Samples.job_page
            Samples.job_address
            [ [[cls "jobs-box__html-content"; cls "jobs-description__content"]];
              [[cls "jobs-description-content__text"]] ]
            [] [[by_id "job-details"]]
            (Element 5 (Samples.laid_out "div" [(js "id", js "job-details")])
               [ Text (js "We build things.") ])
            _ _)) _).
  - repeat constructor.
  - vm_compute. reflexivity.
  - reflexivity.
Defined.

(** ** The address *)

Lemma before_notin (sep : N) (s : jsstring) :
  ~ In sep s -> JS.before sep s = s.
Proof.
  induction s as [|c s IH]; simpl; [reflexivity|]. intros H.
  destruct (N.eqb_spec c sep) as [->|Hne]; [exfalso; apply H; now left|].
  f_equal. apply IH. intros Hin. apply H. now right.
Qed.

Lemma before_app (sep : N) (a r : jsstring) :
  ~ In sep a -> JS.before sep (a ++ sep :: r) = a.
Proof.
  induction a as [|c a IH]; simpl; intros H.
  - now rewrite N.eqb_refl.
  - destruct (N.eqb_spec c sep) as [->|Hne]; [exfalso; apply H; now left|].
    f_equal. apply IH. intros Hin. apply H. now right.
Qed.

Lemma after_app (sep : N) (a r : jsstring) :
  ~ In sep a -> JS.after sep (a ++ sep :: r) = Some r.
Proof.
  induction a as [|c a IH]; simpl; intros H.
  - now rewrite N.eqb_refl.
  - destruct (N.eqb_spec c sep) as [->|Hne]; [exfalso; apply H; now left|].
    apply IH. intros Hin. apply H. now right.
Qed.

Lemma before_no_sep (sep : N) (s : jsstring) : ~ In sep (JS.before sep s).
Proof.
  induction s as [|c s IH]; simpl; [tauto|].
  destruct (N.eqb_spec c sep) as [->|Hne]; simpl; [tauto|].
  intros [E|H]; [congruence | contradiction].
Qed.

Lemma before_prefix (sep : N) (s : jsstring) :
  exists rest, s = JS.before sep s ++ rest.
Proof.
  induction s as [|c s [rest IH]]; simpl; [now exists []|].
  destruct (N.eqb c sep).
  - now exists (c :: s).
  - exists rest. simpl. now rewrite <- IH.
Qed.

Lemma split_on_single (sep : N) (a : jsstring) :
  ~ In sep a -> JS.split_on sep a = [a].
Proof.
  induction a as [|c a IH]; simpl; intros H; [reflexivity|].
  destruct (N.eqb_spec c sep) as [->|Hne]; [exfalso; apply H; now left|].
  rewrite IH; [reflexivity|]. intros Hin. apply H. now right.
Qed.

Lemma split_on_app (sep : N) (a r : jsstring) :
  ~ In sep a -> JS.split_on sep (a ++ sep :: r) = a :: JS.split_on sep r.
Proof.
  induction a as [|c a IH]; simpl; intros H.
  - now rewrite N.eqb_refl.
  - destruct (N.eqb_spec c sep) as [->|Hne]; [exfalso; apply H; now left|].
    rewrite IH; [reflexivity|]. intros Hin. apply H. now right.
Qed.

Lemma plain_spec (c : N) :
  plain c = true ->
  (c < 128)%N /\ c <> 37%N /\ c <> 43%N /\ c <> 38%N /\ c <> 35%N
  /\ c <> 61%N /\ c <> 63%N.
Proof.
  unfold plain. intros H.
  repeat (apply andb_true_iff in H as [H ?]).
  repeat match goal with
         | K : negb _ = true |- _ =>
             apply negb_true_iff, N.eqb_neq in K
         end.
  apply N.ltb_lt in H. auto 10.
Qed.

Lemma plain_notin (id : jsstring) (c : N) :
  forallb plain id = true -> plain c = false -> ~ In c id.
Proof.
  intros H Hc Hin. rewrite forallb_forall in H. specialize (H c Hin).
  congruence.
Qed.

Lemma percent_decode_plain (s : jsstring) :
  forallb plain s = true -> Url.percent_decode s = s.
Proof.
  induction s as [|c s IH]; [reflexivity|]. cbn [forallb].
  intros H. apply andb_true_iff in H as [Hc Hs].
  destruct (plain_spec c Hc) as (_ & H37 & H43 & _).
  cbn [Url.percent_decode].
  apply N.eqb_neq in H37, H43. rewrite H37, H43. now rewrite IH.
Qed.

Lemma utf8_decode_plain (s : jsstring) :
  forallb plain s = true -> Url.utf8_decode s = s.
Proof.
  induction s as [|c s IH]; [reflexivity|]. cbn [forallb].
  intros H. apply andb_true_iff in H as [Hc Hs].
  destruct (plain_spec c Hc) as (Hlt & _).
  cbn [Url.utf8_decode]. apply N.ltb_lt in Hlt. rewrite Hlt. cbn [orb].
  now rewrite IH.
Qed.

(** X3. An address whose query starts with [currentJobId=<id>], the
    identifier made of plain characters (digits, letters: nothing that a
    query string encodes or that ends a parameter) and followed by
    nothing or by further parameters, gives the record the deep link
    [https://www.linkedin.com/jobs/view/<id>/], whatever the path before
    the query and the parameters after it. *)
Theorem deep_link_from_search_address (d : node)
  (path id rest : jsstring) :
  ~ In 63%N path -> ~ In 35%N path ->
  id <> [] -> forallb plain id = true ->
  rest = [] \/ (exists r, rest = 38%N :: r /\ ~ In 35%N r) ->
  url (scrapeJobData d (path ++ js "?currentJobId=" ++ id ++ rest))
  = js "https://www.linkedin.com/jobs/view/" ++ id ++ js "/".
Proof.
  intros Hq Hh Hne Hid Hrest.
  cbn [url scrapeJobData]. unfold derived_url, currentJobId.
  set (href := path ++ js "?currentJobId=" ++ id ++ rest).
  assert (Hid35 : ~ In 35%N id) by (apply plain_notin; auto).
  assert (Hid38 : ~ In 38%N id) by (apply plain_notin; auto).
  assert (Hrest35 : ~ In 35%N rest).
  { destruct Hrest as [->|(r & -> & Hr)]; [tauto|].
    intros [E|H]; [discriminate | contradiction]. }
  assert (E1 : JS.before 35 href = href).
  { apply before_notin. unfold href. rewrite !in_app_iff.
    intros [H|[H|[H|H]]]; try contradiction.
    vm_compute in H. intuition discriminate. }
  assert (E2 : JS.after 63 href = Some (js "currentJobId=" ++ id ++ rest)).
  { unfold href. change (js "?currentJobId=") with (63%N :: js "currentJobId=").
    rewrite <- app_comm_cons. now apply after_app. }
  unfold Url.location_search. rewrite E1, E2.
  change (js "currentJobId=" ++ id ++ rest)
    with (99%N :: (js "urrentJobId=" ++ id ++ rest)).
  cbv iota. unfold Url.URLSearchParams. rewrite N.eqb_refl.
  change (99%N :: (js "urrentJobId=" ++ id ++ rest))
    with ((js "currentJobId=" ++ id) ++ rest) at 1.
  assert (Hfirst : ~ In 38%N (js "currentJobId=" ++ id)).
  { rewrite in_app_iff. intros [H|H]; [|contradiction].
    vm_compute in H. intuition discriminate. }
  assert (P : Url.parse_pair (js "currentJobId=" ++ id)
              = (js "currentJobId", id)).
  { unfold Url.parse_pair.
    change (js "currentJobId=" ++ id) with (js "currentJobId" ++ 61%N :: id).
    rewrite before_app, after_app
      by (vm_compute; intuition discriminate).
    unfold Url.form_decode.
    rewrite (percent_decode_plain id Hid), (utf8_decode_plain id Hid).
    reflexivity. }
  assert (T : JS.truthy (js "currentJobId=" ++ id) = true) by reflexivity.
  assert (G : Url.get
                (map Url.parse_pair
                   (filter JS.truthy
                      (JS.split_on 38 ((js "currentJobId=" ++ id) ++ rest))))
                (js "currentJobId") = Some id).
  { destruct Hrest as [->|(r & -> & Hr)].
    - rewrite app_nil_r, (split_on_single 38 _ Hfirst).
      cbn [filter]. rewrite T. cbn [map]. rewrite P. reflexivity.
    - rewrite (split_on_app 38 _ r Hfirst).
      cbn [filter]. rewrite T. cbn [map]. rewrite P. reflexivity. }
  rewrite <- app_assoc in G. rewrite <- app_assoc. 
  change ((js "currentJobId=" ++ id) ++ rest)
    with (js "currentJobId=" ++ id ++ rest) in G.
  rewrite G. destruct id; [contradiction | reflexivity].
Qed.

Lemma deep_link_from_search_address_witness :
  url (scrapeJobData Samples.job_page Samples.search_with_id)
  = js "https://www.linkedin.com/jobs/view/4012345678/".
Proof.
  apply (deep_link_from_search_address Samples.job_page
           (js "https://www.linkedin.com/jobs/search/") (js "4012345678")
           (js "&start=25")).
  - vm_compute. intuition discriminate.
  - vm_compute. intuition discriminate.
  - discriminate.
  - reflexivity.
  - right. exists (js "start=25"). split; [reflexivity|].
    vm_compute. intuition discriminate.
Defined.

(** X4. When the address has no [currentJobId] parameter, or an empty
    one, the url of the record is a prefix of the address and contains
    no question mark: everything from the first [?] on is dropped. *)
Theorem stripped_url_is_prefix_without_query (d : node) (href : jsstring) :
  currentJobId href = None \/ currentJobId href = Some [] ->
  ~ In 63%N (url (scrapeJobData d href))
  /\ exists rest, href = url (scrapeJobData d href) ++ rest.
Proof.
  intros H. cbn [url scrapeJobData].
  rewrite (derived_url_stripped href H).
  split; [apply before_no_sep | apply before_prefix].
Qed.

Lemma stripped_url_is_prefix_without_query_witness :
  ~ In 63%N (url (scrapeJobData Samples.job_page Samples.job_address)).
Proof.
  apply (stripped_url_is_prefix_without_query Samples.job_page
           Samples.job_address).
  left. vm_compute. reflexivity.
Defined.

Lemma before_rest (sep : N) (s : jsstring) :
  exists rest,
    s = JS.before sep s ++ rest
    /\ (rest = [] \/ exists r, rest = sep :: r).
Proof.
  induction s as [|c s (rest & E & H)]; simpl.
  - exists []. split; [reflexivity | now left].
  - destruct (N.eqb_spec c sep) as [->|Hne].
    + exists (sep :: s). split; [reflexivity|]. right. now exists s.
    + exists rest. split; [simpl; now rewrite <- E | exact H].
Qed.

(** X5. In the earlier revision the url of the record is, for every
    address and whatever the query holds, the part of the address before
    its first question mark: it contains no question mark, and the
    address is the url followed by nothing or by a question mark and the
    rest.  An address without question mark is its own url. *)
Theorem legacy_url_is_prefix_without_query (d : node) (href : jsstring) :
  ~ In 63%N (url (Legacy.scrapeJobData d href))
  /\ (exists rest,
        href = url (Legacy.scrapeJobData d href) ++ rest
        /\ (rest = [] \/ exists r, rest = 63%N :: r))
  /\ (~ In 63%N href -> url (Legacy.scrapeJobData d href) = href).
Proof.
  cbn [url Legacy.scrapeJobData].
  split; [apply before_no_sep|]. split; [apply before_rest|].
  apply before_notin.
Qed.

End ScraperMore.

(* ================================================================== *)
(** * Further properties of the Submitter *)
(* ================================================================== *)

Section SubmitterMore.
Import Submitter Notions.

(** X6. When the request fails before any response arrives, the control
    shows the error label with the class [jt-error], is enabled, the
    failure is logged as a network error, no request is sent again, and
    the timer set for 2500 ms later puts the idle markup back. *)
Theorem network_failure_reports_and_reenables (w w1 : world) (i : nat)
  (e : jsstring) :
  step (FetchSettled i (Rejected e)) w = Some w1 ->
  content (btn w1) = PlainText ERROR
  /\ In (js "jt-error") (classList (btn w1))
  /\ disabled (btn w1) = false
  /\ errors w1 = errors w ++ [NetworkError e]
  /\ requests w1 = requests w
  /\ lookup (next_id w) (pending w1)
     = Some (RevertTimer (now w + REVERT_DELAY) (js "error"))
  /\ exists w2 w3,
       step (Elapse REVERT_DELAY) w1 = Some w2
       /\ step (TimerFired (next_id w)) w2 = Some w3
       /\ disabled (btn w3) = false
       /\ content (btn w3)
          = Html (or_else (originalHTML (btn w)) DEFAULT_HTML)
       /\ requests w3 = requests w.
Proof.
  unfold step at 1.
  destruct (lookup i (pending w)) as [[| | |]|]; try discriminate.
  intros [= <-]. unfold trackJob_fetched.
  assert (Hne : js "error" <> js "success") by discriminate.
  rewrite (showFeedback_transient ERROR (js "error") (resume i w) Hne).
  cbn [log_error spawn with_btn resume btn content classList disabled
       errors requests pending next_id now lookup].
  rewrite Nat.eqb_refl.
  split; [reflexivity|]. split; [apply class_add_in|].
  do 4 (split; [reflexivity|]).
  eexists. eexists. split; [reflexivity|].
  unfold step.
  cbn [log_error spawn with_btn resume pending lookup now btn requests
       next_id errors].
  rewrite Nat.eqb_refl. unfold REVERT_DELAY. rewrite N.leb_refl.
  split; [reflexivity|]. repeat split.
Qed.

Lemma network_failure_reports_and_reenables_witness :
  errors (world_after Samples2.connection_lost)
  = [NetworkError (js "TypeError: Failed to fetch")].
Proof.
  refine (proj1 (proj2 (proj2 (proj2
    (network_failure_reports_and_reenables
       (world_after Samples.in_flight)
       (world_after Samples2.connection_lost) 0
       (js "TypeError: Failed to fetch") _))))).
  reflexivity.
Defined.

Lemma idle_run_is_final (es : list event) (w w' : world) :
  disabled (btn w) = true -> pending w = [] ->
  run es w = Some w' ->
  btn w' = btn w /\ pending w' = [] /\ requests w' = requests w.
Proof.
  revert w. induction es as [|e es IH]; intros w Hd Hp; simpl.
  - intros [= <-]. auto.
  - destruct (step e w) as [w1|] eqn:E; [|discriminate]. intros R.
    destruct (disabled_and_idle_is_final w w1 e Hd Hp E) as (Hb & Hp1 & Hr).
    destruct (IH w1) as (Hb' & Hp' & Hr'); auto; [congruence|].
    repeat split; congruence.
Qed.

(** X7. When the backend accepts a submission and nothing else is
    waiting for this control (no other click in flight, no timer of an
    earlier warning or error), the success state is final: whatever
    happens afterwards, the control keeps the success label, stays
    disabled and marked as tracked, and nothing more is sent. *)
Theorem success_is_final_when_nothing_else_pends (w w1 w2 : world)
  (i : nat) (es : list event) :
  step (FetchSettled i (Responded true)) w = Some w1 ->
  remove i (pending w) = [] ->
  run es w1 = Some w2 ->
  content (btn w2) = PlainText TRACKED
  /\ disabled (btn w2) = true
  /\ tracked (btn w2) = Some (js "true")
  /\ In (js "jt-success") (classList (btn w2))
  /\ requests w2 = requests w
  /\ pending w2 = [].
Proof.
  intros S1 Hp R.
  assert (A : content (btn w1) = PlainText TRACKED
              /\ disabled (btn w1) = true
              /\ tracked (btn w1) = Some (js "true")
              /\ In (js "jt-success") (classList (btn w1))
              /\ requests w1 = requests w
              /\ pending w1 = remove i (pending w)).
  { revert S1. unfold step.
    destruct (lookup i (pending w)) as [[| | |]|]; try discriminate.
    intros [= <-]. repeat split. apply class_add_in. }
  destruct A as (A1 & A2 & A3 & A4 & A5 & A6).
  rewrite Hp in A6.
  destruct (idle_run_is_final es w1 w2 A2 A6 R) as (Hb & Hp2 & Hr).
  rewrite Hb, Hr. auto 10.
Qed.

Lemma success_is_final_when_nothing_else_pends_witness :
  disabled (btn (world_after Samples2.accepted_then_idle)) = true.
Proof.
  refine (proj1 (proj2
    (success_is_final_when_nothing_else_pends
       (world_after Samples.in_flight)
       (world_after Samples2.accepted)
       (world_after Samples2.accepted_then_idle)
       0 [Elapse 5000] _ _ _))); reflexivity.
Defined.

Lemma truthy_nonempty (s : jsstring) : JS.truthy s = true -> s <> [].
Proof. destruct s; [discriminate | discriminate]. Qed.

Lemma configured_requests_proper (i : nat) (stored : option jsstring)
  (d : Dom.node) (href : jsstring) (w : world) :
  Forall proper_request (requests w) ->
  Forall proper_request
    (requests (trackJob_configured i stored d href w)).
Proof.
  intros H. unfold trackJob_configured.
  destruct (JS.truthy (getApiUrl stored)) eqn:Eu; cbn [negb].
  2: now rewrite showFeedback_requests.
  destruct (unusable_title (Scraper.scrapeJobData d href)) eqn:Et.
  1: now rewrite showFeedback_requests.
  cbn [suspend requests]. apply Forall_app. split; [exact H|].
  constructor; [|constructor].
  unfold unusable_title in Et. apply orb_false_iff in Et as [T1 T2].
  apply negb_false_iff in T1.
  repeat split.
  - exists (getApiUrl stored). split; [now apply truthy_nonempty | reflexivity].
  - now apply truthy_nonempty.
  - now apply jseqb_neq.
Qed.

Lemma step_requests_proper (e : event) (w w' : world) :
  step e w = Some w' ->
  Forall proper_request (requests w) -> Forall proper_request (requests w').
Proof.
  destruct e as [|i stored d href|i r|i body|i|ms]; unfold step.
  - destruct (disabled (btn w)); [discriminate|]. now intros [= <-].
  - destruct (lookup i (pending w)) as [[| | |]|]; try discriminate.
    intros [= <-] H. now apply configured_requests_proper.
  - destruct (lookup i (pending w)) as [[| | |]|]; try discriminate.
    intros [= <-] H. destruct r as [[|]|e]; unfold trackJob_fetched;
      cbn [with_tracked log_error suspend with_btn requests];
      rewrite ?showFeedback_requests; exact H.
  - destruct (lookup i (pending w)) as [[| | |]|]; try discriminate.
    intros [= <-] H. unfold trackJob_decoded. cbn [log_error requests].
    now rewrite showFeedback_requests.
  - destruct (lookup i (pending w)) as [[| | |due type]|]; try discriminate.
    destruct (due <=? now w)%N; [|discriminate]. now intros [= <-].
  - now intros [= <-].
Qed.

(** X8. Every request the control ever sends is a POST with content type
    [application/json] to [<base>/api/jobs] for a non-empty base URL,
    and carries a record whose title is neither empty nor the sentinel:
    nothing is sent while the extension is unconfigured or the page
    unreadable. *)
Theorem every_request_is_proper (w : world) :
  reachable w -> Forall proper_request (requests w).
Proof.
  intros [es R].
  assert (G : forall es w0, run es w0 = Some w ->
              Forall proper_request (requests w0) ->
              Forall proper_request (requests w)).
  { clear. induction es as [|e es IH]; intros w0; simpl.
    - now intros [= ->].
    - destruct (step e w0) as [w1|] eqn:E; [|discriminate].
      intros R H. apply (IH w1 R). exact (step_requests_proper e w0 w1 E H). }
  apply (G es initial R). constructor.
Qed.

Lemma every_request_is_proper_witness :
  Forall proper_request (requests (world_after Samples.server_error)).
Proof.
  apply every_request_is_proper.
  exists Samples.server_error. reflexivity.
Defined.

(** ** Requests and clicks *)

Lemma waiting_remove_api (i : nat) (l : list (nat * task)) :
  lookup i l = Some AwaitApiUrl ->
  S (count_waiting (remove i l)) = count_waiting l.
Proof.
  induction l as [|[j t] l IH]; simpl; [discriminate|].
  destruct (Nat.eqb j i).
  - now intros [= ->].
  - intros H. destruct t; simpl; rewrite <- (IH H); reflexivity.
Qed.

Lemma waiting_remove_other (i : nat) (l : list (nat * task)) (t : task) :
  lookup i l = Some t -> t <> AwaitApiUrl ->
  count_waiting (remove i l) = count_waiting l.
Proof.
  induction l as [|[j u] l IH]; simpl; [discriminate|].
  destruct (Nat.eqb j i).
  - intros [= ->] Ht. destruct t; [contradiction | reflexivity..].
  - intros H Ht. destruct u; simpl; now rewrite (IH H Ht).
Qed.

(** Requests sent plus invocations still waiting for the stored URL. *)
Lemma showFeedback_waiting (text type : jsstring) (w : world) :
  count_waiting (pending (showFeedback text type w))
  = count_waiting (pending w).
Proof.
  unfold showFeedback. now destruct (negb (JS.eqb type (js "success"))).
Qed.

Lemma step_spends_clicks (e : event) (w w' : world) :
  step e w = Some w' ->
  List.length (requests w') + count_waiting (pending w')
  <= List.length (requests w) + count_waiting (pending w)
     + count_clicks [e].
Proof.
  destruct e as [|i stored d href|i r|i body|i|ms]; unfold step.
  - destruct (disabled (btn w)); [discriminate|]. intros [= <-].
    simpl. lia.
  - destruct (lookup i (pending w)) as [[| | |]|] eqn:L; try discriminate.
    intros [= <-]. pose proof (waiting_remove_api i (pending w) L) as W.
    unfold trackJob_configured.
    destruct (negb (JS.truthy (getApiUrl stored))).
    { rewrite showFeedback_requests, showFeedback_waiting. simpl. lia. }
    destruct (unusable_title (Scraper.scrapeJobData d href)).
    { rewrite showFeedback_requests, showFeedback_waiting. simpl. lia. }
    cbn [suspend requests pending resume count_waiting count_clicks].
    rewrite length_app. simpl. lia.
  - destruct (lookup i (pending w)) as [[| | |]|] eqn:L; try discriminate.
    intros [= <-].
    assert (W : count_waiting (remove i (pending w))
                = count_waiting (pending w)).
    { apply (waiting_remove_other i (pending w) AwaitResponse L).
      discriminate. }
    destruct r as [[|]|e]; unfold trackJob_fetched;
      cbn [with_tracked log_error suspend with_btn requests pending
           count_waiting];
      rewrite ?showFeedback_requests, ?showFeedback_waiting; simpl; lia.
  - destruct (lookup i (pending w)) as [[| | |]|] eqn:L; try discriminate.
    intros [= <-].
    assert (W : count_waiting (remove i (pending w))
                = count_waiting (pending w)).
    { apply (waiting_remove_other i (pending w) AwaitErrorBody L).
      discriminate. }
    unfold trackJob_decoded. cbn [log_error requests pending].
    rewrite showFeedback_requests, showFeedback_waiting. simpl. lia.
  - destruct (lookup i (pending w)) as [[| | |due type]|] eqn:L;
      try discriminate.
    destruct (due <=? now w)%N; [|discriminate]. intros [= <-].
    assert (W : count_waiting (remove i (pending w))
                = count_waiting (pending w)).
    { apply (waiting_remove_other i (pending w) (RevertTimer due type) L).
      discriminate. }
    simpl. lia.
  - intros [= <-]. simpl. lia.
Qed.

Lemma count_clicks_cons (e : event) (es : list event) :
  count_clicks (e :: es) = count_clicks [e] + count_clicks es.
Proof. destruct e; reflexivity. Qed.

Lemma run_spends_clicks (es : list event) (w w' : world) :
  run es w = Some w' ->
  List.length (requests w') + count_waiting (pending w')
  <= List.length (requests w) + count_waiting (pending w)
     + count_clicks es.
Proof.
  revert w. induction es as [|e es IH]; intros w.
  - simpl. intros [= <-]. lia.
  - cbn [run]. destruct (step e w) as [w1|] eqn:E; [|discriminate].
    intros R. pose proof (step_spends_clicks e w w1 E).
    pose proof (IH w1 R). rewrite (count_clicks_cons e es). lia.
Qed.

(** X9. The control never sends more requests than it was clicked: after
    any sequence of events from its creation, the number of requests is
    at most the number of clicks among them (a click sends one request
    or none, and nothing else sends any). *)
Theorem no_more_requests_than_clicks (es : list event) (w : world) :
  run es initial = Some w ->
  List.length (requests w) <= count_clicks es.
Proof.
  intros R. pose proof (run_spends_clicks es initial w R) as H.
  simpl in H. lia.
Qed.

Lemma no_more_requests_than_clicks_witness :
  List.length (requests (world_after Samples.warned_then_tracked)) <= 2.
Proof.
  apply (no_more_requests_than_clicks Samples.warned_then_tracked).
  reflexivity.
Defined.

(** ** Feedback and its timer *)

Lemma existsb_eqb_notin (c : jsstring) (l : list jsstring) :
  ~ In c l -> existsb (JS.eqb c) l = false.
Proof.
  intros H. destruct (existsb (JS.eqb c) l) eqn:E; [|reflexivity].
  apply existsb_exists in E as (x & Hx & Hc). apply jseqb_eq in Hc.
  now subst.
Qed.

Lemma class_remove_notin (l : list jsstring) (c : jsstring) :
  ~ In c l -> class_remove l c = l.
Proof.
  induction l as [|x l IH]; simpl; [reflexivity|]. intros H.
  assert (E : JS.eqb x c = false).
  { apply jseqb_neq. intros ->. apply H. now left. }
  rewrite E. simpl. f_equal. apply IH. intros Hin. apply H. now right.
Qed.

Lemma class_remove_add (l : list jsstring) (c : jsstring) :
  ~ In c l -> class_remove (class_add l c) c = l.
Proof.
  intros H. unfold class_add. rewrite (existsb_eqb_notin c l H).
  unfold class_remove. rewrite filter_app. cbn [filter].
  rewrite jseqb_refl. cbn [negb]. rewrite app_nil_r.
  exact (class_remove_notin l c H).
Qed.

(** X10. A warning or an error is a round trip for an idle control: when
    the control shows the markup it was created with, is enabled and
    does not carry the feedback class, the feedback followed 2500 ms
    later by its timer leaves the button exactly as it was, with the
    same tasks pending. *)
Theorem feedback_then_timer_restores_button (text type h : jsstring)
  (w : world) :
  type <> js "success" ->
  originalHTML (btn w) = Some h -> h <> [] ->
  content (btn w) = Html h ->
  disabled (btn w) = false ->
  ~ In (js "jt-" ++ type) (classList (btn w)) ->
  exists w1 w2,
    step (Elapse REVERT_DELAY) (showFeedback text type w) = Some w1
    /\ step (TimerFired (next_id w)) w1 = Some w2
    /\ btn w2 = btn w
    /\ pending w2 = pending w
    /\ requests w2 = requests w.
Proof.
  intros Ht Ho Hh Hc Hd Hcl.
  rewrite (showFeedback_transient text type w Ht).
  eexists. eexists. split; [reflexivity|].
  unfold step.
  cbn [spawn with_btn resume pending lookup now btn requests next_id errors].
  rewrite Nat.eqb_refl. unfold REVERT_DELAY. rewrite N.leb_refl.
  split; [reflexivity|].
  cbn [revert resume with_btn spawn remove btn pending requests
       classList originalHTML originalText tracked].
  rewrite Nat.eqb_refl, (class_remove_add _ _ Hcl), Ho.
  unfold or_else. destruct h as [|c h]; [contradiction|]. cbn [JS.truthy].
  destruct (btn w) as [co cl di oh ot tr]. cbn in *. subst.
  repeat split.
Qed.

Lemma feedback_then_timer_restores_button_witness :
  exists w1 w2,
    step (Elapse REVERT_DELAY)
      (showFeedback SET_API_URL (js "warning") initial) = Some w1
    /\ step (TimerFired 0) w1 = Some w2
    /\ btn w2 = createButton.
Proof.
  destruct (feedback_then_timer_restores_button SET_API_URL (js "warning")
              DEFAULT_HTML initial) as (w1 & w2 & H1 & H2 & H3 & _).
  - discriminate.
  - reflexivity.
  - discriminate.
  - reflexivity.
  - reflexivity.
  - vm_compute. intuition discriminate.
  - exists w1, w2. auto.
Defined.

End SubmitterMore.

(* ================================================================== *)
(** * Properties of the popup *)
(* ================================================================== *)

Section PopupFacts.
Import Popup Notions.

Lemma dropSlashes_head (s : jsstring) (c : N) (r : jsstring) :
  dropSlashes s = c :: r -> c <> 47%N.
Proof.
  induction s as [|x s IH]; simpl; [discriminate|].
  destruct (N.eqb_spec x 47); [exact IH|]. now intros [= <- _].
Qed.

Lemma dropSlashes_suffix (s : jsstring) :
  exists pre, s = pre ++ dropSlashes s /\ Forall (eq 47%N) pre.
Proof.
  induction s as [|x s (pre & E & F)]; simpl.
  - exists []. split; [reflexivity | constructor].
  - destruct (N.eqb_spec x 47) as [->|Hne].
    + exists (47%N :: pre). split; [simpl; now rewrite <- E|].
      now constructor.
    + exists []. split; [reflexivity | constructor].
Qed.

Lemma dropSlashes_all (s : jsstring) :
  Forall (eq 47%N) s -> dropSlashes s = [].
Proof.
  induction 1 as [|x s <- _ IH]; simpl; [reflexivity | exact IH].
Qed.

Lemma strip_prefix (s : jsstring) :
  exists slashes,
    s = stripTrailingSlashes s ++ slashes /\ Forall (eq 47%N) slashes.
Proof.
  unfold stripTrailingSlashes.
  destruct (dropSlashes_suffix (rev s)) as (pre & E & F).
  exists (rev pre). split.
  - rewrite <- rev_app_distr, <- E. now rewrite rev_involutive.
  - now apply Forall_rev.
Qed.

Lemma strip_last (s : jsstring) :
  stripTrailingSlashes s <> [] -> last (stripTrailingSlashes s) 0%N <> 47%N.
Proof.
  unfold stripTrailingSlashes.
  destruct (dropSlashes (rev s)) as [|c r] eqn:E; [now intros H|].
  intros _. simpl. rewrite last_last. exact (dropSlashes_head _ c r E).
Qed.

Lemma strip_head (s : jsstring) (c : N) (r : jsstring) :
  stripTrailingSlashes s = c :: r -> exists r', s = c :: r'.
Proof.
  intros H. destruct (strip_prefix s) as (sl & E & _).
  rewrite H in E. simpl in E. eauto.
Qed.

(** X11. The base URL the popup takes from an input is the trimmed input
    without the slashes at its end: it never ends in a slash and never
    starts with white space, and it is empty (the input is refused)
    exactly when the trimmed input is empty or made of slashes only. *)
Theorem normalized_input (value : jsstring) :
  (exists slashes,
     JS.trim value = normalize value ++ slashes
     /\ Forall (eq 47%N) slashes)
  /\ (normalize value <> [] -> last (normalize value) 0%N <> 47%N)
  /\ (forall c r, normalize value = c :: r -> JS.isWhiteSpace c = false)
  /\ (normalize value = [] <-> Forall (eq 47%N) (JS.trim value)).
Proof.
  unfold normalize. split; [apply strip_prefix|].
  split; [apply strip_last|]. split.
  - intros c r H. apply strip_head in H as [r' H].
    exact (proj1 (trim_is_trimmed value) c r' H).
  - split.
    + intros H. destruct (strip_prefix (JS.trim value)) as (sl & E & F).
      rewrite H in E. simpl in E. now rewrite E.
    + intros F. unfold stripTrailingSlashes.
      rewrite dropSlashes_all; [reflexivity | now apply Forall_rev].
Qed.

Lemma normalize_well_formed (value : jsstring) :
  JS.truthy (normalize value) = true -> well_formed (normalize value).
Proof.
  intros H. apply truthy_nonempty in H. split; [exact H|].
  unfold normalize in *. now apply strip_last.
Qed.

Lemma lookup_in (i : nat) (l : list (nat * task)) (t : task) :
  lookup i l = Some t -> In (i, t) l.
Proof.
  induction l as [|[j u] l IH]; simpl; [discriminate|].
  destruct (Nat.eqb_spec j i) as [->|Hne].
  - intros [= ->]. now left.
  - intros H. right. now apply IH.
Qed.

Lemma remove_incl (i : nat) (l : list (nat * task)) :
  incl (remove i l) l.
Proof.
  induction l as [|[j u] l IH]; simpl; [apply incl_refl|].
  destruct (Nat.eqb j i).
  - now apply incl_tl.
  - intros x [<-|H]; [now left | right; now apply IH].
Qed.

(** ** The store *)

Lemma store_inv_view (stored : option jsstring) (u : ui) (s : state) :
  store_inv stored s -> store_inv stored (with_view u s).
Proof. intros H. exact H. Qed.

Lemma store_inv_spawn (stored : option jsstring) (t : task) (s : state) :
  (forall url, set_url t = Some url -> well_formed url) ->
  store_inv stored s -> store_inv stored (spawn t s).
Proof.
  intros Ht [H1 H2]. split; [exact H1|].
  intros i t' url [[= <- <-]|Hin]; [apply Ht | now apply (H2 i t')].
Qed.

Lemma store_inv_saveClick (stored : option jsstring) (s : state) :
  store_inv stored s -> store_inv stored (saveClick s).
Proof.
  intros H. unfold saveClick.
  destruct (JS.truthy (normalize (urlSetupInput_value (view s)))) eqn:E;
    cbn [negb]; [|exact H].
  apply store_inv_spawn; [|exact H].
  intros url [= <-]. now apply normalize_well_formed.
Qed.

Lemma store_inv_updateClick (stored : option jsstring) (s : state) :
  store_inv stored s -> store_inv stored (updateClick s).
Proof.
  intros H. unfold updateClick.
  destruct (JS.truthy (normalize (urlEditInput_value (view s)))) eqn:E;
    cbn [negb]; [|exact H].
  apply store_inv_spawn; [|exact H].
  intros url [= <-]. now apply normalize_well_formed.
Qed.

Lemma store_inv_step (stored : option jsstring) (e : event) (s s' : state) :
  step e s = Some s' -> store_inv stored s -> store_inv stored s'.
Proof.
  destruct e as [|f v| | | | |key|key|i]; unfold step.
  - intros [= <-]. apply store_inv_spawn. discriminate.
  - now intros [= <-].
  - intros [= <-]. apply store_inv_saveClick.
  - intros [= <-]. apply store_inv_spawn. discriminate.
  - intros [= <-]. apply store_inv_updateClick.
  - now intros [= <-].
  - intros [= <-]. unfold setupKeydown.
    destruct (JS.eqb key (js "Enter")); [apply store_inv_saveClick | auto].
  - intros [= <-] H. unfold editKeydown.
    assert (H1 : store_inv stored
                   (if JS.eqb key (js "Enter") then updateClick s else s)).
    { destruct (JS.eqb key (js "Enter")); [now apply store_inv_updateClick|].
      exact H. }
    destruct (JS.eqb key (js "Escape")); exact H1.
  - destruct (lookup i (pending s)) as [t|] eqn:L; [|discriminate].
    intros [= <-] [H1 H2]. apply lookup_in in L.
    assert (R : forall j t' url, In (j, t') (remove i (pending s)) ->
                set_url t' = Some url -> well_formed url).
    { intros j t' url Hin. apply (H2 j t'). now apply (remove_incl i). }
    destruct t as [| |url|url]; unfold completed; cbn [apiBaseUrl view].
    + destruct (apiBaseUrl s) as [url|]; [destruct (JS.truthy url)|];
        (split; [exact H1 | exact R]).
    + split; [exact H1 | exact R].
    + split; [|exact R]. right. exists url. split; [reflexivity|].
      now apply (H2 i (SaveSet url) url L).
    + split; [|exact R]. right. exists url. split; [reflexivity|].
      now apply (H2 i (UpdateSet url) url L).
Qed.

Lemma store_inv_run (stored : option jsstring) (es : list event)
  (s s' : state) :
  run es s = Some s' -> store_inv stored s -> store_inv stored s'.
Proof.
  revert s. induction es as [|e es IH]; intros s; simpl.
  - now intros [= <-].
  - destruct (step e s) as [s1|] eqn:E; [|discriminate].
    intros R H. apply (IH s1 R). exact (store_inv_step stored e s s1 E H).
Qed.

Lemma store_inv_opened (u : ui) (stored : option jsstring) :
  store_inv stored (opened u stored).
Proof. split; [now left | intros i t url []]. Qed.

(** X12. The popup only ever stores base URLs it has normalised: after
    any sequence of events, the store holds either the value it held
    when the popup opened or a non-empty URL that does not end in a
    slash.  An input that normalises to the empty string is never
    written. *)
Theorem popup_stores_only_normalized_urls (u : ui)
  (stored : option jsstring) (es : list event) (s : state) :
  run es (opened u stored) = Some s ->
  apiBaseUrl s = stored
  \/ exists url,
       apiBaseUrl s = Some url /\ url <> [] /\ last url 0%N <> 47%N.
Proof.
  intros R.
  destruct (store_inv_run stored es _ s R (store_inv_opened u stored))
    as [[H|(url & H & W1 & W2)] _]; [now left | right; eauto].
Qed.

Lemma popup_stores_only_normalized_urls_witness :
  apiBaseUrl (Samples2.popup_after Samples2.first_setup)
  = Some (js "http://localhost:8000").
Proof.
  destruct (popup_stores_only_normalized_urls Samples2.popup_as_loaded None
              Samples2.first_setup
              (Samples2.popup_after Samples2.first_setup) eq_refl)
    as [H|(url & H & _)].
  - vm_compute in H. discriminate H.
  - vm_compute. reflexivity.
Defined.

(** ** The two views *)

Lemma one_view_saveClick (s : state) :
  one_view (view s) -> one_view (view (saveClick s)).
Proof.
  unfold saveClick.
  now destruct (negb (JS.truthy (normalize (urlSetupInput_value (view s))))).
Qed.

Lemma one_view_updateClick (s : state) :
  one_view (view s) -> one_view (view (updateClick s)).
Proof.
  unfold updateClick.
  now destruct (negb (JS.truthy (normalize (urlEditInput_value (view s))))).
Qed.

Lemma one_view_connected (url : jsstring) (u : ui) :
  one_view (showConnected url u).
Proof. right. split; reflexivity. Qed.

Lemma one_view_step (e : event) (s s' : state) :
  step e s = Some s' -> one_view (view s) -> one_view (view s').
Proof.
  destruct e as [|f v| | | | |key|key|i]; unfold step;
    try (intros [= <-]; intros H; exact H).
  - intros [= <-]. apply one_view_saveClick.
  - intros [= <-]. apply one_view_updateClick.
  - intros [= <-]. unfold setupKeydown.
    destruct (JS.eqb key (js "Enter")); [apply one_view_saveClick | auto].
  - intros [= <-] H. unfold editKeydown.
    assert (H1 : one_view
                   (view (if JS.eqb key (js "Enter")
                          then updateClick s else s))).
    { destruct (JS.eqb key (js "Enter")); [now apply one_view_updateClick|].
      exact H. }
    destruct (JS.eqb key (js "Escape")); exact H1.
  - destruct (lookup i (pending s)) as [t|]; [|discriminate].
    intros [= <-] H. destruct t as [| |url|url]; unfold completed;
      cbn [apiBaseUrl view].
    + destruct (apiBaseUrl s) as [url|]; [destruct (JS.truthy url)|];
        cbn [with_view view];
        solve [ apply one_view_connected | left; split; reflexivity ].
    + exact H.
    + apply one_view_connected.
    + right. split; reflexivity.
Qed.

Lemma one_view_run (es : list event) (s s' : state) :
  run es s = Some s' -> one_view (view s) -> one_view (view s').
Proof.
  revert s. induction es as [|e es IH]; intros s; simpl.
  - now intros [= <-].
  - destruct (step e s) as [s1|] eqn:E; [|discriminate].
    intros R H. apply (IH s1 R). exact (one_view_step e s s1 E H).
Qed.

(** X13. Once the callback of the popup's first read of the store has
    run, exactly one of the two views is shown, and it stays so whatever
    happens next; right after that callback the connected view is the
    one shown exactly when a non-empty base URL is stored, whatever the
    page showed before. *)
Theorem popup_shows_one_view_after_load (s0 s1 s : state) (i : nat)
  (es : list event) :
  lookup i (pending s0) = Some LoadGet ->
  step (StorageDone i) s0 = Some s1 ->
  run es s1 = Some s ->
  one_view (view s)
  /\ (connectedView_display (view s1) = js "block"
      <-> exists url, apiBaseUrl s0 = Some url /\ url <> []).
Proof.
  intros L S1 R. unfold step in S1. rewrite L in S1.
  injection S1 as <-. cbn [completed apiBaseUrl view].
  assert (O : one_view
                (view
                   match apiBaseUrl s0 with
                   | Some url =>
                       if JS.truthy url
                       then with_view (showConnected url (view s0))
                              {| view := view s0; apiBaseUrl := apiBaseUrl s0;
                                 pending := remove i (pending s0);
                                 next_id := next_id s0 |}
                       else with_view (showSetup (view s0))
                              {| view := view s0; apiBaseUrl := apiBaseUrl s0;
                                 pending := remove i (pending s0);
                                 next_id := next_id s0 |}
                   | None =>
                       with_view (showSetup (view s0))
                         {| view := view s0; apiBaseUrl := apiBaseUrl s0;
                            pending := remove i (pending s0);
                            next_id := next_id s0 |}
                   end)).
  { destruct (apiBaseUrl s0) as [url|]; [destruct (JS.truthy url)|];
      solve [ apply one_view_connected | left; split; reflexivity ]. }
  split; [exact (one_view_run es _ s R O)|].
  destruct (apiBaseUrl s0) as [[|c url]|]; cbn; split;
    try discriminate; try (intros (x & [= <-] & Hx); now contradiction Hx);
    try (intros (x & Hx & _); discriminate Hx).
  - intros _. eexists. split; [reflexivity | discriminate].
  - reflexivity.
Qed.

Lemma popup_shows_one_view_after_load_witness :
  one_view (view (Samples2.popup_after Samples2.first_setup)).
Proof.
  refine (proj1 (popup_shows_one_view_after_load
            (Samples2.popup_after [DOMContentLoaded])
            (Samples2.popup_after [DOMContentLoaded; StorageDone 0])
            (Samples2.popup_after Samples2.first_setup)
            0 (skipn 2 Samples2.first_setup) _ _ _)); reflexivity.
Defined.

(** ** From the popup to the content script *)

(** X14. A base URL saved through the popup is one the content script
    accepts: starting from an empty store, whatever non-empty value the
    popup has stored, a click on a readable job page sends the request
    to that value followed by [/api/jobs] (the value itself ends in no
    slash) and never shows the "Set API URL" warning. *)
Theorem saved_url_is_accepted_by_trackJob (u : ui) (es : list event)
  (s : state) (i : nat) (d : Dom.node) (href : jsstring)
  (w w' : Submitter.world) :
  run es (opened u None) = Some s ->
  apiBaseUrl s <> None ->
  Submitter.unusable_title (Scraper.scrapeJobData d href) = false ->
  Submitter.step (Submitter.StorageReply i (apiBaseUrl s) d href) w
  = Some w' ->
  exists url,
    apiBaseUrl s = Some url
    /\ last url 0%N <> 47%N
    /\ Submitter.requests w'
       = Submitter.requests w
         ++ [Submitter.post url (Scraper.scrapeJobData d href)]
    /\ Submitter.content (Submitter.btn w')
       = Submitter.PlainText Submitter.SAVING
    /\ Submitter.disabled (Submitter.btn w') = true.
Proof.
  intros R Hs Ht S1.
  destruct (store_inv_run None es _ s R (store_inv_opened u None))
    as [[H|(url & H & W1 & W2)] _]; [contradiction|].
  exists url. split; [exact H|]. split; [exact W2|].
  revert S1. unfold Submitter.step.
  destruct (Submitter.lookup i (Submitter.pending w)) as [[| | |]|];
    try discriminate.
  intros [= <-]. unfold Submitter.trackJob_configured.
  rewrite H. unfold Submitter.getApiUrl, Submitter.or_else.
  destruct url as [|c url]; [contradiction|]. cbn [JS.truthy negb].
  rewrite Ht. repeat split.
Qed.

Lemma saved_url_is_accepted_by_trackJob_witness :
  exists url,
    apiBaseUrl (Samples2.popup_after Samples2.first_setup) = Some url
    /\ map Submitter.req_url
         (Submitter.requests
            (Submitter.world_after
               [Submitter.Click;
                Submitter.StorageReply 0
                  (apiBaseUrl (Samples2.popup_after Samples2.first_setup))
                  Samples.job_page Samples.job_address]))
       = [url ++ js "/api/jobs"].
Proof.
  destruct (saved_url_is_accepted_by_trackJob Samples2.popup_as_loaded
              Samples2.first_setup
              (Samples2.popup_after Samples2.first_setup) 0
              Samples.job_page Samples.job_address
              (Submitter.world_after [Submitter.Click])
              (Submitter.world_after
                 [Submitter.Click;
                  Submitter.StorageReply 0
                    (apiBaseUrl (Samples2.popup_after Samples2.first_setup))
                    Samples.job_page Samples.job_address]))
    as (url & H1 & _ & H3 & _).
  - reflexivity.
  - vm_compute. discriminate.
  - vm_compute. reflexivity.
  - reflexivity.
  - exists url. split; [exact H1|]. rewrite H3. reflexivity.
Defined.

End PopupFacts.

(* ================================================================== *)
(** * Properties of the observer *)
(* ================================================================== *)

Section ObserverFacts.
Import Injector Observer Notions.

Variable suffix : nat -> jsstring.
Variable layout : nat -> N * N * N.

Lemma slot_inv_debounced (s : state) :
  slot_inv s ->
  slot_inv (debouncedInject s)
  /\ timers (debouncedInject s) = [(next_timer s, (now s + DEBOUNCE)%N)].
Proof.
  intros (Hn & Hs & Ht).
  assert (K : match injectionTimeout s with
              | Some id =>
                  if Nat.eqb id 0 then timers s
                  else clearTimeout id (timers s)
              | None => timers s
              end = []).
  { destruct Ht as [Ht|(id & due & Ht & Hi)].
    - rewrite Ht. destruct (injectionTimeout s) as [id|]; [|reflexivity].
      now destruct (Nat.eqb id 0).
    - rewrite Hi, Ht. destruct (Nat.eqb_spec id 0) as [->|Hne].
      + specialize (Hs 0 Hi). lia.
      + unfold clearTimeout. simpl. now rewrite Nat.eqb_refl. }
  unfold debouncedInject. rewrite K. cbn [timers]. split; [|reflexivity].
  split; [cbn; lia|]. split.
  - cbn. intros id [= <-]. lia.
  - right. exists (next_timer s), (now s + DEBOUNCE)%N. split; reflexivity.
Qed.

Lemma slot_inv_observed (records : list N) (s : state) :
  slot_inv s -> slot_inv (observed records s).
Proof.
  intros H. unfold observed.
  destruct (existsb (fun added => (0 <? added)%N) records); [|exact H].
  now apply slot_inv_debounced.
Qed.

Lemma slot_inv_fields (s s' : state) :
  next_timer s' = next_timer s ->
  injectionTimeout s' = injectionTimeout s ->
  timers s' = timers s \/ timers s' = [] ->
  slot_inv s -> slot_inv s'.
Proof.
  intros E1 E2 E3 (Hn & Hs & Ht). unfold slot_inv. rewrite E1, E2.
  split; [exact Hn|]. split; [exact Hs|].
  destruct E3 as [-> | ->]; [exact Ht | now left].
Qed.

Lemma clearTimeout_single (id : nat) (l : list (nat * N)) :
  l = [] \/ (exists j due, l = [(j, due)]) ->
  clearTimeout id l = l \/ clearTimeout id l = [].
Proof.
  intros [->|(j & due & ->)]; [now left|].
  unfold clearTimeout. simpl. destruct (Nat.eqb j id); simpl; auto.
Qed.

Lemma slot_inv_step (e : event) (s s' : state) :
  step suffix layout e s = Some s' -> slot_inv s -> slot_inv s'.
Proof.
  destruct e as [root' records|id| | |ms]; unfold step.
  - intros [= <-] H. apply slot_inv_observed.
    revert H. apply slot_inv_fields; auto.
  - destruct (due_of id (timers s)) as [due|]; [|discriminate].
    destruct (due <=? now s)%N; [|discriminate].
    intros [= <-] H. apply (slot_inv_fields s); try reflexivity; [|exact H].
    cbn [injectButtons timers]. apply clearTimeout_single.
    destruct H as (_ & _ & [Ht|(j & d & Ht & _)]); [now left|].
    right. now exists j, d.
  - destruct (frames s); [discriminate|]. intros [= <-] H.
    unfold frame. apply slot_inv_observed.
    revert H. apply slot_inv_fields; auto.
  - destruct (next_tick s <=? now s)%N; [|discriminate].
    intros [= <-] H. apply slot_inv_debounced.
    revert H. apply slot_inv_fields; auto.
  - intros [= <-]. apply slot_inv_fields; auto.
Qed.

Lemma slot_inv_run (es : list event) (s s' : state) :
  run suffix layout es s = Some s' -> slot_inv s -> slot_inv s'.
Proof.
  revert s. induction es as [|e es IH]; intros s; simpl.
  - now intros [= <-].
  - destruct (step suffix layout e s) as [s1|] eqn:E; [|discriminate].
    intros R H. apply (IH s1 R). exact (slot_inv_step e s s1 E H).
Qed.

Lemma slot_inv_start (pg : Injector.page) (t : N) : slot_inv (startObserver pg t).
Proof.
  split; [cbn; lia|]. split; [cbn; discriminate | now left].
Qed.

(** X15. The scans the observer asks for are debounced: however the page
    changes and whenever the interval comes round, at most one debounce
    timer is pending, it is the one the slot [injectionTimeout] names,
    and a further call of [debouncedInject] leaves exactly one timer,
    due 500 ms after the call. *)
Theorem one_debounce_timer_at_a_time (pg : Injector.page) (t : N)
  (es : list event) (s : state) :
  run suffix layout es (startObserver pg t) = Some s ->
  List.length (timers s) <= 1
  /\ (forall id due, In (id, due) (timers s) -> injectionTimeout s = Some id)
  /\ timers (debouncedInject s) = [(next_timer s, (now s + 500)%N)].
Proof.
  intros R.
  pose proof (slot_inv_run es _ s R (slot_inv_start pg t)) as H.
  split; [|split].
  - destruct H as (_ & _ & [->|(id & due & -> & _)]); simpl; lia.
  - intros id due Hin.
    destruct H as (_ & _ & [Ht|(j & d & Ht & Hi)]); rewrite Ht in Hin.
    + contradiction.
    + destruct Hin as [E|[]]. injection E as <- _. exact Hi.
  - exact (proj2 (slot_inv_debounced s H)).
Qed.

(** ** A scanned page *)







End ObserverFacts.

Lemma one_debounce_timer_at_a_time_witness :
  List.length
    (Observer.timers (Samples2.observer_after Samples2.frame_then_tick)) <= 1.
Proof.
  refine (proj1 (one_debounce_timer_at_a_time Samples.sample_suffix
            Samples.sample_layout Samples.shared_bar_page 0
            Samples2.frame_then_tick
            (Samples2.observer_after Samples2.frame_then_tick) _)).
  vm_compute. reflexivity.
Defined.


(* ================================================================== *)
(** * Further properties of the Injector *)
(* ================================================================== *)

Section InjectorMore.
Import Dom Injector Notions.

Variable suffix : nat -> jsstring.
Variable layout : nat -> N * N * N.

(** X17. What [findApplyButtons] returns has no duplicates, and holds
    exactly the elements of the page that are visible and either match
    one of the apply selectors or are [artdeco-button] buttons whose
    trimmed, lower-cased text is "apply" or "easy apply". *)
Theorem found_are_the_visible_apply_buttons (d : node) :
  NoDup (findApplyButtons d)
  /\ forall x,
       In x (findApplyButtons d) <->
       exists anc p cs,
         In (anc, Element x p cs) (listing [] d)
         /\ isVisible p = true
         /\ (existsb (fun sel => matches sel anc p) APPLY_BTN_SELECTORS = true
             \/ (matches [[tag "button"]] anc p = true
                 /\ hasClass p (js "artdeco-button") = true
                 /\ apply_text (Element x p cs) = true)).
Proof.
  split; [apply findApplyButtons_nodup|].
  intros x. rewrite findApplyButtons_in. split.
  - intros ([anc [s|i p cs]] & Hin & Hx & Hq); cbn [snd is_node] in Hx;
      [discriminate|].
    apply Nat.eqb_eq in Hx. subst i. exists anc, p, cs.
    split; [exact Hin|].
    unfold qualifies in Hq. cbn [fst snd] in Hq.
    apply andb_true_iff in Hq as [Hv Hq]. split; [exact Hv|].
    apply orb_true_iff in Hq as [Hq|Hq]; [now left | right].
    apply andb_true_iff in Hq as [Hq H3].
    apply andb_true_iff in Hq as [H1 H2]. auto.
  - intros (anc & p & cs & Hin & Hv & Hq).
    exists (anc, Element x p cs). split; [exact Hin|].
    split; [cbn; apply Nat.eqb_refl|].
    unfold qualifies. cbn [fst snd]. rewrite Hv. cbn [andb].
    destruct Hq as [Hq|(H1 & H2 & H3)].
    + now rewrite Hq.
    + rewrite H1, H2, H3. apply orb_true_r.
Qed.

(** ** The container *)

Lemma first_closest_first (before after : list selector) (s : selector)
  (i : nat) (p : props) (anc : ctx) (c : nat) :
  Forall (fun s' => closest s' i p anc = None) before ->
  closest s i p anc = Some c ->
  first_closest (before ++ s :: after) i p anc = Some c.
Proof.
  intros Hb Hs. induction Hb as [|s' before H' _ IH]; simpl.
  - now rewrite Hs.
  - now rewrite H'.
Qed.

Lemma first_closest_none (sels : list selector) (i : nat) (p : props)
  (anc : ctx) :
  first_closest sels i p anc = None <->
  forall s, In s sels -> closest s i p anc = None.
Proof.
  induction sels as [|s sels IH]; simpl.
  - split; [intros _ s [] | reflexivity].
  - destruct (closest s i p anc) as [c|] eqn:E.
    + split; [discriminate|]. intros H.
      rewrite (H s (or_introl eq_refl)) in E. discriminate.
    + rewrite IH. split.
      * intros H s' [<-|Hs]; [exact E | now apply H].
      * intros H s' Hs. apply H. now right.
Qed.

Lemma closest_detached (s : selector) (i : nat) (p : props) :
  closest s i p [] = None <-> matches s [] p = false.
Proof.
  simpl. destruct (matches s [] p); split; congruence.
Qed.

(** X18. The container of an apply button is the button itself or one of
    its ancestors.  The selectors are tried in their order, so an
    element matching an earlier selector wins over a nearer one matching
    a later selector; the parent is used when no selector matches; and
    there is no container only for an element without parent that
    matches no container selector. *)
Theorem container_is_self_or_ancestor (i : nat) (p : props) (anc : ctx) :
  (forall c, findInjectionContainer i p anc = Some c ->
     c = i \/ In c (map fst anc))
  /\ (forall before s after c,
        CONTAINER_SELECTORS = before ++ s :: after ->
        Forall (fun s' => closest s' i p anc = None) before ->
        closest s i p anc = Some c ->
        findInjectionContainer i p anc = Some c)
  /\ ((forall s, In s CONTAINER_SELECTORS -> closest s i p anc = None) ->
      findInjectionContainer i p anc = parentElement anc)
  /\ (findInjectionContainer i p anc = None <->
      anc = []
      /\ forall s, In s CONTAINER_SELECTORS -> matches s [] p = false).
Proof.
  split; [intros c; apply findInjectionContainer_in|].
  split; [|split].
  - intros before s after c E Hb Hs. unfold findInjectionContainer.
    rewrite E. now rewrite (first_closest_first before after s i p anc c Hb Hs).
  - intros H. unfold findInjectionContainer.
    now rewrite (proj2 (first_closest_none CONTAINER_SELECTORS i p anc) H).
  - unfold findInjectionContainer. split.
    + destruct (first_closest CONTAINER_SELECTORS i p anc) as [c|] eqn:F;
        [discriminate|].
      destruct anc as [|[j q] anc]; [|discriminate]. intros _.
      split; [reflexivity|]. intros s Hs.
      apply (proj1 (closest_detached s i p)).
      now apply (proj1 (first_closest_none _ _ _ _) F).
    + intros [-> H].
      rewrite (proj2 (first_closest_none CONTAINER_SELECTORS i p [])).
      * reflexivity.
      * intros s Hs. apply (proj2 (closest_detached s i p)). now apply H.
Qed.

(** ** What a scan keeps *)

Lemma ctx_sim_ids (anc anc' : ctx) :
  ctx_sim anc anc' -> map fst anc' = map fst anc.
Proof.
  induction 1 as [|a a' anc anc' [H _] _ IH]; simpl; [reflexivity|].
  now rewrite H, IH.
Qed.

Lemma grow_stays (b x : nat) (d d' : node) :
  grow b d d' -> x <= b -> stays x d d'.
Proof.
  intros G Hx anc p cs L.
  pose proof (locate_grow b x d d' G Hx) as H. rewrite L in H.
  destruct H as ([anc' n'] & L' & Hc & Hg & _). cbn [fst snd] in Hc, Hg.
  inversion Hg as [|? ? p' ? cs' Hp Hcs]; subst.
  exists anc', p', cs'. split; [exact L'|].
  split; [now apply ctx_sim_ids | exact Hp].
Qed.

Lemma stays_trans (x : nat) (d1 d2 d3 : node) :
  stays x d1 d2 -> stays x d2 d3 -> stays x d1 d3.
Proof.
  intros H1 H2 anc p cs L.
  destruct (H1 anc p cs L) as (anc2 & p2 & cs2 & L2 & A2 & P2).
  destruct (H2 anc2 p2 cs2 L2) as (anc3 & p3 & cs3 & L3 & A3 & P3).
  exists anc3, p3, cs3. split; [exact L3|].
  split; [congruence | now apply props_sim_trans with p2].
Qed.

Lemma fold_stays (l : list nat) :
  forall pg x,
    stays x (root pg) (root (fold_left (inject_one suffix layout) l pg)).
Proof.
  induction l as [|a l IH]; intros pg x; simpl.
  - intros anc p cs L. exists anc, p, cs.
    split; [exact L|]. split; [reflexivity | apply props_sim_refl].
  - apply stays_trans with (root (inject_one suffix layout pg a));
      [|apply IH].
    intros anc p cs L.
    pose proof (inject_one_step suffix layout pg a) as S. cbv zeta in S.
    destruct S as (G & _).
    assert (Hx : x <= max_nid (root pg))
      by now apply locate_bound with (anc, Element x p cs).
    exact (grow_stays (max_nid (root pg)) x _ _ G Hx anc p cs L).
Qed.

(** X19. A scan removes nothing and moves nothing: every element of the
    page is still there afterwards, under the same ancestors, with its
    tag, its layout and all its attributes except the processed marker
    (which is only ever set, never cleared). *)
Theorem scan_keeps_every_element (pg : page) (x : nat) (anc : ctx)
  (p : props) (cs : list node) :
  locate (root pg) x = Some (anc, Element x p cs) ->
  exists anc' p' cs',
    locate (root (scan suffix layout pg)) x = Some (anc', Element x p' cs')
    /\ map fst anc' = map fst anc
    /\ tagName p' = tagName p
    /\ (offsetWidth p', offsetHeight p', clientRects p')
       = (offsetWidth p, offsetHeight p, clientRects p)
    /\ (forall name, name <> PROCESSED_ATTR ->
          getAttribute p' name = getAttribute p name)
    /\ (processed p = true -> processed p' = true).
Proof.
  intros L. rewrite (scan_fold suffix layout pg).
  destruct (fold_stays (findApplyButtons (root pg)) pg x anc p cs L)
    as (anc' & p' & cs' & L' & A & (P1 & P2 & P3 & P4 & P5 & P6)).
  exists anc', p', cs'. rewrite P2, P3, P4. auto 10.
Qed.

(** ** What a scan achieves *)

Lemma props_at_update_other (b i x : nat) (g : props -> props)
  (h : list node -> list node) (d : node) :
  x <> i -> x <= b -> keeps_old b h ->
  props_at (update i g h d) x = props_at d x.
Proof.
  intros Hxi Hxb Hh. unfold props_at, locate.
  pose proof (find_update_other b i x g h Hxi Hxb Hh d [] []) as F.
  destruct (find (fun e => is_node x (snd e)) (listing [] d)) as [[anc n]|],
           (find (fun e => is_node x (snd e)) (listing [] (update i g h d)))
             as [[anc' n']|]; try contradiction; [|reflexivity].
  destruct F as (p & cs & E & [E'|E']); cbn [snd] in E, E'; subst n n';
    reflexivity.
Qed.

Lemma props_at_update_same (i : nat) (h : list node -> list node)
  (d : node) :
  props_at (update i (fun p => p) h d) i = props_at d i.
Proof.
  unfold props_at, locate.
  pose proof (find_update i (fun p => p) h d []) as F.
  destruct (find (fun e => is_node i (snd e)) (listing [] d))
    as [[anc [s|j p cs]]|]; [contradiction | now rewrite F | now rewrite F].
Qed.

Lemma processed_at_props (d : node) (a : nat) :
  processed_at d a
  = match props_at d a with Some p => processed p | None => false end.
Proof.
  unfold processed_at, props_at.
  now destruct (locate d a) as [[anc [s|i p cs]]|].
Qed.

(** The loop body for [a] leaves the marker of every other element as it
    is. *)
Lemma processed_at_inject_other (pg : page) (a x : nat) :
  x <> a -> x <= max_nid (root pg) ->
  processed_at (root (inject_one suffix layout pg a)) x
  = processed_at (root pg) x.
Proof.
  intros Hxa Hx. rewrite !processed_at_props.
  assert (P : props_at (root (inject_one suffix layout pg a)) x
              = props_at (root pg) x); [|now rewrite P].
  unfold inject_one.
  destruct (locate (root pg) a) as [[anc [s|i p cs]]|]; try reflexivity.
  destruct (processed p); [reflexivity|].
  destruct (findInjectionContainer a p anc) as [c1|]; [|reflexivity].
  assert (M : forall d, props_at (mark a d) x = props_at d x).
  { intros d. unfold mark. apply props_at_update_other with (b := x); auto.
    apply keeps_old_id. }
  destruct (has_control (root pg) c1); cbn [root]; rewrite M;
    [reflexivity|].
  set (b := max_nid (root pg)).
  set (t := rendered (layout (draws pg))
              (createButton (S b) (suffix (draws pg)))).
  assert (Hf : fresh_control b t).
  { exists (S b), (suffix (draws pg)), (layout (draws pg)).
    split; [lia | reflexivity]. }
  set (h := if parent_is anc c1 then insert_after a t
            else fun cs => cs ++ [t]).
  assert (Ed : (if parent_is anc c1 then insertAfter c1 a t (root pg)
                else appendChild c1 t (root pg))
               = update c1 (fun p => p) h (root pg)).
  { unfold h, insertAfter, appendChild. now destruct (parent_is anc c1). }
  rewrite Ed. destruct (Nat.eq_dec x c1) as [->|Hne].
  - apply props_at_update_same.
  - apply props_at_update_other with (b := b); auto.
    unfold h. destruct (parent_is anc c1).
    + now apply keeps_old_insert_after.
    + now apply keeps_old_append.
Qed.

Lemma fold_gives_control (d0 : node) (l : list nat) :
  (forall a, In a l -> a <= max_nid d0) -> NoDup l ->
  forall pg, evolves (max_nid d0) d0 (root pg) ->
  forall a c, In a l -> processed_at (root pg) a = false ->
    container_at d0 a = Some c ->
    has_control (root (fold_left (inject_one suffix layout) l pg)) c = true.
Proof.
  induction l as [|a0 l IH]; intros Hl Hn pg E a c Hin Hp Hc;
    [contradiction|].
  simpl. apply NoDup_cons_iff in Hn as [Hnot Hn'].
  assert (Hl' : forall x, In x l -> x <= max_nid d0)
    by (intros x Hx; apply Hl; now right).
  pose proof (step_evolves_from suffix layout d0 pg a0 E) as E1.
  pose proof (ev_max E) as M0. pose proof (ev_max E1) as M1.
  destruct Hin as [->|Hin].
  - assert (Ca : container_at (root pg) a = Some c).
    { rewrite (ev_container E a); [exact Hc|]. apply Hl. now left. }
    destruct (container_located d0 a c Hc) as (e & Le).
    pose proof (locate_bound d0 c e Le) as Hcb.
    assert (H1 : has_control (root (inject_one suffix layout pg a)) c = true).
    { pose proof (inject_one_step suffix layout pg a) as S. cbv zeta in S.
      destruct S as (_ & Hi & _ & [Heq|[(c' & C' & Hh & _)
                                       |(c' & _ & C' & _ & _ & _ & Hh)]]).
      - rewrite Heq in Hi. unfold inert in Hi. rewrite Hp, Ca in Hi.
        discriminate.
      - rewrite Ca in C'. injection C' as <-.
        apply (ev_control (inject_one_evolves suffix layout pg a));
          [lia | exact Hh].
      - rewrite Ca in C'. injection C' as <-. exact Hh. }
    apply (ev_control
             (fold_evolves suffix layout l (inject_one suffix layout pg a)));
      [lia | exact H1].
  - assert (Hne : a <> a0) by (intros ->; contradiction).
    apply (IH Hl' Hn' _ E1 a c Hin); [|exact Hc].
    rewrite processed_at_inject_other; auto.
    specialize (Hl a (or_intror Hin)). lia.
Qed.

(** X20. A scan serves every apply button it finds: for each found
    affordance that was not marked and has a container, the container
    holds a tracking control after the scan (the one inserted for it, or
    one that was or came there before), and the affordance is marked. *)
Theorem every_found_affordance_is_served (pg : page) (a c : nat) :
  In a (findApplyButtons (root pg)) ->
  processed_at (root pg) a = false ->
  container_at (root pg) a = Some c ->
  has_control (root (scan suffix layout pg)) c = true
  /\ processed_at (root (scan suffix layout pg)) a = true.
Proof.
  intros Hin Hp Hc. rewrite (scan_fold suffix layout pg). split.
  - apply (fold_gives_control (root pg) (findApplyButtons (root pg))
             (found_bound (root pg)) (findApplyButtons_nodup (root pg))
             pg (evolves_refl _ _) a c Hin Hp Hc).
  - apply (fold_marks suffix layout (root pg) (findApplyButtons (root pg))
             (found_bound (root pg)) pg (evolves_refl _ _) a Hin).
    rewrite Hc. discriminate.
Qed.

(** ** Where the control goes *)

Lemma nid_of_update (i : nat) (g : props -> props)
  (h : list node -> list node) (n : node) :
  nid_of (update i g h n) = nid_of n.
Proof. destruct n as [s|j p cs]; simpl; [reflexivity|]. now destruct (Nat.eqb j i). Qed.

Lemma children_ids_mark (a c : nat) (d : node) :
  map nid_of (children_at (mark a d) c) = map nid_of (children_at d c).
Proof.
  destruct (Nat.eq_dec c a) as [->|Hne].
  - unfold children_at, mark.
    destruct (locate d a) as [[anc n]|] eqn:L.
    + destruct (locate_element d a _ L) as (p & cs & E). simpl in E. subst n.
      now rewrite (locate_update a _ (fun cs => cs) d anc a p cs L).
    + pose proof (find_update a
                    (fun p => setAttribute p PROCESSED_ATTR (js "true"))
                    (fun cs => cs) d []) as F.
      unfold locate in *. rewrite L in F. now rewrite F.
  - unfold children_at, locate, mark.
    pose proof (find_update_other c a c
                  (fun p => setAttribute p PROCESSED_ATTR (js "true"))
                  (fun cs => cs) Hne (le_n c) (keeps_old_id c) d [] []) as F.
    destruct (find (fun e => is_node c (snd e)) (listing [] d))
      as [[anc n]|],
      (find (fun e => is_node c (snd e))
         (listing []
            (update a (fun p => setAttribute p PROCESSED_ATTR (js "true"))
               (fun cs => cs) d))) as [[anc' n']|];
      try contradiction; [|reflexivity].
    destruct F as (p & cs & E & [E'|E']); cbn [snd] in E, E'; subst n n';
      [reflexivity|].
    rewrite map_map. apply map_ext. intros n. apply nid_of_update.
Qed.

Lemma insert_after_at (a : nat) (t n : node) (l1 l2 : list node) :
  is_node a n = true -> (forall m, In m l1 -> is_node a m = false) ->
  insert_after a t (l1 ++ n :: l2) = l1 ++ n :: t :: l2.
Proof.
  intros Hn. induction l1 as [|m l1 IH]; intros H; simpl.
  - now rewrite Hn.
  - rewrite (H m (or_introl eq_refl)). f_equal. apply IH.
    intros m' Hm. apply H. now right.
Qed.

(** X21. Where an injected control goes.  When the apply button is a
    child of its container, the control becomes the button's next
    sibling: the children before the button and after it stay in their
    order.  Otherwise the control becomes the last child of the
    container.  (Children are given by their identities; the new
    control takes the first identity above those of the page.) *)
Theorem control_goes_next_to_the_button (pg : page) (a c : nat)
  (anc : ctx) (p : props) (cs : list node) :
  locate (root pg) a = Some (anc, Element a p cs) ->
  processed p = false ->
  findInjectionContainer a p anc = Some c ->
  has_control (root pg) c = false ->
  let fresh := S (max_nid (root pg)) in
  let after := children_at (root (inject_one suffix layout pg a)) c in
  (parent_is anc c = false ->
   map nid_of after = map nid_of (children_at (root pg) c) ++ [Some fresh])
  /\ (parent_is anc c = true ->
      forall l1 n l2,
        children_at (root pg) c = l1 ++ n :: l2 ->
        is_node a n = true ->
        (forall m, In m l1 -> is_node a m = false) ->
        map nid_of after
        = map nid_of l1 ++ [Some a; Some fresh] ++ map nid_of l2).
Proof.
  intros L Hp Hc Hh. cbv zeta. unfold inject_one. rewrite L, Hp, Hc, Hh.
  cbn [root]. rewrite children_ids_mark.
  assert (Ca : container_at (root pg) a = Some c)
    by (unfold container_at; now rewrite L).
  destruct (container_located (root pg) a c Ca) as (e & Le).
  split; intros Hpar; rewrite Hpar.
  - unfold appendChild.
    rewrite (children_at_update c _ (root pg) e Le), map_app. reflexivity.
  - intros l1 n l2 E Hn Hl1. unfold insertAfter.
    rewrite (children_at_update c _ (root pg) e Le), E.
    rewrite (insert_after_at a _ n l1 l2 Hn Hl1).
    rewrite map_app. cbn [map app]. f_equal. f_equal.
    destruct n as [s|j q ns]; [discriminate|]. cbn in Hn.
    apply Nat.eqb_eq in Hn. now subst j.
Qed.

(** X22. The script never takes its own control for an apply button:
    whatever its random suffix, its layout and the place it is put, a
    control matches the selector of the redundancy check, and neither
    the control nor the span inside it qualifies for [findApplyButtons],
    although the control is a button of class [artdeco-button]. *)
Theorem control_is_not_an_affordance (fresh : nat) (s : jsstring)
  (box : N * N * N) (anc : ctx) :
  let t := rendered box (createButton fresh s) in
  node_matches TRACK_BTN_SELECTOR (anc, t) = true
  /\ hasClass (control_props s) (js "artdeco-button") = true
  /\ forall e, In e (listing anc t) -> qualifies e = false.
Proof.
  cbv zeta. split; [apply control_matches|]. split; [reflexivity|].
  intros e [<-|[<-|[]]]; unfold qualifies; cbn [fst snd];
    apply andb_false_iff; right; reflexivity.
Qed.

End InjectorMore.

Lemma scan_keeps_every_element_witness :
  exists anc' p' cs',
    Dom.locate
      (Injector.root
         (Injector.scan Samples.sample_suffix Samples.sample_layout
            Samples.shared_bar_page)) 4
    = Some (anc', Dom.Element 4 p' cs')
    /\ map fst anc' = [3; 1; 0].
Proof.
  destruct (scan_keeps_every_element Samples.sample_suffix
              Samples.sample_layout Samples.shared_bar_page 4
              [ (3, Samples.laid_out "div" [(js "class", js "jobs-s-apply__secondary")]);
                (1, Samples.laid_out "div" [(js "class", js "jobs-s-apply")]);
                (0, Samples.laid_out "html" [(js "class", js "")]) ]
              (Samples.laid_out "button" [(js "class", js "jobs-apply-button")])
              [Dom.Text (js "Apply")])
    as (anc' & p' & cs' & L & A & _).
  - vm_compute. reflexivity.
  - exists anc', p', cs'. split; [exact L | exact A].
Defined.

Lemma every_found_affordance_is_served_witness :
  Injector.has_control
    (Injector.root
       (Injector.scan Samples.sample_suffix Samples.sample_layout
          Samples.shared_bar_page)) 1 = true.
Proof.
  refine (proj1 (every_found_affordance_is_served Samples.sample_suffix
            Samples.sample_layout Samples.shared_bar_page 4 1 _ _ _));
    vm_compute; auto.
Defined.

Lemma control_goes_next_to_the_button_witness :
  map Dom.nid_of
    (Injector.children_at
       (Injector.root
          (Injector.inject_one Samples.sample_suffix Samples.sample_layout
             Samples.shared_bar_page 2)) 1)
  = [Some 2; Some 7; Some 3].
Proof.
  refine (proj2 (control_goes_next_to_the_button Samples.sample_suffix
            Samples.sample_layout Samples.shared_bar_page 2 1
            [ (1, Samples.laid_out "div" [(js "class", js "jobs-s-apply")]);
              (0, Samples.laid_out "html" [(js "class", js "")]) ]
            (Samples.laid_out "button"
               [(js "class", js "jobs-apply-button artdeco-button")])
            [Dom.Text (js "Easy Apply")] _ _ _ _) _
            []
            (Samples.el "button" 2 "jobs-apply-button artdeco-button"
               [Dom.Text (js "Easy Apply")])
            [ Samples.el "div" 3 "jobs-s-apply__secondary"
                [ Samples.el "button" 4 "jobs-apply-button"
                    [Dom.Text (js "Apply")] ] ]
            _ _ _);
    try (vm_compute; reflexivity).
  intros m [].
Defined.

(* ================================================================== *)
(** * What one scan inserts *)
(* ================================================================== *)

Section ScanFacts.
Import Dom Injector Notions.

Variable suffix : nat -> jsstring.
Variable layout : nat -> N * N * N.





End ScanFacts.

